(** * OpenIFEM: the FSI coupling layer and the solid solvers it drives

    A shallow embedding of
      - [MPI::FSI<dim>] (move_solid_mesh, point_in_solid, find_fluid_bc,
        find_solid_bc, run),
      - the Newton loop of [HyperElasticity<dim>::run_one_step] and of
        [SharedHyperElasticity<dim>::run_one_step],
      - the Neumann face loop of the three [assemble_system] functions,
      - the Newmark updates of the [run_one_step] functions, the volume loop
        of [SharedLinearElasticity<dim>::assemble_system], the symmetric fill
        of the hyperelastic ones, [compute_volume], the projection of
        [update_strain_and_stress] and the flags of [FSI::refine_mesh].

    Doubles are modelled by rationals [Q], and the comparisons of doubles by
    the boolean comparisons of [QArith], which are exact as the comparisons
    of doubles are.  Where a property is about which branch runs, which value
    is stored where, or an identity between update formulas, the arithmetic
    is exact and every expression is kept in the shape the source writes it.
    Where the rounding of a double decides the outcome (the mesh motion there
    and back, the bounding box, the classification of a point) the functions
    are given once more in [Module Rounded], over an [Arithmetic] that
    supplies the four operations; [binary64] is IEEE 754 double precision
    with an unbounded exponent range.  Infinities and NaN are not modelled.
    deal.II containers ([Vector<double>], [std::vector]) are lists read by
    index. *)

From Stdlib Require Import QArith Qabs Qround Qpower Lia Lqa Bool String.
From stdpp Require Import base option list gmap.

Local Open Scope Q_scope.

(* ===================================================================== *)
(** * Part I: the embedding                                               *)
(* ===================================================================== *)

(** ** Scalars, points and tensors *)

(** [Point<dim>] and [Tensor<1,dim>]: the list of the [dim] coordinates. *)
Definition Point : Type := list Q.

(** [Vector<double>], read by [operator()]. *)
Definition Vector : Type := list Q.

Definition coord (p : Point) (i : nat) : Q := nth i p 0.

Definition vget (u : Vector) (i : nat) : Q := nth i u 0.

(** Strict comparison of doubles, as a boolean. *)
Definition Qlt_bool (a b : Q) : bool := negb (Qle_bool b a).

(** [Point::operator+=] and [operator-=]: one coordinate at a time. *)
Definition point_add (p w : Point) : Point := imap (fun d x => x + coord w d) p.

Definition point_sub (p w : Point) : Point := imap (fun d x => x - coord w d) p.

(** [operator-] on two points: the [Tensor<1,dim>] of the differences. *)
Definition tensor_diff (dim : nat) (p q : Point) : Point :=
  map (fun d => coord p d - coord q d) (seq 0 dim).

(** Equality of points up to the representation of the rationals. *)
Definition point_eq (p q : Point) : Prop := Forall2 Qeq p q.

(** [GeometryInfo<dim>]. *)
Definition vertices_per_cell (dim : nat) : nat := Nat.pow 2 dim.

Definition faces_per_cell (dim : nat) : nat := (2 * dim)%nat.

(** ** The solid mesh and [FSI::move_solid_mesh] *)

(** What the coupling reads of a face of a solid cell. *)
Record Face : Type := mkFace {
  at_boundary : bool;
  boundary_id : nat;
  (** global indices of [face->vertex(0)] and [face->vertex(1)] (2-D) *)
  face_vertex0 : nat;
  face_vertex1 : nat;
  (** [fe_face_values.quadrature_point(q)] and [normal_vector(q)] on a
      vertex table (deal.II computes them from the current vertices) *)
  face_quadrature_point : list Point -> nat -> Point;
  face_normal_vector : list Point -> nat -> Point
}.

(** An active cell of [solid_solver.dof_handler]. *)
Record SolidCell : Type := mkSolidCell {
  vertex_index : nat -> nat;
  vertex_dof_index : nat -> nat -> nat;
  faces : list Face
}.

(** The displacement of local vertex [v] of [c], read from the localized
    displacement vector. *)
Definition vertex_displacement (dim : nat) (u : Vector) (c : SolidCell) (v : nat)
  : Point :=
  map (fun d => vget u (vertex_dof_index c v d)) (seq 0 dim).

(** The body of the inner loop: local vertex [v] of cell [c].  The state is
    [vertex_touched] and the vertex table of the triangulation. *)
Definition move_vertex (dim : nat) (move_forward : bool) (u : Vector)
    (c : SolidCell) (st : list bool * list Point) (v : nat)
  : list bool * list Point :=
  let idx := vertex_index c v in
  match st.1 !! idx with
  | Some false =>
      let w := vertex_displacement dim u c v in
      (<[idx := true]> st.1,
       alter (fun p => if move_forward then point_add p w else point_sub p w)
             idx st.2)
  | _ => st
  end.

Definition move_cell (dim : nat) (move_forward : bool) (u : Vector)
    (st : list bool * list Point) (c : SolidCell) : list bool * list Point :=
  foldl (move_vertex dim move_forward u c) st (seq 0 (vertices_per_cell dim)).

(** [FSI::move_solid_mesh(move_forward)]: the new vertex table, in exact
    arithmetic ([Rounded.move_solid_mesh] is the same loop in doubles). *)
Definition move_solid_mesh (dim : nat) (move_forward : bool) (u : Vector)
    (cells : list SolidCell) (vertices : list Point) : list Point :=
  (foldl (move_cell dim move_forward u)
         (replicate (length vertices) false, vertices) cells).2.

(** The first (cell, local vertex) pair of the cell loop that names the
    global vertex [idx]; used to state which displacement a vertex gets. *)
Definition cell_visits (dim : nat) (c : SolidCell) : list (SolidCell * nat) :=
  map (fun v => (c, v)) (seq 0 (vertices_per_cell dim)).

Definition mesh_visits (dim : nat) (cells : list SolidCell)
  : list (SolidCell * nat) :=
  concat (map (cell_visits dim) cells).

Definition first_visit (dim : nat) (cells : list SolidCell) (idx : nat)
  : option (SolidCell * nat) :=
  List.find (fun cv => Nat.eqb (vertex_index cv.1 cv.2) idx)
            (mesh_visits dim cells).

(** What one call does to a vertex that the pair [cv] names. *)
Definition shift (dim : nat) (move_forward : bool) (u : Vector)
    (cv : SolidCell * nat) (p : Point) : Point :=
  if move_forward then point_add p (vertex_displacement dim u cv.1 cv.2)
  else point_sub p (vertex_displacement dim u cv.1 cv.2).

(** The loop body on a (cell, local vertex) pair. *)
Definition visit_step (dim : nat) (move_forward : bool) (u : Vector)
    (st : list bool * list Point) (cv : SolidCell * nat)
  : list bool * list Point :=
  move_vertex dim move_forward u cv.1 st cv.2.

(** ** [FSI::update_solid_box] and [FSI::point_in_solid] *)

(** [Point::operator==]: all [dim] coordinates compare equal. *)
Definition point_eqb (dim : nat) (p q : Point) : bool :=
  forallb (fun d => Qeq_bool (coord p d) (coord q d)) (seq 0 dim).

(** The bounding-box test that opens [point_in_solid]: [true] when some
    coordinate lies strictly outside [solid_box]. *)
Definition outside_box (dim : nat) (solid_box : Vector) (point : Point) : bool :=
  existsb (fun i => Qlt_bool (coord point i) (vget solid_box (2 * i))
                    || Qlt_bool (vget solid_box (2 * i + 1)) (coord point i))
          (seq 0 dim).

(** A boundary face of the 2-D solid, as the pair
    ([face->vertex(0)], [face->vertex(1)]) of its current end points. *)
Definition Segment : Type := (Point * Point)%type.

(** [r2[0] + p2(0)]: the abscissa at which the line through the segment
    meets the horizontal line through [point]; [r2] stays zero for a
    horizontal segment.  In exact arithmetic; [Rounded.r2_x] is the same
    expression in doubles. *)
Definition r2_x (point : Point) (seg : Segment) : Q :=
  let p1 := seg.1 in
  let p2 := seg.2 in
  let r1 := tensor_diff 2 p1 p2 in
  let r2 :=
    if negb (Qeq_bool (coord r1 1) 0)
    then map (fun x => x * (coord point 1 - coord p2 1) / coord r1 1) r1
    else [0; 0] in
  coord r2 0 + coord p2 0.

(** What one pass of the loop over [solid_boundaries] does. *)
Inductive SegmentResult : Type :=
| ReturnTrue
| Continue (cross_number half_cross_number : nat).

Definition segment_step (solid_box : Vector) (point : Point)
    (cross_number half_cross_number : nat) (seg : Segment) : SegmentResult :=
  let p1 := seg.1 in
  let p2 := seg.2 in
  let y_diff1 := coord p1 1 - coord point 1 in
  let y_diff2 := coord p2 1 - coord point 1 in
  let x_diff1 := coord p1 0 - coord point 0 in
  let x_diff2 := coord p2 0 - coord point 0 in
  if Qlt_bool (y_diff1 * y_diff2) 0 then
    if Qlt_bool (coord point 0) (r2_x point seg)
    then Continue (S cross_number) half_cross_number
    else if Qeq_bool (r2_x point seg) (coord point 0)
    then ReturnTrue
    else Continue cross_number half_cross_number
  else if Qeq_bool (y_diff1 * y_diff2) 0 then
    if Qeq_bool y_diff1 0 && Qeq_bool y_diff2 0 then
      if Qlt_bool (x_diff1 * x_diff2) 0
      then ReturnTrue
      else Continue cross_number half_cross_number
    else if Qlt_bool (coord point 0) (r2_x point seg) then
      if negb (Qeq_bool (coord point 1) (vget solid_box 2))
         && negb (Qeq_bool (coord point 1) (vget solid_box 3))
      then Continue cross_number (S half_cross_number)
      else Continue cross_number half_cross_number
    else if point_eqb 2 point p1 || point_eqb 2 point p2
    then ReturnTrue
    else Continue cross_number half_cross_number
  else Continue cross_number half_cross_number.

Fixpoint crossing_loop (solid_box : Vector) (point : Point)
    (solid_boundaries : list Segment) (cross_number half_cross_number : nat)
  : SegmentResult :=
  match solid_boundaries with
  | [] => Continue cross_number half_cross_number
  | seg :: rest =>
      match segment_step solid_box point cross_number half_cross_number seg with
      | ReturnTrue => ReturnTrue
      | Continue cn hcn => crossing_loop solid_box point rest cn hcn
      end
  end.

(** [FSI::point_in_solid].  [solid_boundaries] are the boundary faces
    collected by [collect_solid_boundaries], read on the current vertex
    table; [cells_point_inside] is [cell->point_inside] of every active
    solid cell (deal.II), used in 3-D only.  The counters are [unsigned int]
    in the source and far from wrapping. *)
Definition point_in_solid (dim : nat) (solid_box : Vector)
    (solid_boundaries : list Segment) (cells_point_inside : list (Point -> bool))
    (point : Point) : bool :=
  if outside_box dim solid_box point then false
  else if Nat.eqb dim 2 then
    match crossing_loop solid_box point solid_boundaries 0 0 with
    | ReturnTrue => true
    | Continue cross_number half_cross_number =>
        let cross_number := (cross_number + half_cross_number / 2)%nat in
        if Nat.eqb (cross_number mod 2) 0 then false else true
    end
  else existsb (fun inside => inside point) cells_point_inside.

(** [FSI::collect_solid_boundaries] (2-D): the boundary faces of all cells,
    in cell order. *)
Definition collect_solid_boundaries (dim : nat) (cells : list SolidCell)
  : list Face :=
  if Nat.eqb dim 2
  then concat (map (fun c => filter (fun f => at_boundary f = true)
                                    (take (faces_per_cell dim) (faces c))) cells)
  else [].

(** The end points of a collected face on a vertex table. *)
Definition face_segment (vertices : list Point) (f : Face) : Segment :=
  (default [] (vertices !! face_vertex0 f),
   default [] (vertices !! face_vertex1 f)).

Definition b2n (b : bool) : nat := if b then 1%nat else 0%nat.

(** The three ways a segment ends the loop with [true], and the two ways
    it counts, each stated on its own. *)
Definition on_crossing (point : Point) (seg : Segment) : bool :=
  Qlt_bool ((coord seg.1 1 - coord point 1) * (coord seg.2 1 - coord point 1)) 0
  && Qeq_bool (r2_x point seg) (coord point 0).

Definition on_horizontal (point : Point) (seg : Segment) : bool :=
  Qeq_bool (coord seg.1 1 - coord point 1) 0
  && Qeq_bool (coord seg.2 1 - coord point 1) 0
  && Qlt_bool ((coord seg.1 0 - coord point 0) * (coord seg.2 0 - coord point 0)) 0.

Definition on_vertex (point : Point) (seg : Segment) : bool :=
  Qeq_bool ((coord seg.1 1 - coord point 1) * (coord seg.2 1 - coord point 1)) 0
  && negb (Qeq_bool (coord seg.1 1 - coord point 1) 0
           && Qeq_bool (coord seg.2 1 - coord point 1) 0)
  && negb (Qlt_bool (coord point 0) (r2_x point seg))
  && (point_eqb 2 point seg.1 || point_eqb 2 point seg.2).

Definition on_boundary (point : Point) (seg : Segment) : bool :=
  on_crossing point seg || on_horizontal point seg || on_vertex point seg.

Definition full_crossing (point : Point) (seg : Segment) : bool :=
  Qlt_bool ((coord seg.1 1 - coord point 1) * (coord seg.2 1 - coord point 1)) 0
  && Qlt_bool (coord point 0) (r2_x point seg).

Definition half_crossing (solid_box : Vector) (point : Point) (seg : Segment)
  : bool :=
  Qeq_bool ((coord seg.1 1 - coord point 1) * (coord seg.2 1 - coord point 1)) 0
  && negb (Qeq_bool (coord seg.1 1 - coord point 1) 0
           && Qeq_bool (coord seg.2 1 - coord point 1) 0)
  && Qlt_bool (coord point 0) (r2_x point seg)
  && negb (Qeq_bool (coord point 1) (vget solid_box 2))
  && negb (Qeq_bool (coord point 1) (vget solid_box 3)).

(** The crossing count of the spec: full crossings plus half crossings
    floor-divided by two, over all segments. *)
Definition crossing_count (solid_box : Vector) (point : Point)
    (solid_boundaries : list Segment) : nat :=
  (length (filter (fun seg => full_crossing point seg = true) solid_boundaries)
   + length (filter (fun seg => half_crossing solid_box point seg = true)
                    solid_boundaries) / 2)%nat.

(** ** Exceptions *)

(** [AssertThrow(cond, ExcMessage(text))]: the exception leaves the function.
    (deal.II's [Assert] is compiled out of release builds and is not
    modelled.) *)
Inductive Exc : Type :=
| ExcMessage (text : string)
| ExcMessageAt (text : string) (where_ : Point).

Inductive Result (A : Type) : Type :=
| Ok (a : A)
| Throw (e : Exc).
Arguments Ok {A} a.
Arguments Throw {A} e.

Definition bind {A B : Type} (r : Result A) (k : A -> Result B) : Result B :=
  match r with
  | Ok a => k a
  | Throw e => Throw e
  end.

(** A loop whose body may throw. *)
Fixpoint foldM {A B : Type} (f : A -> B -> Result A) (a : A) (l : list B)
  : Result A :=
  match l with
  | [] => Ok a
  | b :: l => bind (f a b) (fun a' => foldM f a' l)
  end.

(** ** Tensors of rank 2 *)

Definition Tensor2 : Type := list (list Q).

Definition tensor2_get (t : Tensor2) (i j : nat) : Q := nth j (nth i t []) 0.

Definition tensor2_init (dim : nat) (f : nat -> nat -> Q) : Tensor2 :=
  map (fun i => map (fun j => f i j) (seq 0 dim)) (seq 0 dim).

Definition zero_tensor1 (dim : nat) : Point := replicate dim 0.

Definition zero_tensor2 (dim : nat) : Tensor2 := replicate dim (replicate dim 0).

(** [Physics::Elasticity::StandardTensors<dim>::I]. *)
Definition identity_entry (i j : nat) : Q := if Nat.eqb i j then 1 else 0.

(** [-p * I + 2 * viscosity * sym_grad_v], entry by entry. *)
Definition fluid_stress (dim : nat) (viscosity p : Q) (sym_grad_v : Tensor2)
  : Tensor2 :=
  tensor2_init dim (fun i j =>
    - p * identity_entry i j + 2 * viscosity * tensor2_get sym_grad_v i j).

Definition tensor2_sub (dim : nat) (a b : Tensor2) : Tensor2 :=
  tensor2_init dim (fun i j => tensor2_get a i j - tensor2_get b i j).

(** [stress * normal]: the contraction of a symmetric tensor with a vector. *)
Definition tensor2_apply (dim : nat) (t : Tensor2) (n : Point) : Point :=
  map (fun i => fold_left (fun acc j => acc + tensor2_get t i j * coord n j)
                          (seq 0 dim) 0)
      (seq 0 dim).

(** ** Run-time parameters *)

Record AllParameters : Type := mkParameters {
  simulation_type : string;
  solid_rho : Q;
  fluid_rho : Q;
  gravity : list Q;
  viscosity : Q;
  solid_neumann_bcs : gmap nat (list Q);
  solid_neumann_bc_type : string;
  (** boundary ids with a prescribed Dirichlet condition *)
  solid_dirichlet_bcs : gmap nat nat;
  solid_max_iterations : nat;
  tol_d : Q;
  tol_f : Q;
  end_time : Q;
  time_step : Q;
  refinement_interval : Q;
  global_refinements : list nat
}.

(** ** The fluid side read by [FSI::find_fluid_bc] *)

(** [fluid_solver.fe]. *)
Record FiniteElement : Type := mkFE {
  unit_support_points : list Point;
  (** [system_to_base_index(i).first.first]: 0 velocity, 1 pressure *)
  base_group : nat -> nat;
  (** [system_to_component_index(i).first] *)
  component_index : nat -> nat
}.

(** An active cell of [fluid_solver.dof_handler], with what [FEValues]
    gives on it for [present_solution]. *)
Record FluidCell : Type := mkFluidCell {
  cell_id : nat;
  is_artificial : bool;
  is_locally_owned : bool;
  dof_indices : list nat;
  (** [dummy_fe_values.get_quadrature_points()] *)
  support_points : list Point;
  (** [fe_values.quadrature_point(q)] *)
  quadrature_points : list Point;
  (** pressure and symmetric velocity gradient at the quadrature points *)
  p_values : list Q;
  sym_grad_v : list Tensor2
}.

(** The record kept per quadrature point of a fluid cell. *)
Record FluidCellProperty : Type := mkFluidCellProperty {
  indicator : nat;
  fsi_acceleration : Point;
  fsi_stress : Tensor2
}.

(** Queries on the solid mesh.  [Utils::CellLocator] and
    [Utils::GridInterpolator] belong to this repository but not to the
    files at hand, and [VectorTools::point_value] and [point_inside] are
    deal.II's: all are taken as parameters.  Each reads the current vertex
    table of the solid; a hint is the index of an active solid cell. *)
Record SolidQueries : Type := mkSolidQueries {
  locator_search : list Point -> Point -> nat -> nat;
  interpolator_found_cell : list Point -> Point -> nat -> bool;
  interpolator_point_value : list Point -> Vector -> Point -> nat -> Vector;
  vector_tools_point_value : list Point -> Vector -> Point -> Vector;
  cells_point_inside : list Point -> list (Point -> bool)
}.

(** The solid solver as the coupling sees it. *)
Record SolidSolver : Type := mkSolidSolver {
  solid_cells : list SolidCell;
  solid_vertices : list Point;
  current_displacement : Vector;
  current_velocity : Vector;
  current_acceleration : Vector;
  (** [stress[i][j]], nodal *)
  solid_stress : nat -> nat -> Vector
}.

(** [AffineConstraints<double>] restricted to lines without entries: the
    map from a constrained dof to its inhomogeneity.  The lines
    [find_fluid_bc] adds are of this kind; of a line the fluid solver held
    before, only that the dof is constrained is meaningful here (deal.II's
    [merge] also resolves the entries of such a line). *)
Definition add_line (line : nat) (c : gmap nat Q) : gmap nat Q :=
  match c !! line with
  | Some _ => c
  | None => <[line := 0]> c
  end.

Definition set_inhomogeneity (line : nat) (value : Q) (c : gmap nat Q)
  : gmap nat Q :=
  <[line := value]> c.

(** [merge(other, left_object_wins)]. *)
Definition merge_left_object_wins (left other : gmap nat Q) : gmap nat Q :=
  left ∪ other.

(** What [find_fluid_bc] writes while it loops over the fluid cells. *)
Record BCState : Type := mkBCState {
  dof_touched : gset nat;
  inner_nonzero : gmap nat Q;
  inner_zero : gmap nat Q;
  cell_hints : gmap (nat * nat) nat;
  cell_property : gmap nat (list FluidCellProperty)
}.

(** The data [find_fluid_bc] reads and does not change. *)
Record FluidBCEnv : Type := mkFluidBCEnv {
  env_dim : nat;
  env_parameters : AllParameters;
  env_queries : SolidQueries;
  env_fe : FiniteElement;
  env_present_solution : Vector;
  (** the solid, on the vertex table moved forward *)
  env_solid : SolidSolver;
  env_moved_vertices : list Point;
  env_solid_box : Vector;
  env_solid_boundaries : list Face
}.

Definition env_point_in_solid (env : FluidBCEnv) (point : Point) : bool :=
  point_in_solid (env_dim env) (env_solid_box env)
    (map (face_segment (env_moved_vertices env)) (env_solid_boundaries env))
    (cells_point_inside (env_queries env) (env_moved_vertices env))
    point.

(** The test named [inside] in the source: no unit coordinate is within
    1e-5 of zero. *)
Definition in_cell_support_point (dim : nat) (unit_point : Point) : bool :=
  forallb (fun d => negb (Qlt_bool (Qabs (coord unit_point d)) (1 # 100000)))
          (seq 0 dim).

Definition hint_of (st : BCState) (c : FluidCell) (i : nat) : nat :=
  default 0%nat (cell_hints st !! (cell_id c, i)).

(** The body of the loop over the support points, at local index [i]. *)
Definition support_point_step (env : FluidBCEnv) (c : FluidCell)
    (st : BCState) (i : nat) : Result BCState :=
  let dof := nth i (dof_indices c) 0%nat in
  if decide (dof ∈ dof_touched st) then Ok st
  else if Nat.eqb (base_group (env_fe env) i) 1 then Ok st
  else if in_cell_support_point (env_dim env)
            (nth i (unit_support_points (env_fe env)) [])
  then Ok st
  else
    let index := component_index (env_fe env) i in
    let touched := {[dof]} ∪ dof_touched st in
    let point := nth i (support_points c) [] in
    if negb (env_point_in_solid env point)
    then Ok (mkBCState touched (inner_nonzero st) (inner_zero st)
                       (cell_hints st) (cell_property st))
    else
      let hint := locator_search (env_queries env) (env_moved_vertices env)
                    point (hint_of st c i) in
      if negb (interpolator_found_cell (env_queries env)
                 (env_moved_vertices env) point hint)
      then Throw (ExcMessageAt "Cannot find point in solid: " point)
      else
        let fluid_velocity :=
          interpolator_point_value (env_queries env) (env_moved_vertices env)
            (current_velocity (env_solid env)) point hint in
        let line := dof in
        Ok (mkBCState touched
              (set_inhomogeneity line
                 (vget fluid_velocity index - vget (env_present_solution env) line)
                 (add_line line (inner_nonzero st)))
              (add_line line (inner_zero st))
              (<[(cell_id c, i) := hint]> (cell_hints st))
              (cell_property st)).

(** The body of the loop over the quadrature points, at point [q]: the new
    record [ptr[q]], when deal.II's [VectorTools::point_value] returns (its
    own exceptions are not modelled). *)
Definition quadrature_point_record (env : FluidBCEnv) (c : FluidCell) (q : nat)
  : FluidCellProperty :=
  let dim := env_dim env in
  let params := env_parameters env in
  let point := nth q (quadrature_points c) [] in
  let ind := if env_point_in_solid env point then 1%nat else 0%nat in
  let r0 := mkFluidCellProperty ind (zero_tensor1 dim) (zero_tensor2 dim) in
  if Nat.eqb (indicator r0) 0 then r0
  else
    let solid_acc :=
      vector_tools_point_value (env_queries env) (env_moved_vertices env)
        (current_acceleration (env_solid env)) point in
    let r1 :=
      fold_left
        (fun r i =>
           if Nat.eqb (indicator r) 0
           then mkFluidCellProperty (indicator r)
                  (<[i := (solid_rho params - fluid_rho params)
                          * (coord (gravity params) i - vget solid_acc i)]>
                     (fsi_acceleration r))
                  (fsi_stress r)
           else r)
        (seq 0 dim) r0 in
    (* [solid_sigma] is symmetric: of the writes to (i,j) and (j,i) the
       later one, with the larger row index, stays *)
    let solid_sigma :=
      tensor2_init dim (fun i j =>
        vget (vector_tools_point_value (env_queries env) (env_moved_vertices env)
                (solid_stress (env_solid env) (Nat.max i j) (Nat.min i j)) point)
             0) in
    if Nat.eqb (indicator r1) 0
    then mkFluidCellProperty (indicator r1) (fsi_acceleration r1)
           (tensor2_sub dim
              (fluid_stress dim (viscosity params) (nth q (p_values c) 0)
                 (nth q (sym_grad_v c) []))
              solid_sigma)
    else r1.

(** One pass of the loop over the fluid cells. *)
Definition fluid_cell_step (env : FluidBCEnv) (st : BCState) (c : FluidCell)
  : Result BCState :=
  if is_artificial c then Ok st
  else
    bind (foldM (support_point_step env c) st
                (seq 0 (length (unit_support_points (env_fe env)))))
      (fun st1 =>
         if negb (is_locally_owned c) then Ok st1
         else
           let n_q_points := length (quadrature_points c) in
           Ok (mkBCState (dof_touched st1) (inner_nonzero st1) (inner_zero st1)
                 (cell_hints st1)
                 (<[cell_id c := map (quadrature_point_record env c)
                                     (seq 0 n_q_points)]>
                    (cell_property st1)))).

(** The fluid solver as [find_fluid_bc] leaves it. *)
Record FluidBCResult : Type := mkFluidBCResult {
  nonzero_constraints : gmap nat Q;
  zero_constraints : gmap nat Q;
  new_cell_hints : gmap (nat * nat) nat;
  new_cell_property : gmap nat (list FluidCellProperty);
  (** the inner constraint objects, before the merge *)
  final_inner_nonzero : gmap nat Q;
  final_inner_zero : gmap nat Q
}.

Definition initial_bc_state (hints : gmap (nat * nat) nat)
    (props : gmap nat (list FluidCellProperty)) : BCState :=
  mkBCState ∅ ∅ ∅ hints props.

Definition finish_fluid_bc (fluid_nonzero fluid_zero : gmap nat Q) (st : BCState)
  : FluidBCResult :=
  mkFluidBCResult
    (merge_left_object_wins fluid_nonzero (inner_nonzero st))
    (merge_left_object_wins fluid_zero (inner_zero st))
    (cell_hints st) (cell_property st) (inner_nonzero st) (inner_zero st).

(** [FSI::find_fluid_bc]. *)
Definition find_fluid_bc (dim : nat) (params : AllParameters)
    (queries : SolidQueries) (fe : FiniteElement) (present_solution : Vector)
    (solid : SolidSolver) (solid_box : Vector) (solid_boundaries : list Face)
    (fluid_cells : list FluidCell)
    (fluid_nonzero fluid_zero : gmap nat Q)
    (hints : gmap (nat * nat) nat) (props : gmap nat (list FluidCellProperty))
  : Result FluidBCResult :=
  let moved := move_solid_mesh dim true (current_displacement solid)
                 (solid_cells solid) (solid_vertices solid) in
  let env := mkFluidBCEnv dim params queries fe present_solution solid moved
               solid_box solid_boundaries in
  bind (foldM (fluid_cell_step env) (initial_bc_state hints props) fluid_cells)
       (fun st => Ok (finish_fluid_bc fluid_nonzero fluid_zero st)).

(** ** [FSI::find_solid_bc] *)

(** What one MPI rank gets from [Utils::GridInterpolator] on the fluid
    mesh for [present_solution]: the [dim + 1] values and their gradients
    at a point.  The interpolator belongs to this repository but not to the
    files at hand and is taken as a parameter. *)
Record FluidRank : Type := mkFluidRank {
  rank_point_value : Point -> Vector;
  rank_point_gradient : Point -> list Point
}.

(** [Utilities::MPI::sum] over the ranks of the communicator. *)
Definition mpi_sum (contributions : list Q) : Q :=
  fold_left Qplus contributions 0.

Definition global_value (ranks : list FluidRank) (q_point : Point) (i : nat) : Q :=
  mpi_sum (map (fun r => vget (rank_point_value r q_point) i) ranks).

Definition global_gradient (ranks : list FluidRank) (q_point : Point) (i j : nat)
  : Q :=
  mpi_sum (map (fun r => coord (nth i (rank_point_gradient r q_point) []) j) ranks).

(** The traction stored at one face quadrature point.  [sym_deformation]
    is a symmetric tensor: of the writes to (i,j) and (j,i) the later one
    stays. *)
Definition face_traction (dim : nat) (params : AllParameters)
    (ranks : list FluidRank) (q_point normal : Point) : Point :=
  let sym_deformation :=
    tensor2_init dim (fun i j =>
      (global_gradient ranks q_point (Nat.max i j) (Nat.min i j)
       + global_gradient ranks q_point (Nat.min i j) (Nat.max i j)) / 2) in
  let stress :=
    tensor2_init dim (fun i j =>
      - global_value ranks q_point dim * identity_entry i j
      + 2 * viscosity params * tensor2_get sym_deformation i j) in
  tensor2_apply dim stress normal.

(** The loop over the face quadrature points of face [f]. *)
Definition solid_face_step (dim : nat) (params : AllParameters)
    (ranks : list FluidRank) (n_face_q_points : nat) (moved : list Point)
    (c : SolidCell) (ptr : list Point) (f : nat) : list Point :=
  match faces c !! f with
  | Some face =>
      if at_boundary face
      then fold_left
             (fun ptr q =>
                <[(f * n_face_q_points + q)%nat :=
                    face_traction dim params ranks
                      (face_quadrature_point face moved q)
                      (face_normal_vector face moved q)]> ptr)
             (seq 0 n_face_q_points) ptr
      else ptr
  | None => ptr
  end.

(** [FSI::find_solid_bc]: the new [fsi_traction] records, cell by cell. *)
Definition find_solid_bc (dim : nat) (params : AllParameters)
    (ranks : list FluidRank) (n_face_q_points : nat) (solid : SolidSolver)
    (tractions : list (list Point)) : list (list Point) :=
  let moved := move_solid_mesh dim true (current_displacement solid)
                 (solid_cells solid) (solid_vertices solid) in
  zip_with
    (fun c ptr =>
       fold_left (solid_face_step dim params ranks n_face_q_points moved c)
                 (seq 0 (faces_per_cell dim)) ptr)
    (solid_cells solid) tractions.

(** A face has a prescribed Dirichlet condition when its boundary id is a
    key of [solid_dirichlet_bcs]. *)
Definition has_dirichlet_bc (params : AllParameters) (face : Face) : bool :=
  bool_decide (is_Some (solid_dirichlet_bcs params !! boundary_id face)).

(** ** The Neumann face loop of [assemble_system] *)

(** A solid cell as [assemble_system] sees it after the volume loop:
    [FEFaceValues] after [reinit(cell, face)], the stored tractions
    [p[...]->fsi_traction] and [local_rhs]. *)
Record AssemblyCell : Type := mkAssemblyCell {
  asm_subdomain_id : nat;
  asm_faces : list Face;
  asm_shape_value : nat -> nat -> nat -> Q;
  asm_JxW : nat -> nat -> Q;
  asm_normal_vector : nat -> nat -> Point;
  asm_fsi_traction : list Point;
  asm_volume_rhs : Vector
}.

(** The sizes and the component table of [fe]. *)
Record AssemblyShape : Type := mkAssemblyShape {
  asm_dim : nat;
  n_f_q_points : nat;
  dofs_per_cell : nat;
  asm_component : nat -> nat
}.

Definition is_fsi (params : AllParameters) : bool :=
  String.eqb (simulation_type params) "FSI".

(** [local_rhs(j) += shape_value(j, q) * traction[component_j] * JxW(q)]
    for every [j]. *)
Definition add_external_force (sh : AssemblyShape) (c : AssemblyCell)
    (face q : nat) (traction : Point) (local_rhs : Vector) : Vector :=
  fold_left
    (fun rhs j =>
       <[j := vget rhs j
              + asm_shape_value c face j q * coord traction (asm_component sh j)
                * asm_JxW c face q]> rhs)
    (seq 0 (dofs_per_cell sh)) local_rhs.

(** The loop over the face quadrature points; [traction] is declared
    outside the loop and keeps its value from one point to the next. *)
Definition neumann_q_step (params : AllParameters) (sh : AssemblyShape)
    (c : AssemblyCell) (face : nat) (prescribed_value : list Q)
    (st : Point * Vector) (q : nat) : Point * Vector :=
  let traction :=
    if negb (is_fsi params)
       && String.eqb (solid_neumann_bc_type params) "Pressure"
    then map (fun x => x * nth 0 prescribed_value 0) (asm_normal_vector c face q)
    else if is_fsi params
    then nth (face * n_f_q_points sh + q) (asm_fsi_traction c)
             (zero_tensor1 (asm_dim sh))
    else st.1 in
  (traction, add_external_force sh c face q traction st.2).

(** The face loop body of [HyperElasticity::assemble_system] and of
    [SharedHyperElasticity::assemble_system]. *)
Definition neumann_face_step (params : AllParameters) (sh : AssemblyShape)
    (c : AssemblyCell) (local_rhs : Vector) (face : nat) : Vector :=
  match asm_faces c !! face with
  | None => local_rhs
  | Some f =>
      let id := boundary_id f in
      if negb (at_boundary f) then local_rhs
      else if negb (is_fsi params)
              && bool_decide (solid_neumann_bcs params !! id = None)
      then local_rhs
      else
        let prescribed_value :=
          if negb (is_fsi params)
          then default [] (solid_neumann_bcs params !! id) else [] in
        let traction :=
          if negb (is_fsi params)
             && String.eqb (solid_neumann_bc_type params) "Traction"
          then map (fun i => nth i prescribed_value 0) (seq 0 (asm_dim sh))
          else zero_tensor1 (asm_dim sh) in
        (fold_left (neumann_q_step params sh c face prescribed_value)
                   (seq 0 (n_f_q_points sh)) (traction, local_rhs)).2
  end.

(** The face loop body of [SharedLinearElasticity::assemble_system]: the
    same tests under an outer [at_boundary] test. *)
Definition neumann_face_step_linear (params : AllParameters) (sh : AssemblyShape)
    (c : AssemblyCell) (local_rhs : Vector) (face : nat) : Vector :=
  match asm_faces c !! face with
  | None => local_rhs
  | Some f =>
      if at_boundary f then
        let id := boundary_id f in
        if negb (at_boundary f) then local_rhs
        else if negb (is_fsi params)
                && bool_decide (solid_neumann_bcs params !! id = None)
        then local_rhs
        else
          let value :=
            if negb (is_fsi params)
            then default [] (solid_neumann_bcs params !! id) else [] in
          let traction :=
            if negb (is_fsi params)
               && String.eqb (solid_neumann_bc_type params) "Traction"
            then map (fun i => nth i value 0) (seq 0 (asm_dim sh))
            else zero_tensor1 (asm_dim sh) in
          (fold_left (neumann_q_step params sh c face value)
                     (seq 0 (n_f_q_points sh)) (traction, local_rhs)).2
      else local_rhs
  end.

Definition neumann_cell (params : AllParameters) (sh : AssemblyShape)
    (c : AssemblyCell) : Vector :=
  fold_left (neumann_face_step params sh c)
            (seq 0 (faces_per_cell (asm_dim sh))) (asm_volume_rhs c).

Definition neumann_cell_linear (params : AllParameters) (sh : AssemblyShape)
    (c : AssemblyCell) : Vector :=
  fold_left (neumann_face_step_linear params sh c)
            (seq 0 (faces_per_cell (asm_dim sh))) (asm_volume_rhs c).

(** The cell loops: [local_rhs] of every cell the loop assembles, [None]
    for a cell it passes over.  The serial solver takes every active cell,
    the shared ones the cells of their own subdomain. *)
Definition assemble_rhs_hyper (params : AllParameters) (sh : AssemblyShape)
    (cells : list AssemblyCell) : list (option Vector) :=
  map (fun c => Some (neumann_cell params sh c)) cells.

Definition assemble_rhs_shared_hyper (params : AllParameters)
    (sh : AssemblyShape) (this_mpi_process : nat) (cells : list AssemblyCell)
  : list (option Vector) :=
  map (fun c => if negb (Nat.eqb (asm_subdomain_id c) this_mpi_process)
                then None else Some (neumann_cell params sh c)) cells.

Definition assemble_rhs_shared_linear (params : AllParameters)
    (sh : AssemblyShape) (this_mpi_process : nat) (cells : list AssemblyCell)
  : list (option Vector) :=
  map (fun c => if Nat.eqb (asm_subdomain_id c) this_mpi_process
                then Some (neumann_cell_linear params sh c) else None) cells.

(** The surface load of the stored tractions on one face, written without
    the boundary id, the Neumann table and the Neumann type. *)
Definition fsi_face_load (sh : AssemblyShape) (c : AssemblyCell) (face : nat)
    (local_rhs : Vector) : Vector :=
  fold_left
    (fun rhs q =>
       add_external_force sh c face q
         (nth (face * n_f_q_points sh + q) (asm_fsi_traction c)
              (zero_tensor1 (asm_dim sh))) rhs)
    (seq 0 (n_f_q_points sh)) local_rhs.

Definition fsi_cell_load (sh : AssemblyShape) (c : AssemblyCell) : Vector :=
  fold_left
    (fun rhs face =>
       match asm_faces c !! face with
       | Some f => if at_boundary f then fsi_face_load sh c face rhs else rhs
       | None => rhs
       end)
    (seq 0 (faces_per_cell (asm_dim sh))) (asm_volume_rhs c).

(** ** The Newton loop of [run_one_step] *)

(** The two hyperelastic solvers differ in the loop condition only. *)
Inductive SolverKind : Type := Serial | Shared.

(** The counters and errors of the loop, and the state [St] of the solver
    (vectors, matrices, quadrature point history). *)
Record NewtonState (St : Type) : Type := mkNewtonState {
  ns_solver : St;
  newton_iteration : nat;
  error_residual : Q;
  initial_error_residual : Q;
  normalized_error_residual : Q;
  error_update : Q;
  initial_error_update : Q;
  normalized_error_update : Q
}.
Arguments mkNewtonState {St}.
Arguments ns_solver {St}.
Arguments newton_iteration {St}.
Arguments error_residual {St}.
Arguments initial_error_residual {St}.
Arguments normalized_error_residual {St}.
Arguments error_update {St}.
Arguments initial_error_update {St}.
Arguments normalized_error_update {St}.

(** The parts of [run_one_step] that belong to the linear algebra and the
    material: taken as parameters. *)
Record NewtonSolver (St : Type) : Type := mkNewtonSolver {
  (** [assemble_system(true)], the solve for the initial acceleration and
      the first output *)
  initial_acceleration : St -> St;
  (** [time.increment()] and the prediction of the displacement *)
  begin_step : St -> St;
  (** one assemble and solve with the update of the displacement; gives
      the new residual and update errors *)
  newton_solve : St -> St * Q * Q;
  (** the updates after convergence, the stress update and the output *)
  finish_step : St -> St
}.
Arguments initial_acceleration {St}.
Arguments begin_step {St}.
Arguments newton_solve {St}.
Arguments finish_step {St}.

Definition newton_continue {St : Type} (kind : SolverKind)
    (params : AllParameters) (st : NewtonState St) : bool :=
  (Qlt_bool (tol_d params) (normalized_error_update st)
   || Qlt_bool (tol_f params) (normalized_error_residual st))
  && match kind with
     | Serial => Qlt_bool (1 # 1000000000000) (error_residual st)
     | Shared => Qlt_bool (1 # 1000000000000) (error_update st)
     end
  && Qlt_bool (1 # 1000000000000) (error_update st).

(** The loop body after the [AssertThrow].  The quotients are exact; the
    source divides doubles, and a zero initial error gives it an infinity or
    a NaN, which this model does not have. *)
Definition newton_body {St : Type} (solver : NewtonSolver St) (st : NewtonState St)
  : NewtonState St :=
  let '(s, res, upd) := newton_solve solver (ns_solver st) in
  let initial_res :=
    if Nat.eqb (newton_iteration st) 0 then res else initial_error_residual st in
  let initial_upd :=
    if Nat.eqb (newton_iteration st) 0 then upd else initial_error_update st in
  mkNewtonState s (S (newton_iteration st))
    res initial_res (res / initial_res) upd initial_upd (upd / initial_upd).

(** The [while] loop; [None] when the fuel runs out. *)
Fixpoint newton_loop {St : Type} (fuel : nat) (kind : SolverKind)
    (params : AllParameters) (solver : NewtonSolver St) (st : NewtonState St)
  : option (Result (NewtonState St)) :=
  match fuel with
  | O => None
  | S fuel =>
      if newton_continue kind params st then
        if Nat.ltb (newton_iteration st) (solid_max_iterations params)
        then newton_loop fuel kind params solver (newton_body solver st)
        else Some (Throw (ExcMessage "Too many Newton iterations!"))
      else Some (Ok st)
  end.

(** [run_one_step(first_step)]: the solver after the step and the number
    of Newton iterations it took. *)
Definition run_one_step {St : Type} (fuel : nat) (kind : SolverKind)
    (params : AllParameters) (solver : NewtonSolver St) (first_step : bool)
    (s : St) : option (Result (St * nat)) :=
  let s := if first_step then initial_acceleration solver s else s in
  let s := begin_step solver s in
  match newton_loop fuel kind params solver (mkNewtonState s 0 1 1 1 1 1 1) with
  | None => None
  | Some (Throw e) => Some (Throw e)
  | Some (Ok st) => Some (Ok (finish_step solver (ns_solver st), newton_iteration st))
  end.

(** ** [FSI::run] *)

(** Modelled from the spec: [Utils::Time], the "time object exposing
    current time, step index" of the external interfaces; its source is not
    among the files at hand.  [increment] advances the current time by the
    time step and the step index by one. *)
Record Time : Type := mkTime {
  time_end : Q;
  delta_t : Q;
  time_current : Q;
  timestep : nat
}.

Definition time_increment (t : Time) : Time :=
  mkTime (time_end t) (delta_t t) (time_current t + delta_t t) (S (timestep t)).

(** The two solvers and the other member functions of [FSI], as [run]
    calls them, over a state [W] of the coupled program.  The interval
    predicates of [Utils::Time] are parameters as well. *)
Record Solvers (W : Type) : Type := mkSolvers {
  solid_refine_global : nat -> W -> W;
  solid_load_checkpoint : W -> bool * W;
  fluid_load_checkpoint : W -> bool * W;
  solid_time_current : W -> Q;
  fluid_time_current : W -> Q;
  solid_time_timestep : W -> nat;
  solid_setup_dofs : W -> W;
  solid_initialize_system : W -> W;
  fluid_refine_global : nat -> W -> W;
  fluid_setup_dofs : W -> W;
  fluid_make_constraints : W -> W;
  fluid_initialize_system : W -> W;
  fsi_collect_solid_boundaries : W -> W;
  fsi_setup_cell_hints : W -> W;
  fsi_refine_mesh : nat -> nat -> W -> W;
  fsi_find_solid_bc : W -> W;
  solid_assemble_system : bool -> W -> W;
  solid_run_one_step : bool -> W -> Result W;
  fsi_update_solid_box : W -> W;
  fluid_nonzero_constraints_clear : W -> W;
  fluid_nonzero_constraints_copy_from_zero : W -> W;
  fsi_find_fluid_bc : W -> Result W;
  fluid_run_one_step : bool -> W -> W;
  solid_save_checkpoint : nat -> W -> W;
  fluid_save_checkpoint : nat -> W -> W;
  time_to_refine : Time -> bool;
  time_to_save : Time -> bool
}.
Arguments solid_refine_global {W}.
Arguments solid_load_checkpoint {W}.
Arguments fluid_load_checkpoint {W}.
Arguments solid_time_current {W}.
Arguments fluid_time_current {W}.
Arguments solid_time_timestep {W}.
Arguments solid_setup_dofs {W}.
Arguments solid_initialize_system {W}.
Arguments fluid_refine_global {W}.
Arguments fluid_setup_dofs {W}.
Arguments fluid_make_constraints {W}.
Arguments fluid_initialize_system {W}.
Arguments fsi_collect_solid_boundaries {W}.
Arguments fsi_setup_cell_hints {W}.
Arguments fsi_refine_mesh {W}.
Arguments fsi_find_solid_bc {W}.
Arguments solid_assemble_system {W}.
Arguments solid_run_one_step {W}.
Arguments fsi_update_solid_box {W}.
Arguments fluid_nonzero_constraints_clear {W}.
Arguments fluid_nonzero_constraints_copy_from_zero {W}.
Arguments fsi_find_fluid_bc {W}.
Arguments fluid_run_one_step {W}.
Arguments solid_save_checkpoint {W}.
Arguments fluid_save_checkpoint {W}.
Arguments time_to_refine {W}.
Arguments time_to_save {W}.

(** How [run] ends: it returns, an exception leaves it (with the state at
    the call that threw), or the model runs out of fuel. *)
Inductive RunResult (W : Type) : Type :=
| Finished (t : Time) (w : W)
| Aborted (e : Exc) (w : W)
| OutOfFuel.
Arguments Finished {W} t w.
Arguments Aborted {W} e w.
Arguments OutOfFuel {W}.

Definition restart_mismatch : Exc :=
  ExcMessage ("Solid and fluid restart files have different time steps. "
              ++ "Check and remove inconsistent restart files!").

(** The body of the [while] loop up to and including [time.increment()],
    the refinement and the checkpoint: the new time and state, or the
    exception. *)
Definition run_iteration {W : Type} (sv : Solvers W) (params : AllParameters)
    (success_load first_step : bool) (time : Time) (w : W)
  : Exc * W + Time * W :=
  let w := fsi_find_solid_bc sv w in
  let w := if success_load then solid_assemble_system sv true w else w in
  match solid_run_one_step sv first_step w with
  | Throw e => inl (e, w)
  | Ok w =>
      let w := fsi_update_solid_box sv w in
      let w := fluid_make_constraints sv w in
      let w :=
        if negb first_step
        then fluid_nonzero_constraints_copy_from_zero sv
               (fluid_nonzero_constraints_clear sv w)
        else w in
      match fsi_find_fluid_bc sv w with
      | Throw e => inl (e, w)
      | Ok w =>
          let w := fluid_run_one_step sv true w in
          let time := time_increment time in
          let w :=
            if time_to_refine sv time
            then fsi_setup_cell_hints sv
                   (fsi_refine_mesh sv (nth 0 (global_refinements params) 0%nat)
                      (nth 0 (global_refinements params) 0 + 3)%nat w)
            else w in
          let w :=
            if time_to_save sv time
            then fluid_save_checkpoint sv (timestep time)
                   (solid_save_checkpoint sv (timestep time) w)
            else w in
          inr (time, w)
      end
  end.

(** [while (time.end() - time.current() > 1e-12)]. *)
Definition keep_stepping (time : Time) : bool :=
  Qlt_bool (1 # 1000000000000) (time_end time - time_current time).

Fixpoint time_loop {W : Type} (fuel : nat) (sv : Solvers W)
    (params : AllParameters) (success_load first_step : bool) (time : Time)
    (w : W) : RunResult W :=
  match fuel with
  | O => OutOfFuel
  | S fuel =>
      if keep_stepping time then
        match run_iteration sv params success_load first_step time w with
        | inl (e, w) => Aborted e w
        | inr (time, w) => time_loop fuel sv params success_load false time w
        end
      else Finished time w
  end.

(** The start of [run], up to the [AssertThrow] on the two restored times:
    whether both checkpoints were loaded, and the state. *)
Definition load_checkpoints {W : Type} (sv : Solvers W) (params : AllParameters)
    (w : W) : bool * W :=
  let w := solid_refine_global sv (nth 1 (global_refinements params) 0%nat) w in
  let (solid_ok, w) := solid_load_checkpoint sv w in
  if solid_ok then fluid_load_checkpoint sv w else (false, w).

(** The rest of the start of [run]: set up from scratch, or catch up the
    clock of the coupling with the restored step index. *)
Definition prepare {W : Type} (sv : Solvers W) (params : AllParameters)
    (success_load : bool) (time : Time) (w : W) : Time * W :=
  let (time, w) :=
    if negb success_load
    then (time,
          fluid_initialize_system sv
            (fluid_make_constraints sv
               (fluid_setup_dofs sv
                  (fluid_refine_global sv (nth 0 (global_refinements params) 0%nat)
                     (solid_initialize_system sv (solid_setup_dofs sv w))))))
    else (Nat.iter (solid_time_timestep sv w - timestep time) time_increment time,
          w) in
  let w := fsi_setup_cell_hints sv (fsi_collect_solid_boundaries sv w) in
  let w :=
    if Qlt_bool (refinement_interval params) (end_time params)
    then fsi_setup_cell_hints sv
           (fsi_refine_mesh sv (nth 0 (global_refinements params) 0%nat)
              (nth 0 (global_refinements params) 0 + 3)%nat w)
    else w in
  (time, w).

(** The clock the constructor of [FSI] builds. *)
Definition initial_time (params : AllParameters) : Time :=
  mkTime (end_time params) (time_step params) 0 0.

(** [FSI::run]. *)
Definition run {W : Type} (fuel : nat) (sv : Solvers W) (params : AllParameters)
    (w : W) : RunResult W :=
  let (success_load, w) := load_checkpoints sv params w in
  if negb (Qeq_bool (solid_time_current sv w) (fluid_time_current sv w))
  then Aborted restart_mismatch w
  else
    let (time, w) := prepare sv params success_load (initial_time params) w in
    time_loop fuel sv params success_load (negb success_load) time w.

(** *** Solvers that only record the calls *)

Inductive Event : Type :=
| EvSolidRefineGlobal (n : nat)
| EvSolidLoadCheckpoint
| EvFluidLoadCheckpoint
| EvSolidSetupDofs
| EvSolidInitializeSystem
| EvFluidRefineGlobal (n : nat)
| EvFluidSetupDofs
| EvFluidMakeConstraints
| EvFluidInitializeSystem
| EvCollectSolidBoundaries
| EvSetupCellHints
| EvRefineMesh (min_grid_level max_grid_level : nat)
| EvFindSolidBC
| EvSolidAssembleSystem (initial_step : bool)
| EvSolidRunOneStep (first_step : bool)
| EvUpdateSolidBox
| EvNonzeroConstraintsClear
| EvNonzeroConstraintsCopyFromZero
| EvFindFluidBC
| EvFluidRunOneStep (first_step : bool)
| EvSolidSaveCheckpoint (step : nat)
| EvFluidSaveCheckpoint (step : nat).

(** The calls so far, and the two checkpoints on disk: whether each loads,
    and the time and step index it restores. *)
Record Recorder : Type := mkRecorder {
  trace : list Event;
  solid_checkpoint : option (Q * nat);
  fluid_checkpoint : option Q;
  solid_restored : option (Q * nat);
  fluid_restored : option Q
}.

Definition record (e : Event) (w : Recorder) : Recorder :=
  mkRecorder (trace w ++ [e]) (solid_checkpoint w) (fluid_checkpoint w)
             (solid_restored w) (fluid_restored w).

Definition recording_solvers (to_refine to_save : Time -> bool)
  : Solvers Recorder :=
  mkSolvers Recorder
    (fun n => record (EvSolidRefineGlobal n))
    (fun w => (bool_decide (is_Some (solid_checkpoint w)),
               mkRecorder (trace w ++ [EvSolidLoadCheckpoint])
                 (solid_checkpoint w) (fluid_checkpoint w)
                 (solid_checkpoint w) (fluid_restored w)))
    (fun w => (bool_decide (is_Some (fluid_checkpoint w)),
               mkRecorder (trace w ++ [EvFluidLoadCheckpoint])
                 (solid_checkpoint w) (fluid_checkpoint w)
                 (solid_restored w) (fluid_checkpoint w)))
    (fun w => default 0 (fst <$> solid_restored w))
    (fun w => default 0 (fluid_restored w))
    (fun w => default 0%nat (snd <$> solid_restored w))
    (record EvSolidSetupDofs)
    (record EvSolidInitializeSystem)
    (fun n => record (EvFluidRefineGlobal n))
    (record EvFluidSetupDofs)
    (record EvFluidMakeConstraints)
    (record EvFluidInitializeSystem)
    (record EvCollectSolidBoundaries)
    (record EvSetupCellHints)
    (fun a b => record (EvRefineMesh a b))
    (record EvFindSolidBC)
    (fun b => record (EvSolidAssembleSystem b))
    (fun b w => Ok (record (EvSolidRunOneStep b) w))
    (record EvUpdateSolidBox)
    (record EvNonzeroConstraintsClear)
    (record EvNonzeroConstraintsCopyFromZero)
    (fun w => Ok (record EvFindFluidBC w))
    (fun b => record (EvFluidRunOneStep b))
    (fun n => record (EvSolidSaveCheckpoint n))
    (fun n => record (EvFluidSaveCheckpoint n))
    to_refine to_save.

(** The calls of one pass of the time loop, in order; [time] is the clock
    after [time.increment()]. *)
Definition iteration_events (params : AllParameters)
    (to_refine to_save : Time -> bool) (success_load first_step : bool)
    (time : Time) : list Event :=
  [EvFindSolidBC]
  ++ (if success_load then [EvSolidAssembleSystem true] else [])
  ++ [EvSolidRunOneStep first_step; EvUpdateSolidBox; EvFluidMakeConstraints]
  ++ (if first_step then []
      else [EvNonzeroConstraintsClear; EvNonzeroConstraintsCopyFromZero])
  ++ [EvFindFluidBC; EvFluidRunOneStep true]
  ++ (if to_refine time
      then [EvRefineMesh (nth 0 (global_refinements params) 0%nat)
                         (nth 0 (global_refinements params) 0 + 3)%nat;
            EvSetupCellHints]
      else [])
  ++ (if to_save time
      then [EvSolidSaveCheckpoint (timestep time);
            EvFluidSaveCheckpoint (timestep time)]
      else []).

Definition record_all (es : list Event) (w : Recorder) : Recorder :=
  mkRecorder (trace w ++ es) (solid_checkpoint w) (fluid_checkpoint w)
             (solid_restored w) (fluid_restored w).

(** The setting up of both solvers from scratch, as [run] does it when no
    checkpoint was loaded. *)
Definition setup_from_scratch {W : Type} (sv : Solvers W)
    (params : AllParameters) (w : W) : W :=
  fluid_initialize_system sv
    (fluid_make_constraints sv
       (fluid_setup_dofs sv
          (fluid_refine_global sv (nth 0 (global_refinements params) 0%nat)
             (solid_initialize_system sv (solid_setup_dofs sv w))))).

(** A recorder before [run]: no call yet, and the two checkpoints. *)
Definition fresh_recorder (solid : option (Q * nat)) (fluid : option Q)
  : Recorder :=
  mkRecorder [] solid fluid None None.

(** A parameter set for the examples: an FSI run to time 1 in steps of
    1/2. *)
Definition example_parameters : AllParameters :=
  mkParameters "FSI" 3 1 [0; -(10)] (1 # 2) ∅ "FSI" ∅ 1 (1 # 1000) (1 # 1000)
               1 (1 # 2) 2 [1%nat; 0%nat].

(** A solver for the examples whose first Newton update already has
    errors of 1e-13. *)
Definition quick_solver : NewtonSolver unit :=
  mkNewtonSolver unit (fun s => s) (fun s => s)
    (fun s => (s, 1 # 10000000000000, 1 # 10000000000000)) (fun s => s).

(** A solver for the examples whose errors stay at 1. *)
Definition stuck_solver : NewtonSolver unit :=
  mkNewtonSolver unit (fun s => s) (fun s => s) (fun s => (s, 1, 1)) (fun s => s).

(** ** A small coupled problem for the examples

    The solid is the unit square, one cell with deal.II's vertex and face
    numbering; the fluid cell is the square of side 1 whose lower left
    corner is the centre of the solid. *)

Definition midpoint (vertices : list Point) (a b : nat) : Point :=
  map (fun d => (coord (default [] (vertices !! a)) d
                 + coord (default [] (vertices !! b)) d) / 2)
      (seq 0 2).

Definition square_face (id a b : nat) (normal : Point) : Face :=
  mkFace true id a b (fun vertices _ => midpoint vertices a b) (fun _ _ => normal).

Definition square_cell : SolidCell :=
  mkSolidCell (fun v => v) (fun v d => (2 * v + d)%nat)
    [square_face 1 0 2 [-(1); 0]; square_face 0 1 3 [1; 0];
     square_face 0 0 1 [0; -(1)]; square_face 0 2 3 [0; 1]].

Definition square_solid : SolidSolver :=
  mkSolidSolver [square_cell] [[0; 0]; [1; 0]; [0; 1]; [1; 1]]
    (replicate 8 0) (replicate 8 0) (replicate 8 0) (fun _ _ => [7]).

(** The solid moves with velocity (3, 5) and acceleration (1, 2); the
    interpolator finds every point of the closed unit square. *)
Definition square_queries (found : bool) : SolidQueries :=
  mkSolidQueries (fun _ _ hint => hint) (fun _ _ _ => found)
    (fun _ _ _ _ => [3; 5])
    (fun _ u _ => if Nat.eqb (length u) 1 then u else [1; 2])
    (fun _ => []).

(** Bilinear velocity and pressure: three dofs at each of the four
    vertices of the unit cell. *)
Definition q1_element : FiniteElement :=
  mkFE (flat_map (fun p => [p; p; p]) [[0; 0]; [1; 0]; [0; 1]; [1; 1]])
       (fun i => if Nat.eqb (i mod 3) 2 then 1%nat else 0%nat)
       (fun i => (i mod 3)%nat).

Definition example_fluid_cell : FluidCell :=
  mkFluidCell 0 false true (seq 0 12)
    (flat_map (fun p => [p; p; p])
       [[1 # 2; 1 # 2]; [3 # 2; 1 # 2]; [1 # 2; 3 # 2]; [3 # 2; 3 # 2]])
    [[3 # 4; 3 # 4]] [2] [[[1; 0]; [0; 1]]].

Definition square_box : Vector := [0; 1; 0; 1].

Definition example_present_solution : Vector := replicate 12 (1 # 4).

(** A parameter set in which boundary id 1, the left side of the square,
    has a prescribed Dirichlet condition. *)
Definition clamped_parameters : AllParameters :=
  mkParameters "FSI" 3 1 [0; -(10)] (1 # 2) ∅ "FSI" {[1%nat := 3%nat]} 1
               (1 # 1000) (1 # 1000) 1 (1 # 2) 2 [1%nat; 0%nat].

(** Two ranks: the first finds the point and interpolates velocity (1, 2),
    pressure 5 and the velocity gradient of the identity; the second does
    not own the point and contributes zeros. *)
Definition example_ranks : list FluidRank :=
  [mkFluidRank (fun _ => [1; 2; 5]) (fun _ => [[1; 0]; [0; 1]; [0; 0]]);
   mkFluidRank (fun _ => [0; 0; 0]) (fun _ => [[0; 0]; [0; 0]; [0; 0]])].

Definition example_fluid_bc (found : bool) : Result FluidBCResult :=
  find_fluid_bc 2 example_parameters (square_queries found) q1_element
    example_present_solution square_solid square_box
    (collect_solid_boundaries 2 (solid_cells square_solid))
    [example_fluid_cell] ∅ ∅ ∅ ∅.

(** The force terms of the spec at a quadrature point inside the solid:
    the acceleration jump and the stress jump. *)
Definition spec_fsi_acceleration (dim : nat) (params : AllParameters)
    (solid_acc : Vector) : Point :=
  map (fun i => (solid_rho params - fluid_rho params)
                * (coord (gravity params) i - vget solid_acc i))
      (seq 0 dim).

Definition spec_fsi_stress (dim : nat) (params : AllParameters) (p : Q)
    (sym_grad : Tensor2) (solid_sigma : Tensor2) : Tensor2 :=
  tensor2_sub dim (fluid_stress dim (viscosity params) p sym_grad) solid_sigma.

Definition example_fluid_bc_result : FluidBCResult :=
  match example_fluid_bc true with
  | Ok r => r
  | Throw _ => mkFluidBCResult ∅ ∅ ∅ ∅ ∅ ∅
  end.

(** The environment [find_fluid_bc] builds in the example. *)
Definition example_env (found : bool) : FluidBCEnv :=
  mkFluidBCEnv 2 example_parameters (square_queries found) q1_element
    example_present_solution square_solid
    (move_solid_mesh 2 true (current_displacement square_solid)
       (solid_cells square_solid) (solid_vertices square_solid))
    square_box (collect_solid_boundaries 2 (solid_cells square_solid)).

(** The unit square as [assemble_system] sees it: eight dofs, one face
    quadrature point, and the tractions [find_solid_bc] stored above. *)
Definition example_shape : AssemblyShape :=
  mkAssemblyShape 2 1 8 (fun j => (j mod 2)%nat).

Definition example_assembly_cell : AssemblyCell :=
  mkAssemblyCell 0 (faces square_cell) (fun _ _ _ => 1 # 2) (fun _ _ => 1)
    (fun face _ => nth face [[-(1); 0]; [1; 0]; [0; -(1)]; [0; 1]] [])
    [[4; 0]; [-4; 0]; [0; 4]; [0; -4]] (replicate 8 0).

(** A stand-alone solid run with a traction prescribed on boundary id 0
    only. *)
Definition solid_only_parameters : AllParameters :=
  mkParameters "Solid" 3 1 [0; -(10)] (1 # 2) {[0%nat := [0; -(1)]]} "Traction"
               {[1%nat := 3%nat]} 1 (1 # 1000) (1 # 1000) 1 (1 # 2) 2
               [1%nat; 0%nat].

(** The clock of the example run at its start and at its end. *)
Definition example_time : Time := mkTime 1 (1 # 2) 0 0.

Definition example_end_time : Time := mkTime 1 (1 # 2) ((0 + (1 # 2)) + (1 # 2)) 2.

(** A Newton state of the example with the counter at the maximum and
    the errors still at 1. *)
Definition example_newton_state : NewtonState unit :=
  mkNewtonState tt 1 1 1 1 1 1 1.

(** [FSI::update_solid_box]: the extents of the vertex table moved
    forward. *)
Definition box_step (dim : nat) (solid_box : Vector) (v : Point) : Vector :=
  fold_left
    (fun box i =>
       if Qlt_bool (coord v i) (vget box (2 * i))
       then <[(2 * i)%nat := coord v i]> box
       else if Qlt_bool (vget box (2 * i + 1)) (coord v i)
       then <[(2 * i + 1)%nat := coord v i]> box
       else box)
    (seq 0 dim) solid_box.

Definition update_solid_box (dim : nat) (u : Vector) (cells : list SolidCell)
    (vertices : list Point) : Vector :=
  let moved := move_solid_mesh dim true u cells vertices in
  let first := hd [] moved in
  let box0 :=
    fold_left
      (fun box i => <[(2 * i + 1)%nat := coord first i]>
                      (<[(2 * i)%nat := coord first i]> box))
      (seq 0 dim) (replicate (2 * dim) 0) in
  fold_left (box_step dim) moved box0.

(** ** Convex polygons, to state where an interior point is classified *)

(** Twice the signed area of the triangle (a, b, q): positive when [q] is
    strictly to the left of the directed line from [a] to [b]. *)
Definition crs (xa ya xb yb xq yq : Q) : Q :=
  (xb - xa) * (yq - ya) - (yb - ya) * (xq - xa).

Definition cross (a b q : Point) : Q :=
  crs (coord a 0) (coord a 1) (coord b 0) (coord b 1) (coord q 0) (coord q 1).

Definition flip (seg : Segment) : Segment := (seg.2, seg.1).

(** The edges of the closed polygon through the vertices [vs], in order. *)
Definition polygon_edges (vs : list Point) : list Segment :=
  match vs with
  | [] => []
  | v :: rest => zip vs (rest ++ [v])
  end.

Fixpoint distinct_points (vs : list Point) : bool :=
  match vs with
  | [] => true
  | v :: rest =>
      forallb (fun w => negb (point_eqb 2 v w)) rest && distinct_points rest
  end.

(** [q] lies on the closed segment. *)
Definition on_closed_segment (seg : Segment) (q : Point) : bool :=
  Qeq_bool (cross seg.1 seg.2 q) 0
  && Qle_bool 0 ((coord seg.2 0 - coord seg.1 0) * (coord q 0 - coord seg.1 0)
                 + (coord seg.2 1 - coord seg.1 1) * (coord q 1 - coord seg.1 1))
  && Qle_bool 0 ((coord seg.1 0 - coord seg.2 0) * (coord q 0 - coord seg.2 0)
                 + (coord seg.1 1 - coord seg.2 1) * (coord q 1 - coord seg.2 1)).

(** A convex polygon, counter-clockwise: every vertex is to the left of or
    on every edge, a vertex lies on an edge only as one of its end points,
    and the vertices are distinct.  Consecutive edges may be collinear, as
    on the straight side of a meshed solid. *)
Definition convex_polygon (vs : list Point) : bool :=
  forallb (fun e => forallb (fun v => Qle_bool 0 (cross e.1 e.2 v)) vs)
          (polygon_edges vs)
  && forallb (fun e => forallb (fun v => negb (on_closed_segment e v)
                                         || point_eqb 2 v e.1
                                         || point_eqb 2 v e.2) vs)
             (polygon_edges vs)
  && distinct_points vs.

(** [p] is strictly to the left of every edge. *)
Definition strictly_inside (vs : list Point) (p : Point) : bool :=
  forallb (fun e => Qlt_bool 0 (cross e.1 e.2 p)) (polygon_edges vs).

(** A boundary face is an edge of the polygon, in either direction. *)
Definition oriented_like (seg edge : Segment) : Prop :=
  seg = edge \/ seg = flip edge.

(** How an edge from [a] to [b] meets the horizontal line through [p]:
    from strictly below to strictly above, or with one end on the line. *)
Definition rises_through (p a b : Point) : bool :=
  Qlt_bool (coord a 1) (coord p 1) && Qlt_bool (coord p 1) (coord b 1).

Definition rises_touching (p a b : Point) : bool :=
  (Qeq_bool (coord a 1) (coord p 1) && Qlt_bool (coord p 1) (coord b 1))
  || (Qlt_bool (coord a 1) (coord p 1) && Qeq_bool (coord b 1) (coord p 1)).

Definition arrives (p a b : Point) : bool :=
  Qlt_bool (coord a 1) (coord p 1) && Qeq_bool (coord b 1) (coord p 1).

Definition leaves (p a b : Point) : bool :=
  Qeq_bool (coord a 1) (coord p 1) && Qlt_bool (coord p 1) (coord b 1).

Definition rising (p a b : Point) : Prop :=
  coord a 1 <= coord p 1 <= coord b 1 /\ coord a 1 < coord b 1.

(** A solid of two unit cells side by side: the vertex (1, 0) lies between
    two horizontal boundary faces. *)
Definition strip_face (boundary : bool) (a b : nat) : Face :=
  mkFace boundary 0 a b (fun vertices _ => midpoint vertices a b) (fun _ _ => []).

Definition strip_cells : list SolidCell :=
  [mkSolidCell (fun v => nth v [0; 1; 3; 4] 0)%nat (fun v d => 0%nat)
     [strip_face true 0 3; strip_face false 1 4; strip_face true 0 1;
      strip_face true 3 4];
   mkSolidCell (fun v => nth v [1; 2; 4; 5] 0)%nat (fun v d => 0%nat)
     [strip_face false 1 4; strip_face true 2 5; strip_face true 1 2;
      strip_face true 4 5]].

Definition strip_vertices : list Point :=
  [[0; 0]; [1; 0]; [2; 0]; [0; 1]; [1; 1]; [2; 1]].

Definition strip_boundaries : list Segment :=
  map (face_segment strip_vertices) (collect_solid_boundaries 2 strip_cells).

Definition strip_box : Vector := update_solid_box 2 [0] strip_cells strip_vertices.

(** The unit square of the examples as a polygon and as boundary faces. *)
Definition square_polygon : list Point := [[0; 0]; [1; 0]; [1; 1]; [0; 1]].

Definition square_boundaries : list Segment :=
  map (face_segment (solid_vertices square_solid))
      (collect_solid_boundaries 2 (solid_cells square_solid)).

Definition square_oriented : list Segment :=
  [([0; 0], [1; 0]); ([1; 0], [1; 1]); ([0; 1], [1; 1]); ([0; 0], [0; 1])].

(** The strip of two cells as a polygon, with the collinear vertices (1, 0)
    and (1, 1) on its long sides. *)
Definition strip_polygon : list Point :=
  [[0; 0]; [1; 0]; [2; 0]; [2; 1]; [1; 1]; [0; 1]].

Definition strip_oriented : list Segment :=
  [([0; 0], [1; 0]); ([1; 0], [2; 0]); ([2; 0], [2; 1]); ([1; 1], [2; 1]);
   ([0; 1], [1; 1]); ([0; 0], [0; 1])].

(** ** Invariants of the fluid constraint loop *)

(** The lines of a touched dof are final. *)
Definition keeps_line (dof : nat) (st st' : BCState) : Prop :=
  dof ∈ dof_touched st ->
  dof ∈ dof_touched st' /\
  inner_nonzero st' !! dof = inner_nonzero st !! dof /\
  inner_zero st' !! dof = inner_zero st !! dof.

(** Only touched dofs carry lines. *)
Definition lines_touched (st : BCState) : Prop :=
  forall dof, dof ∉ dof_touched st ->
    inner_nonzero st !! dof = None /\ inner_zero st !! dof = None.

(** * Further parts of the solvers *)

(** ** The vertex loop of [update_solid_box], one coordinate at a time *)

(** One pass of the inner loop of [update_solid_box] at coordinate [i]. *)
Definition box_coordinate_step (v : Point) (box : Vector) (i : nat) : Vector :=
  if Qlt_bool (coord v i) (vget box (2 * i))
  then <[(2 * i)%nat := coord v i]> box
  else if Qlt_bool (vget box (2 * i + 1)) (coord v i)
  then <[(2 * i + 1)%nat := coord v i]> box
  else box.

(** The bounds of one coordinate after a vertex with the coordinate [x]. *)
Definition new_lo (x lo : Q) : Q := if Qlt_bool x lo then x else lo.

Definition new_hi (x lo hi : Q) : Q :=
  if Qlt_bool x lo then hi else if Qlt_bool hi x then x else hi.

(** The box before the vertex loop: both bounds of every coordinate are
    the coordinate of the first vertex. *)
Definition initial_box (dim : nat) (first : Point) : Vector :=
  fold_left
    (fun box i => <[(2 * i + 1)%nat := coord first i]>
                    (<[(2 * i)%nat := coord first i]> box))
    (seq 0 dim) (replicate (2 * dim) 0).

(** ** Further invariants of the fluid constraint loop *)

(** Every dof has a line in both inner constraint objects or in neither,
    and the lines of [inner_zero] are homogeneous. *)
Definition lines_paired (st : BCState) : Prop :=
  forall dof,
    (inner_nonzero st !! dof = None /\ inner_zero st !! dof = None) \/
    (is_Some (inner_nonzero st !! dof) /\ inner_zero st !! dof = Some 0).

(** Where a line of [inner_nonzero] comes from: a velocity support point of
    a cell that is not artificial, not an in-cell point, classified inside
    the solid and found by the interpolator. *)
Definition line_source (env : FluidBCEnv) (cells : list FluidCell)
    (dof : nat) (value : Q) : Prop :=
  exists c i hint,
    c ∈ cells /\ is_artificial c = false /\
    (i < length (unit_support_points (env_fe env)))%nat /\
    nth i (dof_indices c) 0%nat = dof /\
    base_group (env_fe env) i ≠ 1%nat /\
    in_cell_support_point (env_dim env)
      (nth i (unit_support_points (env_fe env)) []) = false /\
    env_point_in_solid env (nth i (support_points c) []) = true /\
    interpolator_found_cell (env_queries env) (env_moved_vertices env)
      (nth i (support_points c) []) hint = true /\
    value = vget (interpolator_point_value (env_queries env)
                    (env_moved_vertices env) (current_velocity (env_solid env))
                    (nth i (support_points c) []) hint)
                 (component_index (env_fe env) i)
            - vget (env_present_solution env) dof.

Definition lines_sourced (env : FluidBCEnv) (cells : list FluidCell)
    (st : BCState) : Prop :=
  forall dof value, inner_nonzero st !! dof = Some value ->
    line_source env cells dof value.

(** The records [find_fluid_bc] stores for a locally owned cell: at every
    quadrature point the classification of the point and zero forces. *)
Definition indicator_records (env : FluidBCEnv) (c : FluidCell)
  : list FluidCellProperty :=
  map (fun q =>
         mkFluidCellProperty
           (b2n (env_point_in_solid env (nth q (quadrature_points c) [])))
           (zero_tensor1 (env_dim env)) (zero_tensor2 (env_dim env)))
      (seq 0 (length (quadrature_points c))).

(** ** The Neumann loads of a stand-alone run *)

(** The cell [c] with other stored tractions. *)
Definition with_fsi_traction (c : AssemblyCell) (tractions : list Point)
  : AssemblyCell :=
  mkAssemblyCell (asm_subdomain_id c) (asm_faces c) (asm_shape_value c)
    (asm_JxW c) (asm_normal_vector c) tractions (asm_volume_rhs c).

(** The traction a stand-alone run applies at quadrature point [q] of a
    face with the table entry [value]. *)
Definition prescribed_traction (params : AllParameters) (sh : AssemblyShape)
    (c : AssemblyCell) (face q : nat) (value : list Q) : Point :=
  if String.eqb (solid_neumann_bc_type params) "Pressure"
  then map (fun x => x * nth 0 value 0) (asm_normal_vector c face q)
  else if String.eqb (solid_neumann_bc_type params) "Traction"
  then map (fun i => nth i value 0) (seq 0 (asm_dim sh))
  else zero_tensor1 (asm_dim sh).

Definition prescribed_face_load (params : AllParameters) (sh : AssemblyShape)
    (c : AssemblyCell) (face : nat) (value : list Q) (local_rhs : Vector)
  : Vector :=
  fold_left
    (fun rhs q =>
       add_external_force sh c face q (prescribed_traction params sh c face q value)
         rhs)
    (seq 0 (n_f_q_points sh)) local_rhs.

(** ** The Newmark updates of [run_one_step] *)

(** [Vector::add(a, V)], [Vector::add(a, V, b, W)], [operator-=] and
    [operator/=] of deal.II, entry by entry. *)
Definition vector_add (u : Vector) (a : Q) (V : Vector) : Vector :=
  imap (fun i x => x + a * vget V i) u.

Definition vector_add2 (u : Vector) (a : Q) (V : Vector) (b : Q) (W : Vector)
  : Vector :=
  imap (fun i x => x + (a * vget V i + b * vget W i)) u.

Definition vector_sub (u w : Vector) : Vector := imap (fun i x => x - vget w i) u.

Definition vector_div (u : Vector) (factor : Q) : Vector :=
  map (fun x => x / factor) u.

(** [gamma = 0.5 + parameters.damping] and [beta = gamma / 2]. *)
Definition newmark_gamma (damping : Q) : Q := (1 # 2) + damping.

Definition newmark_beta (damping : Q) : Q := newmark_gamma damping / 2.

(** The displacement, velocity and acceleration vectors of a solver. *)
Record Kinematics : Type := mkKinematics {
  kin_displacement : Vector;
  kin_velocity : Vector;
  kin_acceleration : Vector
}.

(** [predicted_displacement] of the hyperelastic solvers. *)
Definition predicted_displacement (damping dt : Q) (previous : Kinematics)
  : Vector :=
  vector_add2 (kin_displacement previous) dt (kin_velocity previous)
    (((1 # 2) - newmark_beta damping) * dt * dt) (kin_acceleration previous).

(** The velocity update both kinds of solver share. *)
Definition newmark_velocity (damping dt : Q) (previous : Kinematics)
    (acceleration : Vector) : Vector :=
  vector_add2 (kin_velocity previous) (dt * (1 - newmark_gamma damping))
    (kin_acceleration previous) (dt * newmark_gamma damping) acceleration.

(** The hyperelastic solvers after the Newton loop: the acceleration is
    recovered from the converged displacement. *)
Definition hyper_elasticity_update (damping dt : Q) (previous : Kinematics)
    (displacement : Vector) : Kinematics :=
  let acceleration :=
    vector_div (vector_sub displacement (predicted_displacement damping dt previous))
               (newmark_beta damping * dt * dt) in
  mkKinematics displacement (newmark_velocity damping dt previous acceleration)
    acceleration.

(** [SharedLinearElasticity::run_one_step] after the solve for the
    acceleration. *)
Definition linear_elasticity_update (damping dt : Q) (previous : Kinematics)
    (acceleration : Vector) : Kinematics :=
  mkKinematics
    (vector_add2 (vector_add (kin_displacement previous) dt (kin_velocity previous))
       (dt * dt * ((1 # 2) - newmark_beta damping)) (kin_acceleration previous)
       (dt * dt * newmark_beta damping) acceleration)
    (newmark_velocity damping dt previous acceleration)
    acceleration.

(** ** [compute_volume] *)

(** An active cell as [compute_volume] sees it: [lqph[q]->get_det_F()] and
    [fe_values.JxW(q)] at its quadrature points. *)
Record VolumeCell : Type := mkVolumeCell {
  vol_subdomain_id : nat;
  vol_det_F : list Q;
  vol_JxW : list Q
}.

(** The loop over the quadrature points of one cell. *)
Definition add_cell_volume (n_q_points : nat) (volume : Q) (c : VolumeCell) : Q :=
  fold_left (fun volume q => volume + nth q (vol_det_F c) 0 * nth q (vol_JxW c) 0)
            (seq 0 n_q_points) volume.

(** [HyperElasticity::compute_volume]. *)
Definition compute_volume (n_q_points : nat) (cells : list VolumeCell) : Q :=
  fold_left (add_cell_volume n_q_points) cells 0.

(** [SharedHyperElasticity::compute_volume] on the rank [this_mpi_process].
    The value of [Utilities::MPI::sum(volume, mpi_communicator)] is not
    assigned to anything: the function returns the sum over the cells of
    its own subdomain. *)
Definition shared_compute_volume (n_q_points this_mpi_process : nat)
    (cells : list VolumeCell) : Q :=
  fold_left
    (fun volume c =>
       if negb (Nat.eqb (vol_subdomain_id c) this_mpi_process) then volume
       else add_cell_volume n_q_points volume c)
    cells 0.

(** ** The flags of [FSI::refine_mesh] *)

(** An active fluid cell as the flag loops see it. *)
Record FlagCell : Type := mkFlagCell {
  fc_level : nat;
  fc_center : Point;
  refine_flag_set : bool;
  coarsen_flag_set : bool
}.

(** [std::min(center.distance(s_cell->center()), dist)] over the solid
    cells, from [dist = 1000].  [distance] is [Point::distance] of deal.II
    and [solid_centers] are the centers of the active solid cells on the
    mesh moved forward. *)
Definition nearest_solid_center (distance : Point -> Point -> Q)
    (solid_centers : list Point) (center : Point) : Q :=
  fold_left
    (fun dist s => if Qlt_bool dist (distance center s) then dist
                   else distance center s)
    solid_centers 1000.

(** The first loop: [set_refine_flag] or [set_coarsen_flag]. *)
Definition flag_by_distance (distance : Point -> Point -> Q)
    (solid_centers : list Point) (c : FlagCell) : FlagCell :=
  if Qlt_bool (nearest_solid_center distance solid_centers (fc_center c)) (1 # 10)
  then mkFlagCell (fc_level c) (fc_center c) true (coarsen_flag_set c)
  else mkFlagCell (fc_level c) (fc_center c) (refine_flag_set c) true.

(** The loop from [begin_active(max_grid_level)] to [end()], run when
    [n_levels() > max_grid_level]. *)
Definition clear_refine_above (n_levels max_grid_level : nat) (c : FlagCell)
  : FlagCell :=
  if Nat.ltb max_grid_level n_levels && Nat.leb max_grid_level (fc_level c)
  then mkFlagCell (fc_level c) (fc_center c) false (coarsen_flag_set c)
  else c.

(** The loop from [begin_active(min_grid_level)] to
    [end_active(min_grid_level)]. *)
Definition clear_coarsen_at (min_grid_level : nat) (c : FlagCell) : FlagCell :=
  if Nat.eqb (fc_level c) min_grid_level
  then mkFlagCell (fc_level c) (fc_center c) (refine_flag_set c) false
  else c.

(** The flags [refine_mesh] hands to
    [prepare_coarsening_and_refinement]. *)
Definition refine_mesh_flags (distance : Point -> Point -> Q)
    (solid_centers : list Point) (n_levels min_grid_level max_grid_level : nat)
    (cells : list FlagCell) : list FlagCell :=
  map (clear_coarsen_at min_grid_level)
      (map (clear_refine_above n_levels max_grid_level)
           (map (flag_by_distance distance solid_centers) cells)).

(** ** Matrices and the volume loop of [SharedLinearElasticity] *)

(** A [FullMatrix<double>] or a sparse matrix, read by its entries. *)
Definition Matrix : Type := nat -> nat -> Q.

Definition zero_matrix : Matrix := fun _ _ => 0.

(** [M(i, j) += x]. *)
Definition matrix_add_entry (M : Matrix) (i j : nat) (x : Q) : Matrix :=
  fun a b => if Nat.eqb a i && Nat.eqb b j then M a b + x else M a b.

(** [vmult(dst, src)] on the first [n] rows and columns. *)
Definition vmult (n : nat) (M : Matrix) (src : Vector) : Vector :=
  map (fun i => fold_left (fun acc j => acc + M i j * vget src j) (seq 0 n) 0)
      (seq 0 n).

(** The product of two [Tensor<1,dim>]. *)
Definition dot (dim : nat) (a b : Point) : Q :=
  fold_left (fun acc d => acc + coord a d * coord b d) (seq 0 dim) 0.

(** What [FEValues] and the material give the volume loop on one cell:
    the shape functions [phi[k]] at the quadrature points, the form
    [symmetric_grad_phi[i] * elasticity * symmetric_grad_phi[j]], and
    [JxW(q)]. *)
Record VolumeData : Type := mkVolumeData {
  vd_dim : nat;
  vd_dofs_per_cell : nat;
  vd_n_q_points : nat;
  vd_phi : nat -> nat -> Point;
  vd_stiffness_form : nat -> nat -> nat -> Q;
  vd_JxW : nat -> Q
}.

(** The body of the loop over [j]: [local_matrix] and [local_stiffness]. *)
Definition linear_entry_step (is_initial : bool) (rho beta dt : Q)
    (vd : VolumeData) (q i : nat) (st : Matrix * Matrix) (j : nat)
  : Matrix * Matrix :=
  let phi_phi :=
    dot (vd_dim vd) (map (Qmult rho) (vd_phi vd i q)) (vd_phi vd j q) in
  if is_initial
  then (matrix_add_entry st.1 i j (phi_phi * vd_JxW vd q), st.2)
  else (matrix_add_entry st.1 i j
          ((phi_phi + vd_stiffness_form vd q i j * beta * dt * dt) * vd_JxW vd q),
        matrix_add_entry st.2 i j (vd_stiffness_form vd q i j * vd_JxW vd q)).

(** The loops over [q], [i] and [j] of
    [SharedLinearElasticity::assemble_system] on one cell. *)
Definition linear_local_matrices (is_initial : bool) (rho beta dt : Q)
    (vd : VolumeData) : Matrix * Matrix :=
  fold_left
    (fun st q =>
       fold_left
         (fun st i =>
            fold_left (linear_entry_step is_initial rho beta dt vd q i)
                      (seq 0 (vd_dofs_per_cell vd)) st)
         (seq 0 (vd_dofs_per_cell vd)) st)
    (seq 0 (vd_n_q_points vd)) (zero_matrix, zero_matrix).

(** [local_rhs] after the same loops: the body force with the
    zero-initialised [gravity] declared inside the loop. *)
Definition linear_local_rhs (rho : Q) (vd : VolumeData) : Vector :=
  fold_left
    (fun rhs q =>
       fold_left
         (fun rhs i =>
            let gravity := zero_tensor1 (vd_dim vd) in
            <[i := vget rhs i
                   + dot (vd_dim vd) (vd_phi vd i q) gravity * rho * vd_JxW vd q]>
              rhs)
         (seq 0 (vd_dofs_per_cell vd)) rhs)
    (seq 0 (vd_n_q_points vd)) (replicate (vd_dofs_per_cell vd) 0).

(** The right-hand side [tmp1] of the solve for the acceleration in
    [SharedLinearElasticity::run_one_step]. *)
Definition linear_modified_rhs (n : nat) (damping dt : Q)
    (stiffness_matrix : Matrix) (system_rhs : Vector) (previous : Kinematics)
  : Vector :=
  let tmp2 := predicted_displacement damping dt previous in
  let tmp3 := vmult n stiffness_matrix tmp2 in
  vector_sub system_rhs tmp3.

(** ** The symmetric fill of the hyperelastic [assemble_system] *)

(** [M(i, j) = x]. *)
Definition matrix_set (M : Matrix) (i j : nat) (x : Q) : Matrix :=
  fun a b => if Nat.eqb a i && Nat.eqb b j then x else M a b.

(** The loops of the hyperelastic [assemble_system] that copy the lower
    triangle of [local_matrix] (or of [local_mass]) to the upper one:
    [local_matrix(i, j) = local_matrix(j, i)] for [j] from [i + 1]. *)
Definition mirror_lower_triangle (dofs_per_cell : nat) (M : Matrix) : Matrix :=
  fold_left
    (fun M i =>
       fold_left (fun M j => matrix_set M i j (M j i))
                 (seq (i + 1) (dofs_per_cell - (i + 1))) M)
    (seq 0 dofs_per_cell) M.

(** ** The projection of [update_strain_and_stress] *)

(** [FullMatrix::fill(src, dst_offset_i, dst_offset_j, 0, 0)] into a matrix
    of [m] rows and [n] columns, from a source of [src_m] rows and [src_n]
    columns: the block that fits is copied. *)
Definition matrix_fill (m n : nat) (M : Matrix) (src_m src_n : nat) (src : Matrix)
    (dst_offset_i dst_offset_j : nat) : Matrix :=
  fun r c =>
    if Nat.leb dst_offset_i r && Nat.ltb r (Nat.min m (dst_offset_i + src_m))
       && Nat.leb dst_offset_j c && Nat.ltb c (Nat.min n (dst_offset_j + src_n))
    then src (r - dst_offset_i)%nat (c - dst_offset_j)%nat
    else M r c.

(** [qpt_to_dof]: the projection matrix [tmp] of one component, copied
    [n = dim * dim] times along the diagonal. *)
Definition qpt_to_dof (dg_dofs_per_cell n n_q_points : nat) (tmp : Matrix)
  : Matrix :=
  let m := (dg_dofs_per_cell / n)%nat in
  let cols := (n * n_q_points / n)%nat in
  fold_left
    (fun M i => matrix_fill dg_dofs_per_cell (n * n_q_points) M m cols tmp
                  (i * m) (i * cols))
    (seq 0 n) zero_matrix.

(** [quad_strain] or [quad_stress]: component [k] of the tensor at
    quadrature point [q] goes to the entry [k * n_q_points + q]. *)
Definition vectorize_at_quadrature_points (n n_q_points : nat)
    (component : nat -> nat -> Q) : Vector :=
  fold_left
    (fun quad q =>
       fold_left
         (fun quad k => <[(k * n_q_points + q)%nat := component q k]> quad)
         (seq 0 n) quad)
    (seq 0 n_q_points) (replicate (n_q_points * n) 0).

(** [vmult] of a matrix of [m] rows and [n] columns. *)
Definition vmult_rect (m n : nat) (M : Matrix) (src : Vector) : Vector :=
  map (fun i => fold_left (fun acc j => acc + M i j * vget src j) (seq 0 n) 0)
      (seq 0 m).

(** [cell_strain] or [cell_stress]. *)
Definition project_to_dofs (dg_dofs_per_cell n n_q_points : nat) (tmp : Matrix)
    (component : nat -> nat -> Q) : Vector :=
  vmult_rect dg_dofs_per_cell (n * n_q_points)
    (qpt_to_dof dg_dofs_per_cell n n_q_points tmp)
    (vectorize_at_quadrature_points n n_q_points component).

(** ** Examples for the further parts *)

(** A fluid at rest under the pressure 5, on one rank. *)
Definition still_ranks : list FluidRank :=
  [mkFluidRank (fun _ => [0; 0; 5]) (fun _ => [[0; 0]; [0; 0]; [0; 0]])].

(** A stand-alone solid run whose Neumann type was left at "FSI". *)
Definition untyped_parameters : AllParameters :=
  mkParameters "Solid" 3 1 [0; -(10)] (1 # 2) {[0%nat := [0; -(1)]]} "FSI"
               ∅ 1 (1 # 1000) (1 # 1000) 1 (1 # 2) 2 [1%nat; 0%nat].

(** The Newton state in which the quick solver leaves the loop. *)
Definition quick_final_state : NewtonState unit :=
  mkNewtonState tt 1
    (1 # 10000000000000) (1 # 10000000000000)
    ((1 # 10000000000000) / (1 # 10000000000000))
    (1 # 10000000000000) (1 # 10000000000000)
    ((1 # 10000000000000) / (1 # 10000000000000)).

(** A solver with one dof: displacement 1, at rest, and the displacement
    3/2 the Newton loop converges to. *)
Definition example_kinematics : Kinematics := mkKinematics [1] [0] [0].

(** Three cells on two ranks, two quadrature points each. *)
Definition example_volume_cells : list VolumeCell :=
  [mkVolumeCell 0 [1; 1] [1 # 2; 1 # 2]; mkVolumeCell 1 [2; 2] [1 # 4; 1 # 4];
   mkVolumeCell 0 [1; 3] [1; 1]].

(** A distance for the examples: the sum of the coordinate differences. *)
Definition taxi_distance (p q : Point) : Q :=
  Qabs (coord p 0 - coord q 0) + Qabs (coord p 1 - coord q 1).

(** Fluid cells at the solid on levels 1 and 4, and one far away. *)
Definition example_flag_cells : list FlagCell :=
  [mkFlagCell 1 [1 # 2; 1 # 2] false false;
   mkFlagCell 4 [1 # 2; 1 # 2] false false;
   mkFlagCell 2 [5; 5] false false].

(** One quadrature point and two dofs with the shape functions (1, 0) and
    (0, 1). *)
Definition example_volume_data : VolumeData :=
  mkVolumeData 2 2 1 (fun k _ => if Nat.eqb k 0 then [1; 0] else [0; 1])
    (fun _ i j => if Nat.eqb i j then 2 else 1) (fun _ => 1 # 2).

(** A local matrix whose upper triangle was never written. *)
Definition lower_triangle_matrix : Matrix :=
  fun a b => if Nat.leb b a then inject_Z (Z.of_nat (3 * a + b + 1)) else 0.

(** * Doubles *)

(** ** Rounded arithmetic *)

(** The four operations of [double], each taking two doubles to the double
    the hardware (or, for a [Tensor] divided by a number, deal.II) returns.
    The finite doubles are rationals; infinities and NaN are not modelled.
    Comparisons of doubles are exact. *)
Record Arithmetic : Type := mkArithmetic {
  fadd : Q -> Q -> Q;
  fsub : Q -> Q -> Q;
  fmul : Q -> Q -> Q;
  fdiv : Q -> Q -> Q
}.

Definition exact_arithmetic : Arithmetic := mkArithmetic Qplus Qminus Qmult Qdiv.

(** The nearest integer, ties to the even one. *)
Definition nearest_even (t : Q) : Z :=
  let f := Qfloor t in
  match Qcompare (t - inject_Z f) (1 # 2) with
  | Lt => f
  | Gt => (f + 1)%Z
  | Eq => if Z.even f then f else (f + 1)%Z
  end.

(** The exponent [e] of the last place of a positive number [y] in
    binary64 (53 significant bits): [2^52 <= y / 2^e < 2^53]. *)
Definition binary64_exponent (y : Q) : Z :=
  let k := (Z.log2 (Qnum y) - Z.log2 (Zpos (Qden y)))%Z in
  if Qle_bool (2 ^ k) y then (k - 52)%Z else (k - 53)%Z.

(** IEEE 754 binary64 rounding to nearest, ties to even, of a rational, with
    the exponent range unbounded (no overflow, no subnormal numbers). *)
Definition round_binary64 (x : Q) : Q :=
  if Qeq_bool x 0 then 0
  else
    let e := binary64_exponent (Qabs x) in
    let m := nearest_even (Qabs x / 2 ^ e) in
    Qred ((if Qle_bool 0 x then 1 else - (1)) * (inject_Z m * 2 ^ e)).

(** binary64 arithmetic: the exact result, rounded. *)
Definition binary64 : Arithmetic :=
  mkArithmetic (fun x y => round_binary64 (x + y))
               (fun x y => round_binary64 (x - y))
               (fun x y => round_binary64 (x * y))
               (fun x y => round_binary64 (x / y)).

(** The double a decimal literal denotes. *)
Definition double (x : Q) : Q := round_binary64 x.

(** ** The mesh motion and the point classification in doubles

    The functions whose outcome the rounding of a double decides, once
    more, with every operation on doubles taken from an [Arithmetic]. *)

Module Rounded.
Section WithArithmetic.
Context (ar : Arithmetic).

(** [Point::operator+=] and [operator-=]: one addition or subtraction of
    doubles per coordinate. *)
Definition point_add (p w : Point) : Point :=
  imap (fun d x => fadd ar x (coord w d)) p.

Definition point_sub (p w : Point) : Point :=
  imap (fun d x => fsub ar x (coord w d)) p.

(** The body of the inner loop of [FSI::move_solid_mesh]: local vertex [v]
    of cell [c]. *)
Definition move_vertex (dim : nat) (move_forward : bool) (u : Vector)
    (c : SolidCell) (st : list bool * list Point) (v : nat)
  : list bool * list Point :=
  let idx := vertex_index c v in
  match st.1 !! idx with
  | Some false =>
      let vertex_displacement :=
        map (fun d => vget u (vertex_dof_index c v d)) (seq 0 dim) in
      (<[idx := true]> st.1,
       alter (fun p => if move_forward then point_add p vertex_displacement
                       else point_sub p vertex_displacement)
             idx st.2)
  | _ => st
  end.

Definition move_cell (dim : nat) (move_forward : bool) (u : Vector)
    (st : list bool * list Point) (c : SolidCell) : list bool * list Point :=
  foldl (move_vertex dim move_forward u c) st (seq 0 (vertices_per_cell dim)).

(** [FSI::move_solid_mesh(move_forward)]: the new vertex table. *)
Definition move_solid_mesh (dim : nat) (move_forward : bool) (u : Vector)
    (cells : list SolidCell) (vertices : list Point) : list Point :=
  (foldl (move_cell dim move_forward u)
         (replicate (length vertices) false, vertices) cells).2.

(** [FSI::update_solid_box]: the box of the vertex table moved forward, and
    the vertex table after the move back. *)
Definition update_solid_box (dim : nat) (u : Vector) (cells : list SolidCell)
    (vertices : list Point) : Vector * list Point :=
  let moved := move_solid_mesh dim true u cells vertices in
  (fold_left (box_step dim) moved (initial_box dim (hd [] moved)),
   move_solid_mesh dim false u cells moved).

(** [r2[0] + p2(0)], with [r1 = p1 - p2] and
    [r2 = r1 * (point(1) - p2(1)) / r1[1]] computed in doubles; [r2] stays
    zero for a horizontal segment.  The division of a [Tensor] by a number is
    deal.II's and goes through [fdiv]. *)
Definition r2_x (point : Point) (seg : Segment) : Q :=
  let p1 := seg.1 in
  let p2 := seg.2 in
  let r1 := map (fun d => fsub ar (coord p1 d) (coord p2 d)) (seq 0 2) in
  let r2 :=
    if negb (Qeq_bool (coord r1 1) 0)
    then map (fun x => fdiv ar (fmul ar x (fsub ar (coord point 1) (coord p2 1)))
                            (coord r1 1)) r1
    else [0; 0] in
  fadd ar (coord r2 0) (coord p2 0).

Definition segment_step (solid_box : Vector) (point : Point)
    (cross_number half_cross_number : nat) (seg : Segment) : SegmentResult :=
  let p1 := seg.1 in
  let p2 := seg.2 in
  let y_diff1 := fsub ar (coord p1 1) (coord point 1) in
  let y_diff2 := fsub ar (coord p2 1) (coord point 1) in
  let x_diff1 := fsub ar (coord p1 0) (coord point 0) in
  let x_diff2 := fsub ar (coord p2 0) (coord point 0) in
  if Qlt_bool (fmul ar y_diff1 y_diff2) 0 then
    if Qlt_bool (coord point 0) (r2_x point seg)
    then Continue (S cross_number) half_cross_number
    else if Qeq_bool (r2_x point seg) (coord point 0)
    then ReturnTrue
    else Continue cross_number half_cross_number
  else if Qeq_bool (fmul ar y_diff1 y_diff2) 0 then
    if Qeq_bool y_diff1 0 && Qeq_bool y_diff2 0 then
      if Qlt_bool (fmul ar x_diff1 x_diff2) 0
      then ReturnTrue
      else Continue cross_number half_cross_number
    else if Qlt_bool (coord point 0) (r2_x point seg) then
      if negb (Qeq_bool (coord point 1) (vget solid_box 2))
         && negb (Qeq_bool (coord point 1) (vget solid_box 3))
      then Continue cross_number (S half_cross_number)
      else Continue cross_number half_cross_number
    else if point_eqb 2 point p1 || point_eqb 2 point p2
    then ReturnTrue
    else Continue cross_number half_cross_number
  else Continue cross_number half_cross_number.

Fixpoint crossing_loop (solid_box : Vector) (point : Point)
    (solid_boundaries : list Segment) (cross_number half_cross_number : nat)
  : SegmentResult :=
  match solid_boundaries with
  | [] => Continue cross_number half_cross_number
  | seg :: rest =>
      match segment_step solid_box point cross_number half_cross_number seg with
      | ReturnTrue => ReturnTrue
      | Continue cn hcn => crossing_loop solid_box point rest cn hcn
      end
  end.

(** [FSI::point_in_solid] in doubles. *)
Definition point_in_solid (dim : nat) (solid_box : Vector)
    (solid_boundaries : list Segment) (cells_point_inside : list (Point -> bool))
    (point : Point) : bool :=
  if outside_box dim solid_box point then false
  else if Nat.eqb dim 2 then
    match crossing_loop solid_box point solid_boundaries 0 0 with
    | ReturnTrue => true
    | Continue cross_number half_cross_number =>
        let cross_number := (cross_number + half_cross_number / 2)%nat in
        if Nat.eqb (cross_number mod 2) 0 then false else true
    end
  else existsb (fun inside => inside point) cells_point_inside.

(** The product [y_diff1 * y_diff2] the branches test. *)
Definition y_product (point : Point) (seg : Segment) : Q :=
  fmul ar (fsub ar (coord seg.1 1) (coord point 1))
          (fsub ar (coord seg.2 1) (coord point 1)).

Definition is_horizontal (point : Point) (seg : Segment) : bool :=
  Qeq_bool (fsub ar (coord seg.1 1) (coord point 1)) 0
  && Qeq_bool (fsub ar (coord seg.2 1) (coord point 1)) 0.

(** The three ways a segment ends the loop with [true], and the two ways
    it counts, as the doubles decide them. *)
Definition on_crossing (point : Point) (seg : Segment) : bool :=
  Qlt_bool (y_product point seg) 0
  && Qeq_bool (r2_x point seg) (coord point 0).

Definition on_horizontal (point : Point) (seg : Segment) : bool :=
  Qeq_bool (y_product point seg) 0
  && is_horizontal point seg
  && Qlt_bool (fmul ar (fsub ar (coord seg.1 0) (coord point 0))
                       (fsub ar (coord seg.2 0) (coord point 0))) 0.

Definition on_vertex (point : Point) (seg : Segment) : bool :=
  Qeq_bool (y_product point seg) 0
  && negb (is_horizontal point seg)
  && negb (Qlt_bool (coord point 0) (r2_x point seg))
  && (point_eqb 2 point seg.1 || point_eqb 2 point seg.2).

Definition on_boundary (point : Point) (seg : Segment) : bool :=
  on_crossing point seg || on_horizontal point seg || on_vertex point seg.

Definition full_crossing (point : Point) (seg : Segment) : bool :=
  Qlt_bool (y_product point seg) 0
  && Qlt_bool (coord point 0) (r2_x point seg).

Definition half_crossing (solid_box : Vector) (point : Point) (seg : Segment)
  : bool :=
  Qeq_bool (y_product point seg) 0
  && negb (is_horizontal point seg)
  && Qlt_bool (coord point 0) (r2_x point seg)
  && negb (Qeq_bool (coord point 1) (vget solid_box 2))
  && negb (Qeq_bool (coord point 1) (vget solid_box 3)).

Definition crossing_count (solid_box : Vector) (point : Point)
    (solid_boundaries : list Segment) : nat :=
  (length (filter (fun seg => full_crossing point seg = true) solid_boundaries)
   + length (filter (fun seg => half_crossing solid_box point seg = true)
                    solid_boundaries) / 2)%nat.

End WithArithmetic.
End Rounded.

(** What one call of [Rounded.move_solid_mesh] does to a vertex that the
    (cell, local vertex) pair [cv] names. *)
Definition rounded_shift (ar : Arithmetic) (dim : nat) (move_forward : bool)
    (u : Vector) (cv : SolidCell * nat) (p : Point) : Point :=
  let w := map (fun d => vget u (vertex_dof_index cv.1 cv.2 d)) (seq 0 dim) in
  if move_forward then Rounded.point_add ar p w else Rounded.point_sub ar p w.

(** Rounding changes the outcome of none of the tests of [point] against
    [seg]: the doubles decide them as exact arithmetic does. *)
Definition same_tests (ar : Arithmetic) (solid_box : Vector) (point : Point)
    (seg : Segment) : bool :=
  Bool.eqb (Rounded.on_boundary ar point seg) (on_boundary point seg)
  && Bool.eqb (Rounded.full_crossing ar point seg) (full_crossing point seg)
  && Bool.eqb (Rounded.half_crossing ar solid_box point seg)
              (half_crossing solid_box point seg).

(** The surface load of the claim on entry [j] of [local_rhs]: starting
    from the value the volume loop left, every face at the boundary adds, at
    each of its quadrature points in turn, the shape value times the
    component of the stored [fsi_traction] times [JxW]. *)
Definition fsi_surface_load_entry (sh : AssemblyShape) (c : AssemblyCell)
    (j : nat) (start : Q) : Q :=
  fold_left
    (fun acc face =>
       match asm_faces c !! face with
       | Some f =>
           if at_boundary f then
             fold_left
               (fun acc q =>
                  acc + asm_shape_value c face j q
                        * coord (nth (face * n_f_q_points sh + q)
                                     (asm_fsi_traction c)
                                     (zero_tensor1 (asm_dim sh)))
                                (asm_component sh j)
                        * asm_JxW c face q)
               (seq 0 (n_f_q_points sh)) acc
           else acc
       | None => acc
       end)
    (seq 0 (faces_per_cell (asm_dim sh))) start.

(** ** Examples in doubles and for the loads *)

(** A unit square at decimal coordinates, translated by (0.3, -0.21). *)
Definition decimal_vertices : list Point :=
  [[double (1 # 10); double (46 # 100)]; [double (11 # 10); double (46 # 100)];
   [double (1 # 10); double (146 # 100)]; [double (11 # 10); double (146 # 100)]].

Definition decimal_displacement : Vector :=
  flat_map (fun _ => [double (3 # 10); double (- (21 # 100))]) (seq 0 4).

(** A solid of one cell with slanted sides and decimal coordinates:
    the vertices (0.3, 0), (1.3, 0), (1, 1), (2, 1) in deal.II's order. *)
Definition slanted_vertices : list Point :=
  [[double (3 # 10); 0]; [double (13 # 10); 0]; [1; 1]; [2; 1]].

Definition slanted_boundaries : list Segment :=
  map (face_segment slanted_vertices) (collect_solid_boundaries 2 [square_cell]).

Definition slanted_box : Vector :=
  (Rounded.update_solid_box binary64 2 (replicate 8 0) [square_cell]
     slanted_vertices).1.

Definition slanted_polygon : list Point :=
  [[double (3 # 10); 0]; [double (13 # 10); 0]; [2; 1]; [1; 1]].

Definition slanted_oriented : list Segment :=
  [([double (3 # 10); 0], [double (13 # 10); 0]);
   ([double (13 # 10); 0], [2; 1]);
   ([1; 1], [2; 1]);
   ([double (3 # 10); 0], [1; 1])].

(** Two fluid cells side by side, the last cells of their mesh towards the
    right and the top.  The vertex (1/4, 1/2) is the corner (1, 1) of the
    left cell and the corner (0, 1) of the right one; the vertex (3/4, 1/2)
    is the corner (1, 1) of the right cell and of no other.  Both lie in the
    unit square solid.  Vertex [k] carries the dofs [3k], [3k+1], [3k+2]. *)
Definition left_fluid_cell : FluidCell :=
  mkFluidCell 0 false true (seq 0 12)
    (flat_map (fun p => [p; p; p])
       [[-(1 # 2); -(1 # 2)]; [1 # 4; -(1 # 2)]; [-(1 # 2); 1 # 2]; [1 # 4; 1 # 2]])
    [[-(1 # 8); 0]] [2] [[[1; 0]; [0; 1]]].

Definition right_fluid_cell : FluidCell :=
  mkFluidCell 1 false true
    [3; 4; 5; 12; 13; 14; 9; 10; 11; 15; 16; 17]%nat
    (flat_map (fun p => [p; p; p])
       [[1 # 4; -(1 # 2)]; [3 # 4; -(1 # 2)]; [1 # 4; 1 # 2]; [3 # 4; 1 # 2]])
    [[1 # 2; 0]] [2] [[[1; 0]; [0; 1]]].

Definition two_cell_fluid_bc : Result FluidBCResult :=
  find_fluid_bc 2 example_parameters (square_queries true) q1_element
    (replicate 18 (1 # 4)) square_solid square_box
    (collect_solid_boundaries 2 (solid_cells square_solid))
    [left_fluid_cell; right_fluid_cell] ∅ ∅ ∅ ∅.

(** The unit square with stored tractions that do not cancel. *)
Definition loaded_assembly_cell : AssemblyCell :=
  mkAssemblyCell 0 (faces square_cell) (fun _ _ _ => 1 # 2) (fun _ _ => 1)
    (fun face _ => nth face [[-(1); 0]; [1; 0]; [0; -(1)]; [0; 1]] [])
    [[4; 0]; [1; 0]; [0; 4]; [0; 2]] (replicate 8 0).

(** The example run when the fluid solver already constrains dof 0. *)
Definition held_nonzero : gmap nat Q := {[0%nat := 7]}.

Definition held_zero : gmap nat Q := {[0%nat := 0]}.

Definition held_fluid_bc : Result FluidBCResult :=
  find_fluid_bc 2 example_parameters (square_queries true) q1_element
    example_present_solution square_solid square_box
    (collect_solid_boundaries 2 (solid_cells square_solid))
    [example_fluid_cell] held_nonzero held_zero ∅ ∅.

Definition held_fluid_bc_result : FluidBCResult :=
  match held_fluid_bc with
  | Ok r => r
  | Throw _ => mkFluidBCResult ∅ ∅ ∅ ∅ ∅ ∅
  end.

(* ===================================================================== *)
(** * Part II: properties                                                 *)
(* ===================================================================== *)

(** ** Vectors *)

Lemma vget_insert_eq (u : Vector) (i : nat) (x : Q) :
  (i < length u)%nat -> vget (<[i := x]> u) i = x.
Proof.
  intros H. unfold vget, Vector in *. rewrite nth_lookup.
  by rewrite list_lookup_insert_eq.
Qed.

Lemma vget_insert_ne (u : Vector) (i j : nat) (x : Q) :
  i ≠ j -> vget (<[i := x]> u) j = vget u j.
Proof.
  intros H. unfold vget, Vector in *. rewrite !nth_lookup.
  by rewrite list_lookup_insert_ne.
Qed.

(** ** Mesh motion *)

Section MeshMotion.
Context (dim : nat) (move_forward : bool) (u : Vector).

Local Abbreviation shift := (shift dim move_forward u).
Local Abbreviation visit_step := (visit_step dim move_forward u).

Lemma move_cell_visits st c :
  move_cell dim move_forward u st c = foldl visit_step st (cell_visits dim c).
Proof.
  unfold move_cell, cell_visits.
  generalize (seq 0 (vertices_per_cell dim)) st.
  induction l as [|v l IH]; intros st0; simpl; [done|apply IH].
Qed.

Lemma move_mesh_visits cells st :
  foldl (move_cell dim move_forward u) st cells
  = foldl visit_step st (mesh_visits dim cells).
Proof.
  revert st. induction cells as [|c cells IH]; intros st; simpl; [done|].
  unfold mesh_visits. simpl. rewrite foldl_app, <- move_cell_visits. apply IH.
Qed.

Lemma visit_step_length st cv :
  length st.1 = length st.2 ->
  length (visit_step st cv).1 = length (visit_step st cv).2.
Proof.
  intros H. unfold visit_step, move_vertex.
  destruct (st.1 !! _) as [[|]|]; simpl; try done.
  by rewrite length_insert, length_alter.
Qed.

Lemma visits_lookup vs : forall st idx,
  length st.1 = length st.2 ->
  (foldl visit_step st vs).2 !! idx =
    match st.1 !! idx with
    | Some false =>
        match List.find (fun cv => Nat.eqb (vertex_index cv.1 cv.2) idx) vs with
        | Some cv => shift cv <$> st.2 !! idx
        | None => st.2 !! idx
        end
    | _ => st.2 !! idx
    end.
Proof.
  induction vs as [|cv vs IH]; intros st idx Hlen; simpl.
  - by destruct (st.1 !! idx) as [[|]|].
  - rewrite IH by (by apply visit_step_length).
    unfold visit_step, move_vertex.
    destruct (Nat.eqb_spec (vertex_index cv.1 cv.2) idx) as [->|Hne].
    + destruct (st.1 !! idx) as [[|]|] eqn:Ht; simpl; rewrite ?Ht; try done.
      rewrite list_lookup_insert_eq by (by eapply lookup_lt_Some).
      by rewrite list_lookup_alter_eq.
    + destruct (st.1 !! vertex_index cv.1 cv.2) as [[|]|] eqn:Ht; simpl; try done.
      rewrite list_lookup_insert_ne by done.
      by rewrite list_lookup_alter_ne by done.
Qed.

Lemma move_solid_mesh_length cells vertices :
  length (move_solid_mesh dim move_forward u cells vertices) = length vertices.
Proof.
  unfold move_solid_mesh. rewrite move_mesh_visits.
  assert (H : forall vs st, length st.1 = length st.2 ->
            length (foldl visit_step st vs).2 = length st.2).
  { induction vs as [|cv vs IH]; intros st Hl; simpl; [done|].
    rewrite IH by (by apply visit_step_length).
    unfold visit_step, move_vertex.
    destruct (st.1 !! _) as [[|]|]; simpl; try done. by rewrite length_alter. }
  rewrite H; simpl; [done|by rewrite length_replicate].
Qed.

Lemma move_solid_mesh_lookup cells vertices idx :
  move_solid_mesh dim move_forward u cells vertices !! idx =
    match first_visit dim cells idx with
    | Some cv => shift cv <$> vertices !! idx
    | None => vertices !! idx
    end.
Proof.
  unfold move_solid_mesh. rewrite move_mesh_visits.
  rewrite visits_lookup by (simpl; by rewrite length_replicate). simpl.
  unfold first_visit.
  destruct (decide (idx < length vertices)%nat) as [Hlt|Hge].
  - by rewrite lookup_replicate_2.
  - rewrite (proj1 (lookup_replicate_None _ _ _)) by lia.
    rewrite (lookup_ge_None_2 vertices) by lia.
    by destruct (List.find _ _).
Qed.

End MeshMotion.


(** ** Point in solid *)

Lemma Qlt_bool_iff (a b : Q) : Qlt_bool a b = true <-> a < b.
Proof.
  unfold Qlt_bool. rewrite negb_true_iff.
  split; intros H.
  - apply Qnot_le_lt. intros Hle. apply Qle_bool_iff in Hle. congruence.
  - destruct (Qle_bool b a) eqn:E; [|done].
    apply Qle_bool_iff in E. exfalso. by apply (Qlt_not_le a b).
Qed.

Lemma Qlt_bool_false (a b : Q) : Qlt_bool a b = false <-> b <= a.
Proof.
  unfold Qlt_bool. rewrite negb_false_iff. apply Qle_bool_iff.
Qed.

Lemma Qeq_bool_false (a b : Q) : Qeq_bool a b = false <-> ~ a == b.
Proof.
  split.
  - intros H E. apply Qeq_bool_iff in E. congruence.
  - intros H. destruct (Qeq_bool a b) eqn:E; [|done].
    exfalso. by apply H, Qeq_bool_iff.
Qed.

Lemma r2_x_unfold (point : Point) (seg : Segment) :
  r2_x point seg =
    (if negb (Qeq_bool (coord seg.1 1 - coord seg.2 1) 0)
     then (coord seg.1 0 - coord seg.2 0) * (coord point 1 - coord seg.2 1)
          / (coord seg.1 1 - coord seg.2 1)
     else 0) + coord seg.2 0.
Proof.
  unfold r2_x, tensor_diff, coord. simpl.
  by destruct (negb _).
Qed.

Lemma segment_step_spec solid_box point cn hcn seg :
  segment_step solid_box point cn hcn seg =
    if on_boundary point seg then ReturnTrue
    else Continue (cn + b2n (full_crossing point seg))
                  (hcn + b2n (half_crossing solid_box point seg)).
Proof.
  unfold segment_step, on_boundary, on_crossing, on_horizontal, on_vertex,
    full_crossing, half_crossing.
  set (y1 := coord seg.1 1 - coord point 1).
  set (y2 := coord seg.2 1 - coord point 1).
  set (x1 := coord seg.1 0 - coord point 0).
  set (x2 := coord seg.2 0 - coord point 0).
  set (rx := r2_x point seg).
  destruct (Qlt_bool (y1 * y2) 0) eqn:Hlt.
  - assert (Heq : Qeq_bool (y1 * y2) 0 = false).
    { apply Qeq_bool_false. apply Qlt_bool_iff in Hlt. intros E. rewrite E in Hlt.
      by apply (Qlt_irrefl 0). }
    assert (Hh : Qeq_bool y1 0 && Qeq_bool y2 0 = false).
    { destruct (Qeq_bool y1 0) eqn:E1; [|done]. simpl.
      apply Qeq_bool_iff in E1. apply Qeq_bool_false in Heq.
      exfalso. apply Heq. rewrite E1. ring. }
    rewrite Heq, Hh. simpl.
    destruct (Qlt_bool (coord point 0) rx) eqn:Hx; simpl.
    + assert (Qeq_bool rx (coord point 0) = false) as ->.
      { apply Qeq_bool_false. apply Qlt_bool_iff in Hx. intros E.
        rewrite E in Hx. by apply (Qlt_irrefl (coord point 0)). }
      simpl. f_equal; lia.
    + destruct (Qeq_bool rx (coord point 0)); simpl; [done|f_equal; lia].
  - simpl. destruct (Qeq_bool (y1 * y2) 0) eqn:Heq; simpl.
    + destruct (Qeq_bool y1 0 && Qeq_bool y2 0) eqn:Hh; simpl.
      * destruct (Qlt_bool (x1 * x2) 0); simpl; [done|f_equal; lia].
      * destruct (Qlt_bool (coord point 0) rx) eqn:Hx; simpl.
        -- destruct (negb (Qeq_bool (coord point 1) (vget solid_box 2)));
             destruct (negb (Qeq_bool (coord point 1) (vget solid_box 3)));
             simpl; f_equal; lia.
        -- destruct (point_eqb 2 point seg.1 || point_eqb 2 point seg.2);
             simpl; [done|f_equal; lia].
    + assert (Hh : Qeq_bool y1 0 && Qeq_bool y2 0 = false).
      { destruct (Qeq_bool y1 0) eqn:E1; [|done]. simpl.
        apply Qeq_bool_iff in E1. apply Qeq_bool_false in Heq.
        exfalso. apply Heq. rewrite E1. ring. }
      rewrite Hh. simpl. f_equal; lia.
Qed.

Lemma crossing_loop_spec solid_box point segs : forall cn hcn,
  crossing_loop solid_box point segs cn hcn =
    if existsb (on_boundary point) segs then ReturnTrue
    else Continue
           (cn + length (filter (fun seg => full_crossing point seg = true) segs))
           (hcn + length (filter (fun seg => half_crossing solid_box point seg = true)
                                 segs)).
Proof.
  induction segs as [|seg segs IH]; intros cn hcn; simpl.
  - f_equal; lia.
  - rewrite segment_step_spec.
    destruct (on_boundary point seg); simpl; [done|].
    rewrite IH. destruct (existsb _ segs); [done|].
    rewrite !filter_cons.
    destruct (full_crossing point seg), (half_crossing solid_box point seg);
      simpl; repeat case_decide; try done; simpl; f_equal; lia.
Qed.

Lemma outside_box_true dim solid_box point :
  outside_box dim solid_box point = true <->
  exists i, (i < dim)%nat /\
    (coord point i < vget solid_box (2 * i) \/
     vget solid_box (2 * i + 1) < coord point i).
Proof.
  unfold outside_box. rewrite existsb_exists. split.
  - intros (i & Hi & H). exists i. apply in_seq in Hi. split; [lia|].
    apply orb_true_iff in H. by rewrite !Qlt_bool_iff in H.
  - intros (i & Hi & H). exists i. split; [apply in_seq; lia|].
    apply orb_true_iff. by rewrite !Qlt_bool_iff.
Qed.

Lemma odd_mod2 (n : nat) :
  (if Nat.eqb (n mod 2) 0 then false else true) = Nat.odd n.
Proof.
  destruct (Nat.odd n) eqn:Ho.
  - apply Nat.odd_spec in Ho as [k ->].
    by rewrite Nat.add_comm, Nat.mul_comm, Nat.Div0.mod_add.
  - rewrite <- Nat.negb_even in Ho. apply negb_false_iff in Ho.
    apply Nat.even_spec in Ho as [k ->].
    by rewrite Nat.mul_comm, Nat.Div0.mod_mul.
Qed.

Lemma point_in_solid_2d solid_box segs cells point :
  point_in_solid 2 solid_box segs cells point =
    negb (outside_box 2 solid_box point)
    && (existsb (on_boundary point) segs
        || Nat.odd (crossing_count solid_box point segs)).
Proof.
  unfold point_in_solid. destruct (outside_box 2 solid_box point); [done|].
  simpl. rewrite crossing_loop_spec.
  destruct (existsb (on_boundary point) segs); [done|]. simpl.
  unfold crossing_count.
  set (n := (_ + _ / 2)%nat). apply odd_mod2.
Qed.

Lemma point_eqb_2 (p q : Point) :
  point_eqb 2 p q = true <-> coord p 0 == coord q 0 /\ coord p 1 == coord q 1.
Proof.
  unfold point_eqb. simpl. rewrite !andb_true_iff, !Qeq_bool_iff. tauto.
Qed.

(** ** The accuracy of binary64 *)

Lemma nearest_even_error (t : Q) :
  Qabs (inject_Z (nearest_even t) - t) <= 1 # 2.
Proof.
  unfold nearest_even.
  pose proof (Qfloor_le t) as Hlo. pose proof (Qlt_floor t) as Hhi.
  rewrite inject_Z_plus in Hhi. change (inject_Z 1) with 1 in Hhi.
  apply Qabs_Qle_condition.
  destruct (Qcompare_spec (t - inject_Z (Qfloor t)) (1 # 2)) as [E|E|E].
  - destruct (Z.even (Qfloor t)); rewrite ?inject_Z_plus;
      change (inject_Z 1) with 1; split; lra.
  - split; lra.
  - rewrite inject_Z_plus. change (inject_Z 1) with 1. split; lra.
Qed.

Lemma pow2_pos (e : Z) : 0 < 2 ^ e.
Proof. by apply Qpower_0_lt. Qed.

Lemma pow2_log2 (n : positive) : 2 ^ Z.log2 (Zpos n) <= inject_Z (Zpos n).
Proof.
  rewrite <- (Zpower_Qpower 2) by apply Z.log2_nonneg.
  rewrite <- Zle_Qle. apply Z.log2_spec. lia.
Qed.

Lemma log2_pow2 (d : positive) : inject_Z (Zpos d) <= 2 ^ (Z.log2 (Zpos d) + 1).
Proof.
  rewrite <- (Zpower_Qpower 2) by (pose proof (Z.log2_nonneg (Zpos d)); lia).
  rewrite <- Zle_Qle.
  pose proof (Z.log2_spec (Zpos d) ltac:(lia)) as [_ H].
  unfold Z.succ in H. lia.
Qed.

(** The exponent is not too large: the scaled number has 53 bits. *)
Lemma binary64_exponent_bound (y : Q) :
  0 < y -> 2 ^ 52 * 2 ^ binary64_exponent y <= y.
Proof.
  intros Hy. unfold binary64_exponent.
  set (k := (Z.log2 (Qnum y) - Z.log2 (Zpos (Qden y)))%Z).
  destruct (Qle_bool (2 ^ k) y) eqn:E.
  - apply Qle_bool_iff in E.
    rewrite <- Qpower_plus by discriminate.
    by replace (52 + (k - 52))%Z with k by lia.
  - rewrite <- Qpower_plus by discriminate.
    replace (52 + (k - 53))%Z with (k - 1)%Z by lia.
    destruct y as [n d]. simpl in k.
    assert (Hn : (0 < n)%Z).
    { unfold Qlt in Hy. simpl in Hy. lia. }
    destruct n as [|n|n]; try lia.
    pose proof (pow2_log2 n) as H1. pose proof (log2_pow2 d) as H2.
    pose proof (pow2_pos (k - 1)) as Hk.
    pose proof (pow2_pos (Z.log2 (Zpos d) + 1)) as Hd.
    assert (Hsplit : 2 ^ Z.log2 (Zpos n)
                     == 2 ^ (k - 1) * 2 ^ (Z.log2 (Zpos d) + 1)).
    { rewrite <- Qpower_plus by discriminate.
      assert (Hz : (k - 1 + (Z.log2 (Zpos d) + 1))%Z = Z.log2 (Zpos n))
        by (subst k; simpl; lia).
      by rewrite Hz. }
    rewrite (Qmake_Qdiv (Zpos n) d).
    assert (Hdpos : 0 < inject_Z (Zpos d)).
    { rewrite <- (Zlt_Qlt 0). lia. }
    apply Qle_shift_div_l; [done|].
    rewrite Hsplit in H1.
    apply Qle_trans with (2 ^ (k - 1) * 2 ^ (Z.log2 (Z.pos d) + 1)); [|done].
    apply Qmult_le_l; done.
Qed.

(** binary64 rounding has relative error at most 2^-53. *)
Lemma round_binary64_error (x : Q) :
  Qabs (round_binary64 x - x) <= (1 # 9007199254740992) * Qabs x.
Proof.
  unfold round_binary64.
  destruct (Qeq_bool x 0) eqn:E0.
  - apply Qeq_bool_iff in E0. rewrite E0. vm_compute. discriminate.
  - apply Qeq_bool_false in E0.
    rewrite Qred_correct.
    set (y := Qabs x).
    assert (Hy : 0 < y).
    { unfold y. apply Qabs_case; intros H; lra. }
    pose proof (binary64_exponent_bound y Hy) as Hb.
    set (e := binary64_exponent y) in *.
    pose proof (pow2_pos e) as Hs.
    pose proof (nearest_even_error (y / 2 ^ e)) as Hm.
    set (m := inject_Z (nearest_even (y / 2 ^ e))) in *.
    apply Qabs_Qle_condition in Hm.
    assert (Ht : y / 2 ^ e * 2 ^ e == y) by (field; lra).
    assert (Hc : 2 ^ 52 == 4503599627370496) by reflexivity.
    rewrite Hc in Hb.
    assert (Hms : - ((1 # 2) * 2 ^ e) <= m * 2 ^ e - y <= (1 # 2) * 2 ^ e).
    { rewrite <- Ht at 1 2. split; nra. }
    apply Qabs_Qle_condition.
    destruct (Qle_bool 0 x) eqn:Es.
    + apply Qle_bool_iff in Es.
      assert (Hyx : y == x) by (unfold y; by apply Qabs_pos).
      rewrite Hyx in *. split; lra.
    + assert (Hneg : x < 0).
      { destruct (Qlt_le_dec x 0); [done|].
        assert (Qle_bool 0 x = true) by (by apply Qle_bool_iff). congruence. }
      assert (Hyx : y == - x) by (unfold y; apply Qabs_neg; lra).
      fold y. rewrite Hyx in *. split; lra.
Qed.

(** ** Mesh motion in doubles *)

(** The functions of the exact embedding are those of [Rounded] over exact
    arithmetic. *)
Lemma rounded_exact_instance :
  (forall dim move_forward u cells vertices,
     Rounded.move_solid_mesh exact_arithmetic dim move_forward u cells vertices
     = move_solid_mesh dim move_forward u cells vertices) /\
  (forall dim solid_box segs cells point,
     Rounded.point_in_solid exact_arithmetic dim solid_box segs cells point
     = point_in_solid dim solid_box segs cells point).
Proof.
  split.
  - reflexivity.
  - intros dim solid_box segs cells point.
    unfold Rounded.point_in_solid, point_in_solid.
    assert (H : forall cn hcn,
              Rounded.crossing_loop exact_arithmetic solid_box point segs cn hcn
              = crossing_loop solid_box point segs cn hcn).
    { induction segs as [|seg segs IH]; intros cn hcn; simpl; [done|].
      change (Rounded.segment_step exact_arithmetic solid_box point cn hcn seg)
        with (segment_step solid_box point cn hcn seg).
      destruct (segment_step solid_box point cn hcn seg); [done|apply IH]. }
    by rewrite H.
Qed.

Section RoundedMeshMotion.
Context (ar : Arithmetic) (dim : nat) (move_forward : bool) (u : Vector).

Local Abbreviation step :=
  (fun st (cv : SolidCell * nat) =>
     Rounded.move_vertex ar dim move_forward u cv.1 st cv.2).

Lemma rounded_move_cell_visits st c :
  Rounded.move_cell ar dim move_forward u st c = foldl step st (cell_visits dim c).
Proof.
  unfold Rounded.move_cell, cell_visits.
  generalize (seq 0 (vertices_per_cell dim)) st.
  induction l as [|v l IH]; intros st0; simpl; [done|apply IH].
Qed.

Lemma rounded_move_mesh_visits cells st :
  foldl (Rounded.move_cell ar dim move_forward u) st cells
  = foldl step st (mesh_visits dim cells).
Proof.
  revert st. induction cells as [|c cells IH]; intros st; simpl; [done|].
  unfold mesh_visits. simpl. rewrite foldl_app, <- rounded_move_cell_visits.
  apply IH.
Qed.

Lemma rounded_step_length st cv :
  length st.1 = length st.2 -> length (step st cv).1 = length (step st cv).2.
Proof.
  intros H. unfold Rounded.move_vertex.
  destruct (st.1 !! _) as [[|]|]; simpl; try done.
  by rewrite length_insert, length_alter.
Qed.

Lemma rounded_visits_lookup vs : forall st idx,
  length st.1 = length st.2 ->
  (foldl step st vs).2 !! idx =
    match st.1 !! idx with
    | Some false =>
        match List.find (fun cv => Nat.eqb (vertex_index cv.1 cv.2) idx) vs with
        | Some cv => rounded_shift ar dim move_forward u cv <$> st.2 !! idx
        | None => st.2 !! idx
        end
    | _ => st.2 !! idx
    end.
Proof.
  induction vs as [|cv vs IH]; intros st idx Hlen; simpl.
  - by destruct (st.1 !! idx) as [[|]|].
  - rewrite IH by (by apply rounded_step_length).
    unfold Rounded.move_vertex.
    destruct (Nat.eqb_spec (vertex_index cv.1 cv.2) idx) as [->|Hne].
    + destruct (st.1 !! idx) as [[|]|] eqn:Ht; simpl; rewrite ?Ht; try done.
      rewrite list_lookup_insert_eq by (by eapply lookup_lt_Some).
      by rewrite list_lookup_alter_eq.
    + destruct (st.1 !! vertex_index cv.1 cv.2) as [[|]|] eqn:Ht; simpl; try done.
      rewrite list_lookup_insert_ne by done.
      by rewrite list_lookup_alter_ne by done.
Qed.

Lemma rounded_move_length cells vertices :
  length (Rounded.move_solid_mesh ar dim move_forward u cells vertices)
  = length vertices.
Proof.
  unfold Rounded.move_solid_mesh. rewrite rounded_move_mesh_visits.
  assert (H : forall vs st, length st.1 = length st.2 ->
            length (foldl step st vs).2 = length st.2).
  { induction vs as [|cv vs IH]; intros st Hl; simpl; [done|].
    rewrite IH by (by apply rounded_step_length).
    unfold Rounded.move_vertex.
    destruct (st.1 !! _) as [[|]|]; simpl; try done. by rewrite length_alter. }
  rewrite H; simpl; [done|by rewrite length_replicate].
Qed.

Lemma rounded_move_lookup cells vertices idx :
  Rounded.move_solid_mesh ar dim move_forward u cells vertices !! idx =
    match first_visit dim cells idx with
    | Some cv => rounded_shift ar dim move_forward u cv <$> vertices !! idx
    | None => vertices !! idx
    end.
Proof.
  unfold Rounded.move_solid_mesh. rewrite rounded_move_mesh_visits.
  rewrite rounded_visits_lookup by (simpl; by rewrite length_replicate). simpl.
  unfold first_visit.
  destruct (decide (idx < length vertices)%nat) as [Hlt|Hge].
  - by rewrite lookup_replicate_2.
  - rewrite (proj1 (lookup_replicate_None _ _ _)) by lia.
    rewrite (lookup_ge_None_2 vertices) by lia.
    by destruct (List.find _ _).
Qed.

End RoundedMeshMotion.

Lemma coord_imap (f : nat -> Q -> Q) (p : Point) (d : nat) :
  (d < length p)%nat -> coord (imap f p) d = f d (coord p d).
Proof.
  intros H. unfold coord, Point in *. rewrite !nth_lookup, list_lookup_imap.
  destruct (p !! d) as [x|] eqn:E; [done|].
  apply lookup_ge_None in E. lia.
Qed.

Lemma coord_displacement (dim : nat) (u : Vector) (c : SolidCell) (v d : nat) :
  (d < dim)%nat ->
  coord (map (fun d => vget u (vertex_dof_index c v d)) (seq 0 dim)) d
  = vget u (vertex_dof_index c v d).
Proof.
  intros H. unfold coord.
  rewrite (nth_indep _ 0 ((fun d => vget u (vertex_dof_index c v d)) 0%nat))
    by (rewrite length_map, length_seq; lia).
  rewrite (map_nth (fun d => vget u (vertex_dof_index c v d))).
  by rewrite seq_nth.
Qed.

(** Adding and then subtracting the same number with relative accuracy
    [eps] gives the number back within [eps] of itself and of the sum. *)
Lemma add_sub_tolerance (ar : Arithmetic) (eps x w : Q) :
  0 <= eps ->
  (forall a b, Qabs (fadd ar a b - (a + b)) <= eps * Qabs (a + b)) ->
  (forall a b, Qabs (fsub ar a b - (a - b)) <= eps * Qabs (a - b)) ->
  Qabs (fsub ar (fadd ar x w) w - x)
    <= eps * Qabs x + eps * (1 + eps) * Qabs (x + w).
Proof.
  intros Heps Hadd Hsub.
  pose proof (Hadd x w) as H1. pose proof (Hsub (fadd ar x w) w) as H2.
  set (a := fadd ar x w) in *. set (b := fsub ar a w) in *.
  pose proof (Qabs_nonneg (x + w)) as HA. set (A := Qabs (x + w)) in *.
  assert (HX : - Qabs x <= x <= Qabs x).
  { apply Qabs_Qle_condition. apply Qle_refl. }
  pose proof (Qabs_nonneg x) as HX0. set (X := Qabs x) in *.
  apply Qabs_Qle_condition in H1.
  assert (HD : Qabs (a - w) <= X + eps * A).
  { apply Qabs_Qle_condition. split; lra. }
  pose proof (Qabs_nonneg (a - w)) as HD0. set (D := Qabs (a - w)) in *.
  apply Qabs_Qle_condition in H2.
  assert (HeD : eps * D <= eps * (X + eps * A)) by nra.
  apply Qabs_Qle_condition. split; nra.
Qed.

(** C6 (amended).  Whatever the rounding of the additions and subtractions:
    [move_solid_mesh(true)] followed by [move_solid_mesh(false)] keeps the
    number of vertices; a vertex that no active cell names is left alone by
    both calls; a vertex that a cell names is changed exactly once by each
    call, with the displacement read at the first cell that names it:
    coordinate [d], [x] before, is [x + u(vertex_dof_index(v, d))] after the
    forward call and that sum minus the same displacement after the backward
    call, each operation rounded once.  The coordinate comes back to [x] up to
    the rounding of the two operations: when additions and subtractions have
    relative error at most [eps], it ends within
    [eps |x| + eps (1 + eps) |x + w|] of [x], [w] being the displacement. *)
Theorem move_solid_mesh_round_trip (ar : Arithmetic) (dim : nat) (u : Vector)
    (cells : list SolidCell) (vertices : list Point) :
  let forward := Rounded.move_solid_mesh ar dim true u cells vertices in
  let back := Rounded.move_solid_mesh ar dim false u cells forward in
  length forward = length vertices /\
  length back = length vertices /\
  (forall idx p,
     vertices !! idx = Some p -> first_visit dim cells idx = None ->
     forward !! idx = Some p /\ back !! idx = Some p) /\
  (forall idx p c v,
     vertices !! idx = Some p -> first_visit dim cells idx = Some (c, v) ->
     exists p1 p2,
       forward !! idx = Some p1 /\ back !! idx = Some p2 /\
       length p1 = length p /\ length p2 = length p /\
       forall d, (d < dim)%nat -> (d < length p)%nat ->
         let w := vget u (vertex_dof_index c v d) in
         coord p1 d = fadd ar (coord p d) w /\
         coord p2 d = fsub ar (fadd ar (coord p d) w) w /\
         forall eps,
           0 <= eps ->
           (forall a b, Qabs (fadd ar a b - (a + b)) <= eps * Qabs (a + b)) ->
           (forall a b, Qabs (fsub ar a b - (a - b)) <= eps * Qabs (a - b)) ->
           Qabs (coord p2 d - coord p d)
             <= eps * Qabs (coord p d) + eps * (1 + eps) * Qabs (coord p d + w)).
Proof.
  intros forward back.
  split; [apply rounded_move_length|].
  split; [unfold back, forward; by rewrite !rounded_move_length|].
  split.
  - intros idx p Hp Hv.
    assert (Hf : forward !! idx = Some p).
    { unfold forward. by rewrite rounded_move_lookup, Hv. }
    split; [done|]. unfold back. by rewrite rounded_move_lookup, Hv.
  - intros idx p c v Hp Hv.
    assert (Hf : forward !! idx = Some (rounded_shift ar dim true u (c, v) p)).
    { unfold forward. rewrite rounded_move_lookup, Hv.
      unfold Point in *. by rewrite Hp. }
    assert (Hb : back !! idx
                 = Some (rounded_shift ar dim false u (c, v)
                           (rounded_shift ar dim true u (c, v) p))).
    { unfold back. rewrite rounded_move_lookup, Hv.
      unfold Point in *. by rewrite Hf. }
    eexists _, _. split; [exact Hf|]. split; [exact Hb|].
    unfold rounded_shift, Rounded.point_add, Rounded.point_sub. simpl.
    rewrite !length_imap. split; [done|]. split; [done|].
    intros d Hd Hlen. cbv zeta.
    rewrite !coord_imap by (rewrite ?length_imap; done).
    rewrite coord_displacement by done.
    split; [done|]. split; [done|].
    intros eps Heps Hadd Hsub. by apply add_sub_tolerance.
Qed.

(** C6, as stated, fails.  In binary64 the vertex (0.1, 0.46) moved by
    (0.3, -0.21) and back ends at (0.10000000000000003, 0.45999999999999996),
    not where it was. *)
Lemma move_solid_mesh_not_restored :
  decimal_vertices !! 0%nat
    = Some [3602879701896397 # 36028797018963968;
            8286623314361713 # 18014398509481984] /\
  Rounded.move_solid_mesh binary64 2 false decimal_displacement [square_cell]
    (Rounded.move_solid_mesh binary64 2 true decimal_displacement [square_cell]
       decimal_vertices) !! 0%nat
    = Some [1801439850948199 # 18014398509481984;
            517913957147607 # 1125899906842624] /\
  ~ (1801439850948199 # 18014398509481984)
    == (3602879701896397 # 36028797018963968).
Proof.
  split; [vm_compute; reflexivity|].
  split; [vm_compute; reflexivity|].
  vm_compute. discriminate.
Qed.

(** In binary64, whose relative error is at most 2^-53, the first vertex of
    the decimal square moves to 0.1 + 0.3 (rounded) and back to within the
    tolerance of 0.1. *)
Lemma move_solid_mesh_round_trip_witness :
  exists p1 p2,
    Rounded.move_solid_mesh binary64 2 true decimal_displacement [square_cell]
      decimal_vertices !! 0%nat = Some p1 /\
    Rounded.move_solid_mesh binary64 2 false decimal_displacement [square_cell]
      (Rounded.move_solid_mesh binary64 2 true decimal_displacement [square_cell]
         decimal_vertices) !! 0%nat = Some p2 /\
    coord p1 0 = fadd binary64 (double (1 # 10)) (double (3 # 10)) /\
    coord p2 0 = fsub binary64 (fadd binary64 (double (1 # 10)) (double (3 # 10)))
                   (double (3 # 10)) /\
    Qabs (coord p2 0 - double (1 # 10))
      <= (1 # 9007199254740992) * Qabs (double (1 # 10))
         + (1 # 9007199254740992) * (1 + (1 # 9007199254740992))
           * Qabs (double (1 # 10) + double (3 # 10)).
Proof.
  destruct (proj2 (proj2 (proj2 (move_solid_mesh_round_trip binary64 2
                                   decimal_displacement [square_cell]
                                   decimal_vertices)))
              0%nat [double (1 # 10); double (46 # 100)] square_cell 0%nat
              eq_refl eq_refl)
    as (p1 & p2 & H1 & H2 & _ & _ & H).
  exists p1, p2. split; [exact H1|]. split; [exact H2|].
  destruct (H 0%nat ltac:(lia) ltac:(simpl; lia)) as (Ha & Hb & Htol).
  split; [exact Ha|]. split; [exact Hb|].
  apply (Htol (1 # 9007199254740992)).
  - discriminate.
  - intros a b. apply round_binary64_error.
  - intros a b. apply round_binary64_error.
Defined.

(** ** Solid to fluid: the Dirichlet lines *)

Lemma foldM_app {A B : Type} (f : A -> B -> Result A) (l1 l2 : list B) (a : A) :
  foldM f a (l1 ++ l2) = bind (foldM f a l1) (fun a' => foldM f a' l2).
Proof.
  revert a. induction l1 as [|b l1 IH]; intros a; simpl; [done|].
  destruct (f a b); simpl; [apply IH|done].
Qed.

Lemma foldM_throw {A B : Type} (f : A -> B -> Result A) (l1 l2 : list B)
    (a a1 : A) (b : B) (e : Exc) :
  foldM f a l1 = Ok a1 -> f a1 b = Throw e ->
  foldM f a (l1 ++ b :: l2) = Throw e.
Proof.
  intros H1 H2. rewrite foldM_app, H1. simpl. by rewrite H2.
Qed.

(** A property of states that every step keeps is kept by a loop. *)
Lemma foldM_preserves {A B : Type} (f : A -> B -> Result A) (P : A -> A -> Prop) :
  (forall a, P a a) ->
  (forall a b c, P a b -> P b c -> P a c) ->
  (forall a b a', f a b = Ok a' -> P a a') ->
  forall l a a', foldM f a l = Ok a' -> P a a'.
Proof.
  intros Hrefl Htrans Hstep. induction l as [|b l IH]; intros a a' H; simpl in H.
  - injection H as <-. apply Hrefl.
  - destruct (f a b) as [a1|e] eqn:E; simpl in H; [|done].
    eapply Htrans; [by eapply Hstep|by apply IH].
Qed.

Lemma keeps_line_refl dof st : keeps_line dof st st.
Proof. by intros H. Qed.

Lemma keeps_line_trans dof a b c :
  keeps_line dof a b -> keeps_line dof b c -> keeps_line dof a c.
Proof.
  intros Hab Hbc H. destruct (Hab H) as (H1 & H2 & H3).
  destruct (Hbc H1) as (H4 & H5 & H6). repeat split; congruence.
Qed.

Lemma add_line_lookup_ne line dof (c : gmap nat Q) :
  line ≠ dof -> add_line line c !! dof = c !! dof.
Proof.
  intros H. unfold add_line. destruct (c !! line); [done|].
  by rewrite lookup_insert_ne.
Qed.

Lemma add_line_fresh line (c : gmap nat Q) :
  c !! line = None -> add_line line c !! line = Some 0.
Proof. intros H. unfold add_line. rewrite H. by rewrite lookup_insert_eq. Qed.

Ltac unfold_support_step H :=
  unfold support_point_step in H;
  repeat match type of H with
         | context [decide ?P] => destruct (decide P)
         | context [if ?b then _ else _] => destruct b eqn:?
         end;
  try discriminate; try (injection H as <-).

Lemma support_point_step_keeps env c dof st i st' :
  support_point_step env c st i = Ok st' -> keeps_line dof st st'.
Proof.
  intros H Hin. unfold_support_step H; simpl; try done.
  - split; [set_solver|done].
  - assert (nth i (dof_indices c) 0%nat ≠ dof) by set_solver.
    split; [set_solver|]. unfold set_inhomogeneity.
    by rewrite lookup_insert_ne, !add_line_lookup_ne.
Qed.

Lemma support_point_step_lines env c st i st' :
  support_point_step env c st i = Ok st' -> lines_touched st -> lines_touched st'.
Proof.
  intros H Hinv dof Hd. unfold_support_step H; simpl in *; try by apply Hinv.
  - apply Hinv. set_solver.
  - assert (nth i (dof_indices c) 0%nat ≠ dof) by set_solver.
    unfold set_inhomogeneity. rewrite lookup_insert_ne, !add_line_lookup_ne by done.
    apply Hinv. set_solver.
Qed.

Lemma support_loop_keeps env c dof l st st' :
  foldM (support_point_step env c) st l = Ok st' -> keeps_line dof st st'.
Proof.
  apply (foldM_preserves _ (keeps_line dof)).
  - apply keeps_line_refl.
  - apply keeps_line_trans.
  - intros a b a'. apply support_point_step_keeps.
Qed.

Lemma support_loop_lines env c l : forall st st',
  foldM (support_point_step env c) st l = Ok st' ->
  lines_touched st -> lines_touched st'.
Proof.
  induction l as [|i l IH]; intros st st' H Hinv; simpl in H.
  - by injection H as <-.
  - destruct (support_point_step env c st i) as [st1|] eqn:E; [|done].
    simpl in H. eapply IH; [done|]. by eapply support_point_step_lines.
Qed.

Lemma fluid_cell_step_keeps env dof st c st' :
  fluid_cell_step env st c = Ok st' -> keeps_line dof st st'.
Proof.
  unfold fluid_cell_step. destruct (is_artificial c).
  - intros [= <-]. apply keeps_line_refl.
  - destruct (foldM _ st _) as [st1|] eqn:E; [|done]. simpl.
    pose proof (support_loop_keeps _ _ dof _ _ _ E) as Hk.
    destruct (negb (is_locally_owned c)); intros [= <-]; [done|].
    intros Hin. destruct (Hk Hin) as (?&?&?). by simpl.
Qed.

Lemma fluid_cell_step_lines env st c st' :
  fluid_cell_step env st c = Ok st' -> lines_touched st -> lines_touched st'.
Proof.
  unfold fluid_cell_step. destruct (is_artificial c).
  - by intros [= <-].
  - destruct (foldM _ st _) as [st1|] eqn:E; [|done]. simpl.
    intros H Hinv. pose proof (support_loop_lines _ _ _ _ _ E Hinv) as H1.
    destruct (negb (is_locally_owned c)); injection H as <-; [done|].
    intros d Hd. by apply H1.
Qed.

Lemma fluid_cells_keeps env dof l st st' :
  foldM (fluid_cell_step env) st l = Ok st' -> keeps_line dof st st'.
Proof.
  apply (foldM_preserves _ (keeps_line dof)).
  - apply keeps_line_refl.
  - apply keeps_line_trans.
  - intros a b a'. apply fluid_cell_step_keeps.
Qed.

Lemma fluid_cells_lines env l : forall st st',
  foldM (fluid_cell_step env) st l = Ok st' ->
  lines_touched st -> lines_touched st'.
Proof.
  induction l as [|c l IH]; intros st st' H Hinv; simpl in H.
  - by injection H as <-.
  - destruct (fluid_cell_step env st c) as [st1|] eqn:E; [|done].
    simpl in H. eapply IH; [done|]. by eapply fluid_cell_step_lines.
Qed.

Lemma seq_split_at (n i : nat) :
  (i < n)%nat -> seq 0 n = seq 0 i ++ i :: seq (S i) (n - S i).
Proof.
  intros H. replace n with (i + S (n - S i))%nat at 1 by lia.
  by rewrite seq_app.
Qed.

Lemma initial_lines_touched hints props :
  lines_touched (initial_bc_state hints props).
Proof. intros dof _. simpl. by rewrite !lookup_empty. Qed.

(** What the step at an eligible support point inside the solid leaves. *)
Lemma support_point_step_inside env c st i st' :
  nth i (dof_indices c) 0%nat ∉ dof_touched st ->
  base_group (env_fe env) i ≠ 1%nat ->
  in_cell_support_point (env_dim env)
    (nth i (unit_support_points (env_fe env)) []) = false ->
  env_point_in_solid env (nth i (support_points c) []) = true ->
  lines_touched st ->
  support_point_step env c st i = Ok st' ->
  let point := nth i (support_points c) [] in
  let hint := locator_search (env_queries env) (env_moved_vertices env) point
                (hint_of st c i) in
  interpolator_found_cell (env_queries env) (env_moved_vertices env) point hint
    = true /\
  nth i (dof_indices c) 0%nat ∈ dof_touched st' /\
  inner_nonzero st' !! nth i (dof_indices c) 0%nat =
    Some (vget (interpolator_point_value (env_queries env)
                  (env_moved_vertices env) (current_velocity (env_solid env))
                  point hint)
               (component_index (env_fe env) i)
          - vget (env_present_solution env) (nth i (dof_indices c) 0%nat)) /\
  inner_zero st' !! nth i (dof_indices c) 0%nat = Some 0.
Proof.
  intros Hnt Hg Hin Hsolid Hinv H. simpl.
  unfold support_point_step in H.
  rewrite decide_False in H by done.
  rewrite (proj2 (Nat.eqb_neq _ _) Hg), Hin, Hsolid in H. simpl in H.
  destruct (interpolator_found_cell _ _ _ _) eqn:Hf; simpl in H; [|done].
  injection H as <-. simpl. split; [done|]. split; [set_solver|].
  unfold set_inhomogeneity. rewrite lookup_insert_eq. split; [done|].
  apply add_line_fresh. by apply Hinv.
Qed.

(** X26. A velocity support point that is reached untouched, has a unit
    coordinate within 1e-5 of zero (the test of the source for a point that
    is not in-cell) and lies in the solid gets a line in both inner
    constraint objects: in the nonzero one with the interpolated solid
    velocity component minus [present_solution] at the dof, in the zero one
    with inhomogeneity zero; the merge carries both into the constraints of
    the fluid solver unless the solver already constrains the dof. *)
Theorem find_fluid_bc_dirichlet_increment
    (dim : nat) (params : AllParameters) (queries : SolidQueries)
    (fe : FiniteElement) (present_solution : Vector) (solid : SolidSolver)
    (solid_box : Vector) (solid_boundaries : list Face)
    (cs1 : list FluidCell) (c : FluidCell) (cs2 : list FluidCell)
    (fluid_nonzero fluid_zero : gmap nat Q)
    (hints : gmap (nat * nat) nat) (props : gmap nat (list FluidCellProperty))
    (st1 st : BCState) (i : nat) (res : FluidBCResult) :
  let moved := move_solid_mesh dim true (current_displacement solid)
                 (solid_cells solid) (solid_vertices solid) in
  let env := mkFluidBCEnv dim params queries fe present_solution solid moved
               solid_box solid_boundaries in
  let dof := nth i (dof_indices c) 0%nat in
  let point := nth i (support_points c) [] in
  let hint := locator_search queries moved point (hint_of st c i) in
  let increment :=
    vget (interpolator_point_value queries moved (current_velocity solid)
            point hint) (component_index fe i)
    - vget present_solution dof in
  foldM (fluid_cell_step env) (initial_bc_state hints props) cs1 = Ok st1 ->
  is_artificial c = false ->
  (i < length (unit_support_points fe))%nat ->
  foldM (support_point_step env c) st1 (seq 0 i) = Ok st ->
  dof ∉ dof_touched st ->
  base_group fe i ≠ 1%nat ->
  in_cell_support_point dim (nth i (unit_support_points fe) []) = false ->
  env_point_in_solid env point = true ->
  find_fluid_bc dim params queries fe present_solution solid solid_box
    solid_boundaries (cs1 ++ c :: cs2) fluid_nonzero fluid_zero hints props
    = Ok res ->
  final_inner_nonzero res !! dof = Some increment /\
  final_inner_zero res !! dof = Some 0 /\
  (fluid_nonzero !! dof = None -> nonzero_constraints res !! dof = Some increment) /\
  (fluid_zero !! dof = None -> zero_constraints res !! dof = Some 0).
Proof.
  intros moved env dof point hint increment Hcs1 Hart Hi Hpre Hnt Hg Hin Hsolid Hrun.
  unfold find_fluid_bc in Hrun. fold moved in Hrun. fold env in Hrun.
  destruct (foldM (fluid_cell_step env) _ (cs1 ++ c :: cs2)) as [stf|] eqn:Hall;
    [|done].
  simpl in Hrun. injection Hrun as <-.
  rewrite foldM_app, Hcs1 in Hall. simpl in Hall.
  destruct (fluid_cell_step env st1 c) as [st2|] eqn:Hc; [|done]. simpl in Hall.
  pose proof (fluid_cells_lines _ _ _ _ Hcs1 (initial_lines_touched _ _)) as Hl1.
  pose proof (support_loop_lines _ _ _ _ _ Hpre Hl1) as Hl.
  unfold fluid_cell_step in Hc. rewrite Hart in Hc.
  change (env_fe env) with fe in Hc.
  rewrite (seq_split_at _ _ Hi), foldM_app, Hpre in Hc. simpl in Hc.
  destruct (support_point_step env c st i) as [sti|] eqn:Hstep; [|done].
  simpl in Hc.
  destruct (support_point_step_inside env c st i sti Hnt Hg Hin Hsolid Hl Hstep)
    as (_ & Ht & Hnz & Hz).
  destruct (foldM (support_point_step env c) sti _) as [st3|] eqn:Hrest; [|done].
  simpl in Hc.
  destruct (support_loop_keeps _ _ dof _ _ _ Hrest Ht) as (Ht3 & Hnz3 & Hz3).
  assert (dof ∈ dof_touched st2 /\
          inner_nonzero st2 !! dof = inner_nonzero st3 !! dof /\
          inner_zero st2 !! dof = inner_zero st3 !! dof) as (Ht2 & Hnz2 & Hz2).
  { destruct (negb (is_locally_owned c)); by injection Hc as <-. }
  destruct (fluid_cells_keeps _ dof _ _ _ Hall Ht2) as (_ & Hnzf & Hzf).
  assert (Hn : inner_nonzero stf !! dof = Some increment).
  { rewrite Hnzf, Hnz2, Hnz3. exact Hnz. }
  assert (Hz' : inner_zero stf !! dof = Some 0).
  { rewrite Hzf, Hz2, Hz3. exact Hz. }
  simpl. unfold merge_left_object_wins. repeat split; try done.
  - intros Hnone. by rewrite lookup_union_r.
  - intros Hnone. by rewrite lookup_union_r.
Qed.

(** ** Solid to fluid: skipped points and the fatal lookup failure *)

Lemma support_point_step_outside env c st i :
  env_point_in_solid env (nth i (support_points c) []) = false ->
  exists st', support_point_step env c st i = Ok st' /\
    inner_nonzero st' = inner_nonzero st /\
    inner_zero st' = inner_zero st /\
    cell_hints st' = cell_hints st /\
    cell_property st' = cell_property st.
Proof.
  intros H. unfold support_point_step. rewrite H. simpl.
  repeat case_match; eauto 10.
Qed.

Lemma support_point_step_not_found env c st i :
  nth i (dof_indices c) 0%nat ∉ dof_touched st ->
  base_group (env_fe env) i ≠ 1%nat ->
  in_cell_support_point (env_dim env)
    (nth i (unit_support_points (env_fe env)) []) = false ->
  env_point_in_solid env (nth i (support_points c) []) = true ->
  interpolator_found_cell (env_queries env) (env_moved_vertices env)
    (nth i (support_points c) [])
    (locator_search (env_queries env) (env_moved_vertices env)
       (nth i (support_points c) []) (hint_of st c i)) = false ->
  support_point_step env c st i =
    Throw (ExcMessageAt "Cannot find point in solid: "
             (nth i (support_points c) [])).
Proof.
  intros Hnt Hg Hin Hsolid Hnf. unfold support_point_step.
  rewrite decide_False by done.
  by rewrite (proj2 (Nat.eqb_neq _ _) Hg), Hin, Hsolid, Hnf.
Qed.

(** C7. A support point that is not classified inside the solid is passed
    over: the step succeeds and leaves the constraint objects, the hints and
    the cell records as they were.  A support point that is classified
    inside the solid and for which the interpolator, on the cell the locator
    returns, reports no cell makes the whole of [find_fluid_bc] throw
    "Cannot find point in solid: " with that point. *)
Theorem find_fluid_bc_skip_or_abort
    (dim : nat) (params : AllParameters) (queries : SolidQueries)
    (fe : FiniteElement) (present_solution : Vector) (solid : SolidSolver)
    (solid_box : Vector) (solid_boundaries : list Face)
    (cs1 : list FluidCell) (c : FluidCell) (cs2 : list FluidCell)
    (fluid_nonzero fluid_zero : gmap nat Q)
    (hints : gmap (nat * nat) nat) (props : gmap nat (list FluidCellProperty))
    (st1 st : BCState) (i : nat) :
  let moved := move_solid_mesh dim true (current_displacement solid)
                 (solid_cells solid) (solid_vertices solid) in
  let env := mkFluidBCEnv dim params queries fe present_solution solid moved
               solid_box solid_boundaries in
  let dof := nth i (dof_indices c) 0%nat in
  let point := nth i (support_points c) [] in
  let hint := locator_search queries moved point (hint_of st c i) in
  (env_point_in_solid env point = false ->
   exists st', support_point_step env c st i = Ok st' /\
     inner_nonzero st' = inner_nonzero st /\
     inner_zero st' = inner_zero st /\
     cell_hints st' = cell_hints st /\
     cell_property st' = cell_property st) /\
  (foldM (fluid_cell_step env) (initial_bc_state hints props) cs1 = Ok st1 ->
   is_artificial c = false ->
   (i < length (unit_support_points fe))%nat ->
   foldM (support_point_step env c) st1 (seq 0 i) = Ok st ->
   dof ∉ dof_touched st ->
   base_group fe i ≠ 1%nat ->
   in_cell_support_point dim (nth i (unit_support_points fe) []) = false ->
   env_point_in_solid env point = true ->
   interpolator_found_cell queries moved point hint = false ->
   find_fluid_bc dim params queries fe present_solution solid solid_box
     solid_boundaries (cs1 ++ c :: cs2) fluid_nonzero fluid_zero hints props
     = Throw (ExcMessageAt "Cannot find point in solid: " point)).
Proof.
  intros moved env dof point hint. split.
  - apply support_point_step_outside.
  - intros Hcs1 Hart Hi Hpre Hnt Hg Hin Hsolid Hnf.
    unfold find_fluid_bc. fold moved. fold env.
    rewrite foldM_app, Hcs1. simpl.
    unfold fluid_cell_step at 1. rewrite Hart.
    change (env_fe env) with fe.
    rewrite (seq_split_at _ _ Hi), foldM_app, Hpre. simpl.
    by rewrite (support_point_step_not_found env c st i Hnt Hg Hin Hsolid Hnf).
Qed.

(** ** Fluid to solid: the tractions *)

Section FaceLoops.
Context {A : Type} (g : nat -> A) (base : nat).

Lemma fold_insert_seq_S (a m : nat) (ptr : list A) :
  fold_left (fun ptr q => <[(base + q)%nat := g q]> ptr) (seq a (S m)) ptr =
  <[(base + (a + m))%nat := g (a + m)%nat]>
    (fold_left (fun ptr q => <[(base + q)%nat := g q]> ptr) (seq a m) ptr).
Proof. by rewrite seq_S, fold_left_app. Qed.

Lemma fold_insert_seq_length (a m : nat) (ptr : list A) :
  length (fold_left (fun ptr q => <[(base + q)%nat := g q]> ptr) (seq a m) ptr)
  = length ptr.
Proof.
  induction m as [|m IH]; [done|].
  by rewrite fold_insert_seq_S, length_insert.
Qed.

Lemma fold_insert_seq_in (a m q : nat) (ptr : list A) :
  (a <= q < a + m)%nat -> (base + q < length ptr)%nat ->
  fold_left (fun ptr q => <[(base + q)%nat := g q]> ptr) (seq a m) ptr
    !! (base + q)%nat = Some (g q).
Proof.
  intros Hq Hlen. induction m as [|m IH]; [lia|].
  rewrite fold_insert_seq_S.
  destruct (decide (q = a + m)%nat) as [->|Hne].
  - apply list_lookup_insert_eq. by rewrite fold_insert_seq_length.
  - rewrite list_lookup_insert_ne by lia. apply IH. lia.
Qed.

Lemma fold_insert_seq_out (a m idx : nat) (ptr : list A) :
  (idx < base + a \/ base + a + m <= idx)%nat ->
  fold_left (fun ptr q => <[(base + q)%nat := g q]> ptr) (seq a m) ptr !! idx
  = ptr !! idx.
Proof.
  intros Hidx. induction m as [|m IH]; [done|].
  rewrite fold_insert_seq_S, list_lookup_insert_ne by lia. apply IH. lia.
Qed.

End FaceLoops.

Section SolidBC.
Context (dim : nat) (params : AllParameters) (ranks : list FluidRank)
  (n : nat) (moved : list Point) (c : SolidCell).

Local Abbreviation face_step := (solid_face_step dim params ranks n moved c).

Lemma solid_face_step_length ptr f : length (face_step ptr f) = length ptr.
Proof.
  unfold solid_face_step. destruct (faces c !! f) as [face|]; [|done].
  destruct (at_boundary face); [|done].
  apply (fold_insert_seq_length
           (fun q => face_traction dim params ranks
                       (face_quadrature_point face moved q)
                       (face_normal_vector face moved q)) (f * n)).
Qed.

Lemma solid_faces_length ptr m :
  length (fold_left face_step (seq 0 m) ptr) = length ptr.
Proof.
  induction m as [|m IH]; [done|].
  by rewrite seq_S, fold_left_app; simpl; rewrite solid_face_step_length.
Qed.

Lemma solid_face_step_other ptr f f' q :
  f ≠ f' -> (q < n)%nat ->
  face_step ptr f' !! (f * n + q)%nat = ptr !! (f * n + q)%nat.
Proof.
  intros Hne Hq. unfold solid_face_step.
  destruct (faces c !! f') as [face|]; [|done].
  destruct (at_boundary face); [|done].
  apply (fold_insert_seq_out
           (fun q => face_traction dim params ranks
                       (face_quadrature_point face moved q)
                       (face_normal_vector face moved q)) (f' * n)).
  nia.
Qed.

Lemma solid_face_step_same ptr f q face :
  faces c !! f = Some face -> (q < n)%nat -> (f * n + q < length ptr)%nat ->
  face_step ptr f !! (f * n + q)%nat =
    if at_boundary face
    then Some (face_traction dim params ranks
                 (face_quadrature_point face moved q)
                 (face_normal_vector face moved q))
    else ptr !! (f * n + q)%nat.
Proof.
  intros Hf Hq Hlen. unfold solid_face_step. rewrite Hf.
  destruct (at_boundary face); [|done].
  apply (fold_insert_seq_in
           (fun q => face_traction dim params ranks
                       (face_quadrature_point face moved q)
                       (face_normal_vector face moved q)) (f * n)); lia.
Qed.

Lemma solid_faces_untouched ptr m f q :
  (m <= f)%nat -> (q < n)%nat ->
  fold_left face_step (seq 0 m) ptr !! (f * n + q)%nat = ptr !! (f * n + q)%nat.
Proof.
  intros Hm Hq. induction m as [|m IH]; [done|].
  rewrite seq_S, fold_left_app. simpl.
  rewrite solid_face_step_other by lia. apply IH. lia.
Qed.

Lemma solid_faces_lookup ptr m f q face :
  (f < m)%nat -> faces c !! f = Some face -> (q < n)%nat ->
  (f * n + q < length ptr)%nat ->
  fold_left face_step (seq 0 m) ptr !! (f * n + q)%nat =
    if at_boundary face
    then Some (face_traction dim params ranks
                 (face_quadrature_point face moved q)
                 (face_normal_vector face moved q))
    else ptr !! (f * n + q)%nat.
Proof.
  intros Hfm Hf Hq Hlen. induction m as [|m IH]; [lia|].
  rewrite seq_S, fold_left_app. simpl.
  destruct (decide (f = m)) as [->|Hne].
  - rewrite (solid_face_step_same _ _ _ face) by
      (rewrite ?solid_faces_length; done).
    destruct (at_boundary face); [done|].
    by apply solid_faces_untouched.
  - rewrite solid_face_step_other by done. apply IH. lia.
Qed.

End SolidBC.

(** What [find_solid_bc] stores: at every quadrature point of every
    boundary face, whatever the boundary id of the face, the traction of the
    summed fluid stress; on a face that is not at the boundary, nothing. *)
Lemma find_solid_bc_lookup (dim : nat) (params : AllParameters)
    (ranks : list FluidRank) (n : nat) (solid : SolidSolver)
    (tractions : list (list Point)) (k f q : nat) (c : SolidCell)
    (ptr : list Point) (face : Face) :
  solid_cells solid !! k = Some c -> tractions !! k = Some ptr ->
  (f < faces_per_cell dim)%nat -> faces c !! f = Some face ->
  (q < n)%nat -> (f * n + q < length ptr)%nat ->
  let moved := move_solid_mesh dim true (current_displacement solid)
                 (solid_cells solid) (solid_vertices solid) in
  exists ptr', find_solid_bc dim params ranks n solid tractions !! k = Some ptr' /\
    ptr' !! (f * n + q)%nat =
      if at_boundary face
      then Some (face_traction dim params ranks
                   (face_quadrature_point face moved q)
                   (face_normal_vector face moved q))
      else ptr !! (f * n + q)%nat.
Proof.
  intros Hc Hp Hf Hface Hq Hlen moved. unfold find_solid_bc.
  eexists. split.
  - rewrite lookup_zip_with, Hc. simpl. rewrite Hp. simpl. reflexivity.
  - by apply solid_faces_lookup.
Qed.

(** ** The time loop *)

Lemma keep_stepping_iff (time : Time) :
  keep_stepping time = true <->
  1 # 1000000000000 < time_end time - time_current time.
Proof. apply Qlt_bool_iff. Qed.

Lemma record_as_all (e : Event) (w : Recorder) : record e w = record_all [e] w.
Proof. done. Qed.

Lemma record_all_all (es es' : list Event) (w : Recorder) :
  record_all es' (record_all es w) = record_all (es ++ es') w.
Proof. unfold record_all. simpl. by rewrite app_assoc. Qed.

Lemma record_all_nil (w : Recorder) : record_all [] w = w.
Proof. destruct w. unfold record_all. simpl. by rewrite app_nil_r. Qed.

Lemma recording_iteration params to_refine to_save success_load first_step time w :
  run_iteration (recording_solvers to_refine to_save) params success_load
    first_step time w =
  inr (time_increment time,
       record_all (iteration_events params to_refine to_save success_load
                     first_step (time_increment time)) w).
Proof.
  unfold run_iteration, iteration_events. simpl.
  destruct success_load, first_step, (to_refine (time_increment time)),
    (to_save (time_increment time)); simpl;
    rewrite ?record_as_all, ?record_all_all; simpl; reflexivity.
Qed.

(** The loop ends within [m] passes once [m] time steps cover what is left
    of the interval. *)
Lemma time_loop_finishes {W : Type} (sv : Solvers W) params success_load :
  forall (m : nat) first_step time w fuel,
    0 < delta_t time ->
    time_end time - time_current time <= inject_Z (Z.of_nat m) * delta_t time ->
    (m < fuel)%nat ->
    time_loop fuel sv params success_load first_step time w <> OutOfFuel.
Proof.
  induction m as [|m IH]; intros first_step time w fuel Hdt Hleft Hfuel;
    (destruct fuel as [|fuel]; [lia|]); simpl.
  - assert (keep_stepping time = false) as ->; [|done].
    apply Qlt_bool_false. change (inject_Z (Z.of_nat 0)) with 0 in Hleft. lra.
  - destruct (keep_stepping time); [|done].
    unfold run_iteration.
    destruct (solid_run_one_step sv first_step _); [|done].
    destruct (fsi_find_fluid_bc sv _); [|done].
    apply IH; simpl; [done| |lia].
    rewrite Nat2Z.inj_succ, <- Z.add_1_r, inject_Z_plus in Hleft.
    change (inject_Z 1) with 1 in Hleft. lra.
Qed.

Lemma steps_cover (a d : Q) : 0 < d -> exists m : nat, a <= inject_Z (Z.of_nat m) * d.
Proof.
  intros Hd. exists (Z.to_nat (Qceiling (a / d))).
  assert (a / d * d == a) as E by (field; lra).
  pose proof (Qle_ceiling (a / d)) as Hc.
  destruct (Z.le_gt_cases 0 (Qceiling (a / d))) as [Hpos|Hneg].
  - rewrite Z2Nat.id by done.
    apply (Qmult_le_r _ _ d Hd) in Hc. by rewrite E in Hc.
  - rewrite Z2Nat.nonpos by lia. change (inject_Z (Z.of_nat 0)) with 0.
    assert (inject_Z (Qceiling (a / d)) < 0) as H0.
    { change 0 with (inject_Z 0). by rewrite <- Zlt_Qlt. }
    assert (a / d <= 0) as H1 by lra.
    apply (Qmult_le_r _ _ d Hd) in H1. by rewrite E in H1.
Qed.

Lemma time_loop_S {W : Type} fuel (sv : Solvers W) params success_load
    first_step time w :
  time_loop (S fuel) sv params success_load first_step time w =
    if keep_stepping time then
      match run_iteration sv params success_load first_step time w with
      | inl (e, w) => Aborted e w
      | inr (time, w) => time_loop fuel sv params success_load false time w
      end
    else Finished time w.
Proof. reflexivity. Qed.

Lemma recording_loop_result params to_refine to_save success_load :
  forall fuel first_step time w,
    time_loop fuel (recording_solvers to_refine to_save) params success_load
      first_step time w = OutOfFuel \/
    exists t' w',
      time_loop fuel (recording_solvers to_refine to_save) params success_load
        first_step time w = Finished t' w' /\
      keep_stepping t' = false.
Proof.
  induction fuel as [|fuel IH]; intros first_step time w; [by left|].
  rewrite time_loop_S. destruct (keep_stepping time) eqn:Hk.
  - rewrite recording_iteration. apply IH.
  - right. by exists time, w.
Qed.

(** C8. With solvers that record their calls, one pass of the time loop
    makes these calls in this order: [find_solid_bc]; the solid
    [assemble_system(true)] when the run was restored from a checkpoint; the
    solid [run_one_step]; [update_solid_box]; the fluid [make_constraints],
    followed, on every step but the first of a fresh run, by clearing the
    nonzero constraints and copying the zero constraints into them;
    [find_fluid_bc]; the fluid [run_one_step]; then the clock is incremented
    (and the mesh refined and the checkpoints saved when the incremented
    clock says so).  The loop makes a pass exactly when the end time minus
    the current time exceeds 1e-12 and returns otherwise, and with a positive
    time step it returns after finitely many passes. *)
Theorem time_loop_order_and_exit (params : AllParameters)
    (to_refine to_save : Time -> bool) (success_load first_step : bool)
    (time : Time) (w : Recorder) :
  let sv := recording_solvers to_refine to_save in
  (forall fuel, keep_stepping time = true ->
     time_loop (S fuel) sv params success_load first_step time w =
     time_loop fuel sv params success_load false (time_increment time)
       (record_all (iteration_events params to_refine to_save success_load
                      first_step (time_increment time)) w)) /\
  (forall fuel, keep_stepping time = false ->
     time_loop (S fuel) sv params success_load first_step time w
     = Finished time w) /\
  (keep_stepping time = false <->
     time_end time - time_current time <= 1 # 1000000000000) /\
  (0 < delta_t time ->
   exists n, forall fuel, (n < fuel)%nat ->
     exists t' w',
       time_loop fuel sv params success_load first_step time w = Finished t' w' /\
       time_end t' - time_current t' <= 1 # 1000000000000).
Proof.
  intros sv. repeat split.
  - intros fuel Hk. rewrite time_loop_S, Hk. unfold sv.
    by rewrite recording_iteration.
  - intros fuel Hk. by rewrite time_loop_S, Hk.
  - apply Qlt_bool_false.
  - apply Qlt_bool_false.
  - intros Hdt.
    destruct (steps_cover (time_end time - time_current time) (delta_t time) Hdt)
      as [n Hn].
    exists n. intros fuel Hfuel.
    destruct (recording_loop_result params to_refine to_save success_load fuel
                first_step time w) as [Hout|(t' & w' & Hfin & Hk)].
    + exfalso. by apply (time_loop_finishes sv params success_load n first_step
                           time w fuel Hdt Hn Hfuel).
    + exists t', w'. split; [done|]. by apply Qlt_bool_false.
Qed.

(** ** The start of [run] *)

Lemma run_unfold {W : Type} (sv : Solvers W) params w fuel :
  run fuel sv params w =
    if negb (Qeq_bool (solid_time_current sv (load_checkpoints sv params w).2)
                      (fluid_time_current sv (load_checkpoints sv params w).2))
    then Aborted restart_mismatch (load_checkpoints sv params w).2
    else
      time_loop fuel sv params (load_checkpoints sv params w).1
        (negb (load_checkpoints sv params w).1)
        (prepare sv params (load_checkpoints sv params w).1
           (initial_time params) (load_checkpoints sv params w).2).1
        (prepare sv params (load_checkpoints sv params w).1
           (initial_time params) (load_checkpoints sv params w).2).2.
Proof.
  unfold run. destruct (load_checkpoints sv params w) as [ok w1]. simpl.
  destruct (negb _); [done|]. by destruct (prepare sv params ok _ w1).
Qed.

(** C4 (amended). After the restore attempt the two solver times are
    compared for exact equality: when they differ, [run] throws the restart
    error in the state the restore attempt left, before any set-up or
    stepping call; when they are equal it goes on to the time loop; and when
    no restart was loaded it first sets up both solvers from scratch, with
    the clock of the coupling at time 0 and step 0. *)
Theorem run_startup_time_check {W : Type} (sv : Solvers W)
    (params : AllParameters) (w : W) (fuel : nat) :
  let success_load := (load_checkpoints sv params w).1 in
  let w1 := (load_checkpoints sv params w).2 in
  let start := prepare sv params success_load (initial_time params) w1 in
  (~ solid_time_current sv w1 == fluid_time_current sv w1 ->
   run fuel sv params w = Aborted restart_mismatch w1) /\
  (solid_time_current sv w1 == fluid_time_current sv w1 ->
   run fuel sv params w =
     time_loop fuel sv params success_load (negb success_load) start.1 start.2) /\
  (success_load = false ->
   time_current start.1 = 0 /\ timestep start.1 = 0%nat /\
   start.2 =
     let w2 := fsi_setup_cell_hints sv
                 (fsi_collect_solid_boundaries sv
                    (setup_from_scratch sv params w1)) in
     if Qlt_bool (refinement_interval params) (end_time params)
     then fsi_setup_cell_hints sv
            (fsi_refine_mesh sv (nth 0 (global_refinements params) 0%nat)
               (nth 0 (global_refinements params) 0 + 3)%nat w2)
     else w2).
Proof.
  intros success_load w1 start. split; [|split].
  - intros Hne. rewrite run_unfold. fold w1.
    by rewrite (proj2 (Qeq_bool_false _ _) Hne).
  - intros Heq. rewrite run_unfold. fold w1. fold success_load.
    by rewrite (proj2 (Qeq_bool_iff _ _) Heq).
  - intros Hno. unfold start, prepare. rewrite Hno. simpl.
    by destruct (Qlt_bool _ _).
Qed.

(** C4, as stated, fails: two restored times that differ by 1e-13, less
    than the 1e-12 the same function uses as its tolerance, end the run with
    the restart error; and so does any positive tolerance one may choose. *)
Lemma run_startup_no_tolerance :
  (Qabs (1 - (1 + (1 # 10000000000000))) <= 1 # 1000000000000 /\
   run 10 (recording_solvers (fun _ => false) (fun _ => false))
       example_parameters
       (fresh_recorder (Some (1, 2%nat)) (Some (1 + (1 # 10000000000000))))
   = Aborted restart_mismatch
       (mkRecorder
          [EvSolidRefineGlobal 0; EvSolidLoadCheckpoint; EvFluidLoadCheckpoint]
          (Some (1, 2%nat)) (Some (1 + (1 # 10000000000000)))
          (Some (1, 2%nat)) (Some (1 + (1 # 10000000000000))))) /\
  ~ (exists tol : Q, 0 < tol /\
       forall (solid_time fluid_time : Q) (fuel : nat),
         Qabs (solid_time - fluid_time) <= tol ->
         forall w,
           run fuel (recording_solvers (fun _ => false) (fun _ => false))
               example_parameters
               (fresh_recorder (Some (solid_time, 2%nat)) (Some fluid_time))
           <> Aborted restart_mismatch w).
Proof.
  split; [split|].
  - vm_compute. discriminate.
  - vm_compute. reflexivity.
  - intros (tol & Htol & H).
    eapply (H 0 tol 1%nat).
    + apply Qabs_Qle_condition. split; lra.
    + rewrite run_unfold. simpl.
      rewrite (proj2 (Qeq_bool_false 0 tol)); [reflexivity|].
      intros E. rewrite <- E in Htol. by apply (Qlt_irrefl 0).
Qed.

(** ** The Newton loop *)

Section Newton.
Context {St : Type} (kind : SolverKind) (params : AllParameters)
  (solver : NewtonSolver St).

Lemma newton_body_iteration (st : NewtonState St) :
  newton_iteration (newton_body solver st) = S (newton_iteration st).
Proof. unfold newton_body. by destruct (newton_solve solver _) as [[? ?] ?]. Qed.

Lemma newton_loop_total : forall fuel (st : NewtonState St),
  (solid_max_iterations params <= fuel + newton_iteration st)%nat ->
  newton_loop (S fuel) kind params solver st <> None.
Proof.
  induction fuel as [|fuel IH]; intros st Hfuel;
    cbn [newton_loop]; (destruct (newton_continue kind params st); [|done]);
    (destruct (Nat.ltb_spec (newton_iteration st) (solid_max_iterations params));
       [|done]).
  - lia.
  - apply IH. rewrite newton_body_iteration. lia.
Qed.

Lemma newton_loop_bound : forall fuel (st st' : NewtonState St),
  (newton_iteration st <= solid_max_iterations params)%nat ->
  newton_loop fuel kind params solver st = Some (Ok st') ->
  (newton_iteration st' <= solid_max_iterations params)%nat.
Proof.
  induction fuel as [|fuel IH]; intros st st' Hle H; simpl in H; [done|].
  destruct (newton_continue kind params st).
  - destruct (Nat.ltb_spec (newton_iteration st) (solid_max_iterations params));
      [|done].
    apply IH in H; [done|]. rewrite newton_body_iteration. lia.
  - by injection H as <-.
Qed.

Lemma newton_loop_too_many (fuel : nat) (st : NewtonState St) :
  newton_continue kind params st = true ->
  (solid_max_iterations params <= newton_iteration st)%nat ->
  newton_loop (S fuel) kind params solver st
  = Some (Throw (ExcMessage "Too many Newton iterations!")).
Proof.
  intros Hc Hmax. simpl. rewrite Hc.
  by destruct (Nat.ltb_spec (newton_iteration st) (solid_max_iterations params));
    [lia|].
Qed.

End Newton.

(** C9 (amended). In the Newton loop of either hyperelastic solver, a pass
    that starts with the convergence criterion unmet and the counter at
    [solid_max_iterations] throws "Too many Newton iterations!"; with fuel
    above [solid_max_iterations] the model of [run_one_step] always gives a
    result; and a step that completes took at most [solid_max_iterations]
    Newton iterations. *)
Theorem run_one_step_iteration_bound {St : Type} (kind : SolverKind)
    (params : AllParameters) (solver : NewtonSolver St) :
  (forall fuel (st : NewtonState St),
     newton_continue kind params st = true ->
     newton_iteration st = solid_max_iterations params ->
     newton_loop (S fuel) kind params solver st
     = Some (Throw (ExcMessage "Too many Newton iterations!"))) /\
  (forall first_step s,
     run_one_step (S (solid_max_iterations params)) kind params solver
       first_step s <> None) /\
  (forall fuel first_step s s' n,
     run_one_step fuel kind params solver first_step s = Some (Ok (s', n)) ->
     (n <= solid_max_iterations params)%nat).
Proof.
  split; [|split].
  - intros fuel st Hc Hn. apply newton_loop_too_many; [done|lia].
  - intros first_step s. unfold run_one_step.
    set (st0 := mkNewtonState _ 0 1 1 1 1 1 1).
    pose proof (newton_loop_total kind params solver
                  (solid_max_iterations params) st0 ltac:(simpl; lia)) as Ht.
    destruct (newton_loop _ kind params solver st0) as [[st|e]|]; done.
  - intros fuel first_step s s' n H. unfold run_one_step in H.
    set (st0 := mkNewtonState _ 0 1 1 1 1 1 1) in H.
    destruct (newton_loop fuel kind params solver st0) as [[st|e]|] eqn:E;
      try done.
    injection H as _ <-.
    apply (newton_loop_bound kind params solver fuel st0 st); [simpl; lia|done].
Qed.

(** C9, as stated, fails: with [solid_max_iterations = 1] a step whose
    first update converges completes after one iteration, which is not
    strictly fewer than the maximum. *)
Lemma run_one_step_uses_max_iterations :
  run_one_step 2 Serial example_parameters quick_solver true tt = Some (Ok (tt, 1%nat))
  /\ run_one_step 2 Shared example_parameters quick_solver true tt
     = Some (Ok (tt, 1%nat))
  /\ solid_max_iterations example_parameters = 1%nat
  /\ ~ (1 < solid_max_iterations example_parameters)%nat.
Proof. repeat split; try (vm_compute; reflexivity). vm_compute. lia. Qed.

(** ** The Neumann face loop in an FSI run *)

Lemma fold_left_pointwise {A B : Type} (f g : A -> B -> A) (l : list B) (a : A) :
  (forall a b, f a b = g a b) -> fold_left f l a = fold_left g l a.
Proof.
  intros H. revert a. induction l as [|b l IH]; intros a; simpl; [done|].
  by rewrite H, IH.
Qed.

Section Neumann.
Context (params : AllParameters) (sh : AssemblyShape).

Lemma neumann_q_loop_fsi c face value (l : list nat) :
  is_fsi params = true ->
  forall traction local_rhs,
    (fold_left (neumann_q_step params sh c face value) l (traction, local_rhs)).2
    = fold_left
        (fun rhs q =>
           add_external_force sh c face q
             (nth (face * n_f_q_points sh + q) (asm_fsi_traction c)
                  (zero_tensor1 (asm_dim sh))) rhs)
        l local_rhs.
Proof.
  intros Hfsi. induction l as [|q l IH]; intros traction local_rhs; simpl; [done|].
  unfold neumann_q_step at 2. rewrite Hfsi. simpl. apply IH.
Qed.

Lemma neumann_face_step_fsi c local_rhs face :
  is_fsi params = true ->
  neumann_face_step params sh c local_rhs face =
    match asm_faces c !! face with
    | Some f => if at_boundary f then fsi_face_load sh c face local_rhs
                else local_rhs
    | None => local_rhs
    end.
Proof.
  intros Hfsi. unfold neumann_face_step. destruct (asm_faces c !! face) as [f|];
    [|done].
  destruct (at_boundary f); simpl; [|done].
  rewrite Hfsi. simpl. by apply neumann_q_loop_fsi.
Qed.

Lemma neumann_face_step_linear_same c local_rhs face :
  neumann_face_step_linear params sh c local_rhs face
  = neumann_face_step params sh c local_rhs face.
Proof.
  unfold neumann_face_step_linear, neumann_face_step.
  destruct (asm_faces c !! face) as [f|]; [|done].
  by destruct (at_boundary f).
Qed.

Lemma neumann_cell_fsi c :
  is_fsi params = true -> neumann_cell params sh c = fsi_cell_load sh c.
Proof.
  intros Hfsi. unfold neumann_cell, fsi_cell_load.
  apply fold_left_pointwise. intros rhs face. by apply neumann_face_step_fsi.
Qed.

Lemma neumann_cell_linear_same c :
  neumann_cell_linear params sh c = neumann_cell params sh c.
Proof.
  unfold neumann_cell_linear, neumann_cell.
  apply fold_left_pointwise. intros rhs face. apply neumann_face_step_linear_same.
Qed.

Lemma neumann_face_step_traction_free c local_rhs face f :
  is_fsi params = false ->
  asm_faces c !! face = Some f ->
  solid_neumann_bcs params !! boundary_id f = None ->
  neumann_face_step params sh c local_rhs face = local_rhs.
Proof.
  intros Hfsi Hf Hid. unfold neumann_face_step. rewrite Hf, Hfsi, Hid. simpl.
  by destruct (at_boundary f).
Qed.

End Neumann.

Lemma add_external_force_fold (sh : AssemblyShape) (c : AssemblyCell)
    (face q : nat) (traction : Point) (n : nat) : forall a (rhs : Vector),
  length (fold_left
            (fun rhs j =>
               <[j := vget rhs j
                      + asm_shape_value c face j q
                        * coord traction (asm_component sh j)
                        * asm_JxW c face q]> rhs)
            (seq a n) rhs) = length rhs /\
  forall j, (j < length rhs)%nat ->
    vget (fold_left
            (fun rhs j =>
               <[j := vget rhs j
                      + asm_shape_value c face j q
                        * coord traction (asm_component sh j)
                        * asm_JxW c face q]> rhs)
            (seq a n) rhs) j
    = if bool_decide (a <= j < a + n)%nat
      then vget rhs j + asm_shape_value c face j q
                        * coord traction (asm_component sh j) * asm_JxW c face q
      else vget rhs j.
Proof.
  induction n as [|n IH]; intros a rhs; cbn [seq fold_left].
  - split; [done|]. intros j _. by rewrite bool_decide_eq_false_2 by lia.
  - destruct (IH (S a) (<[a := vget rhs a
                                + asm_shape_value c face a q
                                  * coord traction (asm_component sh a)
                                  * asm_JxW c face q]> rhs)) as [Hl He].
    unfold Vector in *. rewrite length_insert in Hl, He.
    split; [done|]. intros j Hj. rewrite (He j Hj).
    destruct (decide (j = a)) as [->|Hne].
    + rewrite bool_decide_eq_false_2 by lia.
      rewrite bool_decide_eq_true_2 by lia.
      by apply vget_insert_eq.
    + rewrite vget_insert_ne by done.
      destruct (decide (S a <= j < S a + n)%nat).
      * by rewrite !bool_decide_eq_true_2 by lia.
      * by rewrite !bool_decide_eq_false_2 by lia.
Qed.

Lemma add_external_force_entry (sh : AssemblyShape) (c : AssemblyCell)
    (face q : nat) (traction : Point) (rhs : Vector) :
  length (add_external_force sh c face q traction rhs) = length rhs /\
  forall j, (j < length rhs)%nat -> (j < dofs_per_cell sh)%nat ->
    vget (add_external_force sh c face q traction rhs) j
    = vget rhs j + asm_shape_value c face j q
                   * coord traction (asm_component sh j) * asm_JxW c face q.
Proof.
  unfold add_external_force.
  destruct (add_external_force_fold sh c face q traction (dofs_per_cell sh)
              0%nat rhs) as [Hl He].
  split; [done|]. intros j Hj Hd. rewrite (He j Hj).
  by rewrite bool_decide_eq_true_2 by lia.
Qed.

Lemma fsi_face_load_entry (sh : AssemblyShape) (c : AssemblyCell) (face : nat)
    (l : list nat) : forall rhs : Vector,
  length (fold_left
            (fun rhs q =>
               add_external_force sh c face q
                 (nth (face * n_f_q_points sh + q) (asm_fsi_traction c)
                      (zero_tensor1 (asm_dim sh))) rhs) l rhs) = length rhs /\
  forall j, (j < length rhs)%nat -> (j < dofs_per_cell sh)%nat ->
    vget (fold_left
            (fun rhs q =>
               add_external_force sh c face q
                 (nth (face * n_f_q_points sh + q) (asm_fsi_traction c)
                      (zero_tensor1 (asm_dim sh))) rhs) l rhs) j
    = fold_left
        (fun acc q =>
           acc + asm_shape_value c face j q
                 * coord (nth (face * n_f_q_points sh + q) (asm_fsi_traction c)
                              (zero_tensor1 (asm_dim sh)))
                         (asm_component sh j)
                 * asm_JxW c face q) l (vget rhs j).
Proof.
  induction l as [|q l IH]; intros rhs; cbn [fold_left]; [done|].
  destruct (add_external_force_entry sh c face q
              (nth (face * n_f_q_points sh + q) (asm_fsi_traction c)
                   (zero_tensor1 (asm_dim sh))) rhs) as [Hl He].
  destruct (IH (add_external_force sh c face q
                  (nth (face * n_f_q_points sh + q) (asm_fsi_traction c)
                       (zero_tensor1 (asm_dim sh))) rhs)) as [Hl' He'].
  rewrite Hl in Hl', He'. split; [done|].
  intros j Hj Hd. by rewrite (He' j Hj Hd), (He j Hj Hd).
Qed.

Lemma fsi_cell_load_entry (sh : AssemblyShape) (c : AssemblyCell)
    (l : list nat) : forall rhs : Vector,
  length (fold_left
            (fun rhs face =>
               match asm_faces c !! face with
               | Some f => if at_boundary f then fsi_face_load sh c face rhs
                           else rhs
               | None => rhs
               end) l rhs) = length rhs /\
  forall j, (j < length rhs)%nat -> (j < dofs_per_cell sh)%nat ->
    vget (fold_left
            (fun rhs face =>
               match asm_faces c !! face with
               | Some f => if at_boundary f then fsi_face_load sh c face rhs
                           else rhs
               | None => rhs
               end) l rhs) j
    = fold_left
        (fun acc face =>
           match asm_faces c !! face with
           | Some f =>
               if at_boundary f then
                 fold_left
                   (fun acc q =>
                      acc + asm_shape_value c face j q
                            * coord (nth (face * n_f_q_points sh + q)
                                         (asm_fsi_traction c)
                                         (zero_tensor1 (asm_dim sh)))
                                    (asm_component sh j)
                            * asm_JxW c face q)
                   (seq 0 (n_f_q_points sh)) acc
               else acc
           | None => acc
           end) l (vget rhs j).
Proof.
  induction l as [|face l IH]; intros rhs; cbn [fold_left]; [done|].
  destruct (asm_faces c !! face) as [f|]; [|apply IH].
  destruct (at_boundary f); [|apply IH].
  destruct (fsi_face_load_entry sh c face (seq 0 (n_f_q_points sh)) rhs)
    as [Hl He].
  fold (fsi_face_load sh c face rhs) in Hl, He.
  destruct (IH (fsi_face_load sh c face rhs)) as [Hl' He'].
  rewrite Hl in Hl', He'. split; [done|].
  intros j Hj Hd. by rewrite (He' j Hj Hd), (He j Hj Hd).
Qed.

(** C10. When [simulation_type] is "FSI", each of the three
    [assemble_system] functions gives, for every cell it assembles (the
    serial solver every cell, a shared solver every cell of its own
    subdomain), the same [local_rhs], whose entry [j] is the value the volume
    loop left plus, for every face of the cell at the boundary and every
    quadrature point of it, shape value times the component of the stored
    [fsi_traction] times [JxW], added in the order of the loops: neither the
    boundary id of the face nor [solid_neumann_bcs] nor the Neumann type
    enters.  The skip of a face whose boundary id is not in
    [solid_neumann_bcs] happens only when [simulation_type] is not "FSI". *)
Theorem assemble_system_fsi_traction (params : AllParameters)
    (sh : AssemblyShape) :
  (simulation_type params = "FSI"%string ->
   forall cells k c,
     cells !! k = Some c ->
     length (asm_volume_rhs c) = dofs_per_cell sh ->
     exists local_rhs,
       assemble_rhs_hyper params sh cells !! k = Some (Some local_rhs) /\
       assemble_rhs_shared_hyper params sh (asm_subdomain_id c) cells !! k
         = Some (Some local_rhs) /\
       assemble_rhs_shared_linear params sh (asm_subdomain_id c) cells !! k
         = Some (Some local_rhs) /\
       length local_rhs = dofs_per_cell sh /\
       forall j, (j < dofs_per_cell sh)%nat ->
         vget local_rhs j
         = fsi_surface_load_entry sh c j (vget (asm_volume_rhs c) j)) /\
  (simulation_type params <> "FSI"%string ->
   forall c local_rhs face f,
     asm_faces c !! face = Some f ->
     solid_neumann_bcs params !! boundary_id f = None ->
     neumann_face_step params sh c local_rhs face = local_rhs
     /\ neumann_face_step_linear params sh c local_rhs face = local_rhs).
Proof.
  split.
  - intros Hsim cells k c Hk Hlen.
    assert (Hfsi : is_fsi params = true) by (by apply String.eqb_eq).
    exists (fsi_cell_load sh c).
    unfold assemble_rhs_hyper, assemble_rhs_shared_hyper,
      assemble_rhs_shared_linear.
    rewrite !list_lookup_fmap, Hk. simpl. rewrite Nat.eqb_refl. simpl.
    rewrite neumann_cell_linear_same, neumann_cell_fsi by done.
    split; [done|]. split; [done|]. split; [done|].
    unfold fsi_cell_load, fsi_surface_load_entry.
    destruct (fsi_cell_load_entry sh c (seq 0 (faces_per_cell (asm_dim sh)))
                (asm_volume_rhs c)) as [Hl He].
    split; [by rewrite Hl|].
    intros j Hj. apply He; [by rewrite Hlen|done].
  - intros Hsim c local_rhs face f Hf Hid.
    assert (Hfsi : is_fsi params = false) by (by apply String.eqb_neq).
    rewrite neumann_face_step_linear_same.
    by rewrite (neumann_face_step_traction_free params sh c local_rhs face f).
Qed.

(** ** Examples on the small coupled problem *)

Lemma example_fluid_bc_ok : example_fluid_bc true = Ok example_fluid_bc_result.
Proof. vm_compute. reflexivity. Qed.

(** The force terms at a quadrature point are never set: the guards on
    [indicator == 0] that wrap the two assignments sit behind the
    [continue] taken for [indicator == 0]. *)
Lemma quadrature_point_record_zero (env : FluidBCEnv) (c : FluidCell) (q : nat) :
  fsi_acceleration (quadrature_point_record env c q) = zero_tensor1 (env_dim env)
  /\ fsi_stress (quadrature_point_record env c q) = zero_tensor2 (env_dim env).
Proof.
  unfold quadrature_point_record.
  destruct (env_point_in_solid env _); simpl; [|done].
  set (r0 := mkFluidCellProperty 1 _ _).
  assert (H : forall l, fold_left
            (fun r i =>
               if Nat.eqb (indicator r) 0
               then mkFluidCellProperty (indicator r)
                      (<[i := (solid_rho (env_parameters env)
                               - fluid_rho (env_parameters env))
                              * (coord (gravity (env_parameters env)) i
                                 - vget (vector_tools_point_value (env_queries env)
                                           (env_moved_vertices env)
                                           (current_acceleration (env_solid env))
                                           (nth q (quadrature_points c) [])) i)]>
                         (fsi_acceleration r))
                      (fsi_stress r)
               else r) l r0 = r0).
  { induction l as [|i l IH]; simpl; [done|apply IH]. }
  by rewrite H.
Qed.

(** C1, at the failing input.  The quadrature point (3/4, 3/4) of the fluid
    cell lies in the unit square solid, the solid acceleration there is
    (1, 2), the densities are 3 and 1 and gravity is (0, -10): the spec's
    acceleration jump is (-2, -24) and its stress jump has diagonal -8, but
    [find_fluid_bc] stores zero for both. *)
Theorem find_fluid_bc_stores_zero_force :
  env_point_in_solid (example_env true) [3 # 4; 3 # 4] = true /\
  new_cell_property example_fluid_bc_result !! 0%nat
    = Some [mkFluidCellProperty 1 [0; 0] [[0; 0]; [0; 0]]] /\
  spec_fsi_acceleration 2 example_parameters [1; 2] = [-2; -24] /\
  tensor2_get
    (spec_fsi_stress 2 example_parameters 2 [[1; 0]; [0; 1]] [[7; 7]; [7; 7]]) 0 0
    == -8.
Proof. repeat split; vm_compute; reflexivity. Qed.

(** C2, at the failing input.  The vertex (3/4, 1/2) is a corner support
    point of the velocity dof 15, at the corner (1, 1) of the right cell and
    in no other cell; it lies in the solid, and [find_fluid_bc] returns
    without a line for dof 15: the test [inside] of the source looks for a
    unit coordinate near 0 only and takes the corner (1, 1) for an in-cell
    point.  The vertex (1/4, 1/2), the corner (1, 1) of the left cell, is
    passed over there as well and gets its line, with the increment
    3 - 1/4, in the right cell, where it is the corner (0, 1). *)
Theorem find_fluid_bc_misses_domain_corner :
  (nth 9 (unit_support_points q1_element) [] = [1; 1] /\
   base_group q1_element 9 = 0%nat /\
   nth 9 (dof_indices right_fluid_cell) 0%nat = 15%nat /\
   nth 9 (support_points right_fluid_cell) [] = [3 # 4; 1 # 2] /\
   env_point_in_solid (example_env true) [3 # 4; 1 # 2] = true) /\
  (nth 9 (dof_indices left_fluid_cell) 0%nat = 9%nat /\
   nth 6 (dof_indices right_fluid_cell) 0%nat = 9%nat /\
   nth 6 (unit_support_points q1_element) [] = [0; 1] /\
   env_point_in_solid (example_env true) [1 # 4; 1 # 2] = true) /\
  exists res,
    two_cell_fluid_bc = Ok res /\
    nonzero_constraints res !! 9%nat = Some (3 - (1 # 4)) /\
    nonzero_constraints res !! 10%nat = Some (5 - (1 # 4)) /\
    zero_constraints res !! 9%nat = Some 0 /\
    nonzero_constraints res !! 15%nat = None /\
    nonzero_constraints res !! 16%nat = None /\
    zero_constraints res !! 15%nat = None /\
    final_inner_nonzero res !! 15%nat = None.
Proof.
  split; [repeat split; vm_compute; reflexivity|].
  split; [repeat split; vm_compute; reflexivity|].
  eexists. split; [vm_compute; reflexivity|].
  repeat split; vm_compute; reflexivity.
Qed.

(** The first support point of the example cell, the centre of the solid,
    gets the increment 3 - 1/4. *)
Lemma find_fluid_bc_dirichlet_increment_witness :
  final_inner_nonzero example_fluid_bc_result !! 0%nat = Some (3 - (1 # 4)) /\
  final_inner_zero example_fluid_bc_result !! 0%nat = Some 0 /\
  nonzero_constraints example_fluid_bc_result !! 0%nat = Some (3 - (1 # 4)) /\
  zero_constraints example_fluid_bc_result !! 0%nat = Some 0.
Proof.
  pose proof (find_fluid_bc_dirichlet_increment 2 example_parameters
                (square_queries true) q1_element example_present_solution
                square_solid square_box
                (collect_solid_boundaries 2 (solid_cells square_solid))
                [] example_fluid_cell [] ∅ ∅ ∅ ∅
                (initial_bc_state ∅ ∅) (initial_bc_state ∅ ∅) 0
                example_fluid_bc_result) as H.
  cbv zeta in H.
  specialize (H eq_refl eq_refl ltac:(vm_compute; lia) eq_refl
                ltac:(set_solver) ltac:(discriminate) eq_refl
                ltac:(vm_compute; reflexivity) ltac:(vm_compute; reflexivity)).
  destruct H as (H1 & H2 & H3 & H4).
  split; [exact H1|]. split; [exact H2|].
  split; [by apply H3 | by apply H4].
Defined.

(** C5, at the failing input.  The left side of the unit square solid has
    boundary id 1, for which [clamped_parameters] prescribes a Dirichlet
    condition.  [find_solid_bc] still overwrites its traction record: the
    fluid pressure 5 and the identity velocity gradient, summed over the two
    ranks, give the stress -4 I and, with the normal (-1, 0), the traction
    (4, 0) in place of the (0, 0) stored before. *)
Theorem find_solid_bc_writes_dirichlet_face :
  (exists face,
     faces square_cell !! 0%nat = Some face /\
     at_boundary face = true /\
     has_dirichlet_bc clamped_parameters face = true) /\
  exists ptr,
    find_solid_bc 2 clamped_parameters example_ranks 1 square_solid
      [replicate 4 [0; 0]] = [ptr] /\
    Forall2 point_eq ptr [[4; 0]; [-4; 0]; [0; 4]; [0; -4]].
Proof.
  split.
  - eexists. split; [reflexivity|]. split; [reflexivity|]. vm_compute. reflexivity.
  - eexists. split; [vm_compute; reflexivity|].
    repeat (constructor; [repeat (constructor; [vm_compute; reflexivity|])|]);
      constructor.
Qed.

(** An outside point is passed over; with an interpolator that finds no
    cell the centre of the solid ends the example run. *)
Lemma find_fluid_bc_skip_or_abort_witness :
  (exists st',
     support_point_step (example_env true) example_fluid_cell
       (initial_bc_state ∅ ∅) 3 = Ok st' /\
     inner_nonzero st' = ∅ /\ inner_zero st' = ∅ /\
     cell_hints st' = ∅ /\ cell_property st' = ∅) /\
  example_fluid_bc false
  = Throw (ExcMessageAt "Cannot find point in solid: " [1 # 2; 1 # 2]).
Proof.
  pose proof (find_fluid_bc_skip_or_abort 2 example_parameters
                (square_queries true) q1_element example_present_solution
                square_solid square_box
                (collect_solid_boundaries 2 (solid_cells square_solid))
                [] example_fluid_cell [] ∅ ∅ ∅ ∅
                (initial_bc_state ∅ ∅) (initial_bc_state ∅ ∅) 3) as Hskip.
  pose proof (find_fluid_bc_skip_or_abort 2 example_parameters
                (square_queries false) q1_element example_present_solution
                square_solid square_box
                (collect_solid_boundaries 2 (solid_cells square_solid))
                [] example_fluid_cell [] ∅ ∅ ∅ ∅
                (initial_bc_state ∅ ∅) (initial_bc_state ∅ ∅) 0) as Habort.
  cbv zeta in Hskip, Habort.
  split.
  - exact (proj1 Hskip ltac:(vm_compute; reflexivity)).
  - exact (proj2 Habort eq_refl eq_refl ltac:(vm_compute; lia) eq_refl
             ltac:(set_solver) ltac:(discriminate) eq_refl
             ltac:(vm_compute; reflexivity) eq_refl).
Defined.

(** A fresh run of the example: the first pass makes its calls in the
    order of the claim, the loop returns at the end time, and some fuel is
    enough. *)
Lemma time_loop_order_and_exit_witness :
  let sv := recording_solvers (fun _ => false) (fun _ => false) in
  time_loop 5 sv example_parameters false true example_time
    (fresh_recorder None None)
  = time_loop 4 sv example_parameters false false (time_increment example_time)
      (record_all
         [EvFindSolidBC; EvSolidRunOneStep true; EvUpdateSolidBox;
          EvFluidMakeConstraints; EvFindFluidBC; EvFluidRunOneStep true]
         (fresh_recorder None None)) /\
  time_loop 1 sv example_parameters false false example_end_time
    (fresh_recorder None None)
  = Finished example_end_time (fresh_recorder None None) /\
  exists n, forall fuel, (n < fuel)%nat ->
    exists t' w',
      time_loop fuel sv example_parameters false true example_time
        (fresh_recorder None None) = Finished t' w' /\
      time_end t' - time_current t' <= 1 # 1000000000000.
Proof.
  intros sv.
  pose proof (time_loop_order_and_exit example_parameters (fun _ => false)
                (fun _ => false) false true example_time
                (fresh_recorder None None)) as Hstart.
  pose proof (time_loop_order_and_exit example_parameters (fun _ => false)
                (fun _ => false) false false example_end_time
                (fresh_recorder None None)) as Hend.
  cbv zeta in Hstart, Hend.
  split; [|split].
  - exact (proj1 Hstart 4%nat ltac:(vm_compute; reflexivity)).
  - exact (proj1 (proj2 Hend) 0%nat ltac:(vm_compute; reflexivity)).
  - exact (proj2 (proj2 (proj2 Hstart)) ltac:(vm_compute; reflexivity)).
Defined.

(** Two checkpoints with times 1 and 2 stop the run before any set-up
    call; without checkpoints the run goes on to the time loop with the
    clock at 0. *)
Lemma run_startup_time_check_witness :
  let sv := recording_solvers (fun _ => false) (fun _ => false) in
  run 10 sv example_parameters (fresh_recorder (Some (1, 2%nat)) (Some 2))
  = Aborted restart_mismatch
      (load_checkpoints sv example_parameters
         (fresh_recorder (Some (1, 2%nat)) (Some 2))).2 /\
  run 10 sv example_parameters (fresh_recorder None None)
  = time_loop 10 sv example_parameters false true
      (prepare sv example_parameters false (initial_time example_parameters)
         (load_checkpoints sv example_parameters (fresh_recorder None None)).2).1
      (prepare sv example_parameters false (initial_time example_parameters)
         (load_checkpoints sv example_parameters (fresh_recorder None None)).2).2 /\
  time_current
    (prepare sv example_parameters false (initial_time example_parameters)
       (load_checkpoints sv example_parameters (fresh_recorder None None)).2).1
  = 0.
Proof.
  intros sv.
  pose proof (run_startup_time_check sv example_parameters
                (fresh_recorder (Some (1, 2%nat)) (Some 2)) 10) as Hbad.
  pose proof (run_startup_time_check sv example_parameters
                (fresh_recorder None None) 10) as Hgood.
  cbv zeta in Hbad, Hgood.
  split; [|split].
  - exact (proj1 Hbad ltac:(vm_compute; discriminate)).
  - exact (proj1 (proj2 Hgood) ltac:(vm_compute; reflexivity)).
  - exact (proj1 (proj2 (proj2 Hgood) eq_refl)).
Defined.

(** With [solid_max_iterations = 1], a pass that starts at the counter 1
    with errors of 1 throws, and the step of the quick solver took one
    iteration. *)
Lemma run_one_step_iteration_bound_witness :
  newton_loop 1 Serial example_parameters stuck_solver example_newton_state
  = Some (Throw (ExcMessage "Too many Newton iterations!")) /\
  (1 <= solid_max_iterations example_parameters)%nat.
Proof.
  pose proof (run_one_step_iteration_bound Serial example_parameters
                stuck_solver) as Hstuck.
  pose proof (run_one_step_iteration_bound Serial example_parameters
                quick_solver) as Hquick.
  split.
  - exact (proj1 Hstuck 0%nat example_newton_state
             ltac:(vm_compute; reflexivity) eq_refl).
  - exact (proj2 (proj2 Hquick) 2%nat true tt tt 1%nat
             ltac:(vm_compute; reflexivity)).
Defined.

(** In the FSI run every x-dof of the loaded cell gets 4/2 + 1/2 and every
    y-dof 4/2 + 2/2, with no entry in [solid_neumann_bcs]; in a stand-alone
    solid run the left side, with boundary id 1, is passed over. *)
Lemma assemble_system_fsi_traction_witness :
  (exists local_rhs,
     assemble_rhs_hyper example_parameters example_shape [loaded_assembly_cell]
       !! 0%nat = Some (Some local_rhs) /\
     assemble_rhs_shared_linear example_parameters example_shape 0
       [loaded_assembly_cell] !! 0%nat = Some (Some local_rhs) /\
     vget local_rhs 0 == 5 # 2 /\ vget local_rhs 1 == 3) /\
  neumann_face_step solid_only_parameters example_shape loaded_assembly_cell
    (replicate 8 0) 0
  = replicate 8 0.
Proof.
  pose proof (assemble_system_fsi_traction example_parameters example_shape)
    as Hfsi.
  pose proof (assemble_system_fsi_traction solid_only_parameters example_shape)
    as Hsolid.
  split.
  - destruct (proj1 Hfsi eq_refl [loaded_assembly_cell] 0%nat
                loaded_assembly_cell eq_refl eq_refl)
      as (rhs & H1 & _ & H3 & _ & He).
    exists rhs. split; [exact H1|]. split; [exact H3|].
    rewrite (He 0%nat ltac:(vm_compute; lia)), (He 1%nat ltac:(vm_compute; lia)).
    split; vm_compute; reflexivity.
  - exact (proj1 (proj2 Hsolid ltac:(discriminate) loaded_assembly_cell
                    (replicate 8 0) 0%nat _ eq_refl eq_refl)).
Defined.

(** ** Point in solid: interior points of a convex polygon *)

Lemma Qmult_eq_0_l (x y : Q) : 0 < x -> x * y == 0 -> y == 0.
Proof.
  intros Hx H. destruct (Qmult_integral x y H) as [E|E]; [|exact E].
  rewrite E in Hx. by apply Qlt_irrefl in Hx.
Qed.

Lemma common_crossing (xa ya xb yb xc yc xd yd yp : Q) :
  ya <= yp <= yb -> ya < yb -> yc <= yp <= yd -> yc < yd ->
  0 <= crs xa ya xb yb xc yc -> 0 <= crs xa ya xb yb xd yd ->
  0 <= crs xc yc xd yd xa ya -> 0 <= crs xc yc xd yd xb yb ->
  (yd - yp) * crs xa ya xb yb xc yc == 0 /\
  (yp - yc) * crs xa ya xb yb xd yd == 0 /\
  (yb - yp) * crs xc yc xd yd xa ya == 0 /\
  (yp - ya) * crs xc yc xd yd xb yb == 0.
Proof.
  intros [H1 H2] H3 [H4 H5] H6 Hc Hd Ha Hb.
  assert (0 <= (yd - yp) * crs xa ya xb yb xc yc) as W1
    by (apply Qmult_le_0_compat; lra).
  assert (0 <= (yp - yc) * crs xa ya xb yb xd yd) as W2
    by (apply Qmult_le_0_compat; lra).
  assert (0 <= (yb - yp) * crs xc yc xd yd xa ya) as W3
    by (apply Qmult_le_0_compat; lra).
  assert (0 <= (yp - ya) * crs xc yc xd yd xb yb) as W4
    by (apply Qmult_le_0_compat; lra).
  assert ((yd - yp) * crs xa ya xb yb xc yc + (yp - yc) * crs xa ya xb yb xd yd
          + ((yb - yp) * crs xc yc xd yd xa ya + (yp - ya) * crs xc yc xd yd xb yb)
          == 0) as E
    by (unfold crs; ring).
  repeat split; lra.
Qed.

Lemma Qsquare_nonneg (d : Q) : 0 <= d * d.
Proof. nra. Qed.

Lemma Qmult_nonneg_cancel (d t : Q) : 0 < d -> 0 <= d * t -> 0 <= t.
Proof.
  intros Hd H. destruct (Qlt_le_dec t 0) as [Hneg|]; [|done].
  exfalso. assert (d * t < 0) by nra. lra.
Qed.

Lemma collinear_between (xa ya xb yb xq yq : Q) :
  crs xa ya xb yb xq yq == 0 -> ya <= yq <= yb -> ya < yb ->
  0 <= (xb - xa) * (xq - xa) + (yb - ya) * (yq - ya) /\
  0 <= (xa - xb) * (xq - xb) + (ya - yb) * (yq - yb).
Proof.
  unfold crs. intros E [H1 H2] H3.
  assert (E1 : (yb - ya) * (xq - xa) == (xb - xa) * (yq - ya)) by lra.
  assert (E2 : (yb - ya) * (xq - xb) == (xb - xa) * (yq - yb)) by lra.
  assert (K1 : (xb - xa) * ((yb - ya) * (xq - xa))
               == (xb - xa) * ((xb - xa) * (yq - ya))) by (by rewrite E1).
  assert (K2 : (xb - xa) * ((yb - ya) * (xq - xb))
               == (xb - xa) * ((xb - xa) * (yq - yb))) by (by rewrite E2).
  assert (Q1 : 0 <= (xb - xa) * (xb - xa)) by apply Qsquare_nonneg.
  assert (Q2 : 0 <= (yb - ya) * (yb - ya)) by apply Qsquare_nonneg.
  assert (S1 : 0 <= (xb - xa) * (xb - xa) * (yq - ya))
    by (apply Qmult_le_0_compat; lra).
  assert (S2 : 0 <= (yb - ya) * (yb - ya) * (yq - ya))
    by (apply Qmult_le_0_compat; lra).
  assert (S3 : 0 <= (xb - xa) * (xb - xa) * (yb - yq))
    by (apply Qmult_le_0_compat; lra).
  assert (S4 : 0 <= (yb - ya) * (yb - ya) * (yb - yq))
    by (apply Qmult_le_0_compat; lra).
  split; apply (Qmult_nonneg_cancel (yb - ya)); try done; lra.
Qed.

(** Two edges that arrive at the level of [p] from below and whose ends are
    collinear with one of them end at the same abscissa. *)
Lemma arrivals_meet (xa ya xb yb xd yd yp : Q) :
  ya < yp -> yb == yp -> yd == yp ->
  crs xa ya xb yb xd yd == 0 -> xb == xd.
Proof.
  unfold crs. intros Ha Hb Hd E.
  assert (E' : (yb - ya) * (xb - xd) == 0).
  { rewrite <- E. rewrite Hd, Hb. ring. }
  apply Qmult_eq_0_l in E'; lra.
Qed.

Lemma departures_meet (xa ya xb yb xc yc yp : Q) :
  ya == yp -> yp < yb -> yc == yp ->
  crs xa ya xb yb xc yc == 0 -> xa == xc.
Proof.
  unfold crs. intros Ha Hb Hc E.
  assert (E' : (yb - ya) * (xa - xc) == 0).
  { rewrite <- E. rewrite Hc, Ha. ring. }
  apply Qmult_eq_0_l in E'; lra.
Qed.

(** With [p] strictly to the left of both, the edge after one that arrives
    at the level of [p] leaves it upwards. *)
Lemma arrival_then_departure (xa ya xb yb xc yc xp yp : Q) :
  ya < yp -> yb == yp ->
  0 < crs xa ya xb yb xp yp -> 0 < crs xb yb xc yc xp yp -> yp < yc.
Proof.
  unfold crs. intros Ha Hb H1 H2.
  assert (E1 : (xb - xa) * (yp - ya) - (yb - ya) * (xp - xa)
               == (yp - ya) * (xb - xp)) by (rewrite Hb; ring).
  assert (E2 : (xc - xb) * (yp - yb) - (yc - yb) * (xp - xb)
               == (yc - yp) * (xb - xp)) by (rewrite Hb; ring).
  rewrite E1 in H1. rewrite E2 in H2.
  assert (0 < xb - xp) by nra.
  assert (0 < yc - yp) by nra. lra.
Qed.

(** And the edge before one that leaves the level upwards arrives from
    below. *)
Lemma departure_after_arrival (xa ya xb yb xc yc xp yp : Q) :
  yb == yp -> yp < yc ->
  0 < crs xa ya xb yb xp yp -> 0 < crs xb yb xc yc xp yp -> ya < yp.
Proof.
  unfold crs. intros Hb Hc H1 H2.
  assert (E1 : (xb - xa) * (yp - ya) - (yb - ya) * (xp - xa)
               == (yp - ya) * (xb - xp)) by (rewrite Hb; ring).
  assert (E2 : (xc - xb) * (yp - yb) - (yc - yb) * (xp - xb)
               == (yc - yp) * (xb - xp)) by (rewrite Hb; ring).
  rewrite E1 in H1. rewrite E2 in H2.
  assert (0 < xb - xp) by nra.
  assert (0 < yp - ya) by nra. lra.
Qed.

Lemma r2_x_cross (p a b : Point) :
  ~ coord a 1 == coord b 1 ->
  (r2_x p (a, b) - coord p 0) * (coord b 1 - coord a 1) == cross a b p.
Proof.
  intros Hne. rewrite r2_x_unfold. simpl.
  assert (Hd : ~ coord a 1 - coord b 1 == 0) by (intros E; apply Hne; lra).
  rewrite (proj2 (Qeq_bool_false _ _) Hd). simpl. unfold cross, crs. field. exact Hd.
Qed.

Lemma r2_x_cross_flip (p a b : Point) :
  ~ coord a 1 == coord b 1 ->
  (r2_x p (b, a) - coord p 0) * (coord b 1 - coord a 1) == cross a b p.
Proof.
  intros Hne. rewrite r2_x_unfold. simpl.
  assert (Hd : ~ coord b 1 - coord a 1 == 0) by (intros E; apply Hne; lra).
  rewrite (proj2 (Qeq_bool_false _ _) Hd). simpl. unfold cross, crs. field. exact Hd.
Qed.

Lemma Qlt_bool_true (a b : Q) : a < b -> Qlt_bool a b = true.
Proof. apply Qlt_bool_iff. Qed.
Lemma Qlt_bool_false' (a b : Q) : b <= a -> Qlt_bool a b = false.
Proof. apply Qlt_bool_false. Qed.
Lemma Qeq_bool_true (a b : Q) : a == b -> Qeq_bool a b = true.
Proof. apply Qeq_bool_iff. Qed.
Lemma Qeq_bool_false' (a b : Q) : ~ a == b -> Qeq_bool a b = false.
Proof. apply Qeq_bool_false. Qed.

Lemma sign_of_quotient (r d c : Q) : r * d == c -> 0 < c -> 0 < d -> 0 < r.
Proof. intros E Hc Hd. nra. Qed.
Lemma sign_of_quotient_neg (r d c : Q) : r * d == c -> 0 < c -> d < 0 -> r < 0.
Proof. intros E Hc Hd. nra. Qed.

Arguments Qlt_bool : simpl never.
Arguments Qeq_bool : simpl never.
Arguments r2_x : simpl never.

Ltac q_compare :=
  match goal with
  | |- context [Qlt_bool ?x ?y] =>
      first [ rewrite (Qlt_bool_true x y) by nra
            | rewrite (Qlt_bool_false' x y) by nra ]
  | |- context [Qeq_bool ?x ?y] =>
      first [ rewrite (Qeq_bool_true x y) by nra
            | rewrite (Qeq_bool_false' x y) by (let E := fresh in intros E; nra) ]
  end.

Ltac q_eval :=
  repeat first [ progress simpl
               | progress rewrite ?andb_false_r, ?orb_false_r, ?andb_true_r
               | q_compare ].

Section LeftOfEdge.
Context (solid_box : Vector) (p a b : Point).
Hypothesis Hleft : 0 < cross a b p.
Hypothesis Hbottom : ~ coord p 1 == vget solid_box 2.
Hypothesis Htop : ~ coord p 1 == vget solid_box 3.

Lemma left_not_level : ~ (coord a 1 == coord p 1 /\ coord b 1 == coord p 1).
Proof.
  unfold cross, crs in Hleft. intros [E1 E2].
  assert (H1 : coord p 1 - coord a 1 == 0) by lra.
  assert (H2 : coord b 1 - coord a 1 == 0) by lra.
  rewrite H1, H2 in Hleft. lra.
Qed.

Lemma left_edge_class :
  on_boundary p (a, b) = false /\
  full_crossing p (a, b) = rises_through p a b /\
  half_crossing solid_box p (a, b) = rises_touching p a b.
Proof.
  pose proof left_not_level as Hnl.
  unfold on_boundary, on_crossing, on_horizontal, on_vertex, full_crossing,
    half_crossing, rises_through, rises_touching, point_eqb.
  cbn [fst snd forallb seq andb].
  set (r := r2_x p (a, b)).
  assert (Hr : ~ coord a 1 == coord b 1 ->
               (r - coord p 0) * (coord b 1 - coord a 1) == cross a b p)
    by apply r2_x_cross.
  unfold cross, crs in *.
  destruct (Q_dec (coord a 1) (coord p 1)) as [[Ha|Ha]|Ha];
    destruct (Q_dec (coord b 1) (coord p 1)) as [[Hb|Hb]|Hb];
    try (exfalso; apply Hnl; by split);
    try (assert (Hne : ~ coord a 1 == coord b 1) by (intros E; nra);
         specialize (Hr Hne);
         first [ assert (0 < r - coord p 0) by nra
               | assert (r - coord p 0 < 0) by nra ]);
    q_eval; auto.
Qed.

Lemma left_edge_class_flip :
  on_boundary p (b, a) = false /\
  full_crossing p (b, a) = rises_through p a b /\
  half_crossing solid_box p (b, a) = rises_touching p a b.
Proof.
  pose proof left_not_level as Hnl.
  unfold on_boundary, on_crossing, on_horizontal, on_vertex, full_crossing,
    half_crossing, rises_through, rises_touching, point_eqb.
  cbn [fst snd forallb seq andb].
  set (r := r2_x p (b, a)).
  assert (Hr : ~ coord a 1 == coord b 1 ->
               (r - coord p 0) * (coord b 1 - coord a 1) == cross a b p)
    by apply r2_x_cross_flip.
  unfold cross, crs in *.
  destruct (Q_dec (coord a 1) (coord p 1)) as [[Ha|Ha]|Ha];
    destruct (Q_dec (coord b 1) (coord p 1)) as [[Hb|Hb]|Hb];
    try (exfalso; apply Hnl; by split);
    try (assert (Hne : ~ coord a 1 == coord b 1) by (intros E; nra);
         specialize (Hr Hne);
         first [ assert (0 < r - coord p 0) by nra
               | assert (r - coord p 0 < 0) by nra ]);
    q_eval; auto.
Qed.

End LeftOfEdge.

Lemma chain_rise (h : Point -> Q) (level : Q) (L : list Point) :
  forall i j u w, (i < j)%nat -> L !! i = Some u -> L !! j = Some w ->
    h u < level -> level <= h w ->
    exists k a b, L !! k = Some a /\ L !! (S k) = Some b /\
      h a < level /\ level <= h b.
Proof.
  induction L as [|x L IH]; intros i j u w Hij Hi Hj Hu Hw; [done|].
  destruct j as [|j]; [lia|]. simpl in Hj.
  destruct i as [|i].
  - simpl in Hi. injection Hi as ->.
    destruct L as [|y L]; [done|].
    destruct (Qlt_le_dec (h y) level) as [Hy|Hy].
    + destruct j as [|j].
      * simpl in Hj. injection Hj as ->. exfalso. lra.
      * destruct (IH 0%nat (S j) y w ltac:(lia) eq_refl Hj Hy Hw)
          as (k & a & b & Hk & Hk' & Ha & Hb).
        exists (S k), a, b. done.
    + exists 0%nat, u, y. done.
  - simpl in Hi.
    destruct (IH i j u w ltac:(lia) Hi Hj Hu Hw) as (k & a & b & Hk & Hk' & Ha & Hb).
    exists (S k), a, b. done.
Qed.

Lemma polygon_edges_lookup (vs : list Point) (k : nat) (a b : Point) :
  polygon_edges vs !! k = Some (a, b) <->
  vs !! k = Some a /\ (vs ++ take 1 vs) !! (S k) = Some b.
Proof.
  destruct vs as [|v rest].
  - simpl. split; [done|by intros [H _]].
  - unfold polygon_edges. change (take 1 (v :: rest)) with [v].
    change (((v :: rest) ++ [v]) !! S k) with ((rest ++ [v]) !! k).
    rewrite lookup_zip_with_Some. split.
    + by intros (x & y & [= -> ->] & Hx & Hy).
    + intros [Hx Hy]. by exists a, b.
Qed.

Section FilterCount.
Context {A : Type} (f : A -> bool).

Lemma filter_length_zero (l : list A) :
  (forall x, x ∈ l -> f x = false) ->
  length (filter (fun x => f x = true) l) = 0%nat.
Proof.
  induction l as [|x l IH]; intros H; [done|].
  rewrite filter_cons. rewrite (H x) by set_solver. 
  rewrite decide_False by done. apply IH. intros y Hy. apply H. set_solver.
Qed.

Lemma filter_length_one (l : list A) :
  (exists i x, l !! i = Some x /\ f x = true) ->
  (forall i j x y, l !! i = Some x -> l !! j = Some y ->
     f x = true -> f y = true -> i = j) ->
  length (filter (fun x => f x = true) l) = 1%nat.
Proof.
  induction l as [|x l IH]; intros (i & y & Hi & Hy) Huniq; [done|].
  rewrite filter_cons. destruct (f x) eqn:Hx.
  - rewrite decide_True by done. simpl. f_equal.
    apply filter_length_zero. intros z Hz.
    apply list_elem_of_lookup in Hz as [k Hk].
    destruct (f z) eqn:Hfz; [|done].
    by specialize (Huniq 0%nat (S k) x z eq_refl Hk Hx Hfz).
  - rewrite decide_False by (by intros ?). apply IH.
    + destruct i as [|i]; simpl in Hi; [congruence|]. by exists i, y.
    + intros a b u w Ha Hb Hu Hw.
      by specialize (Huniq (S a) (S b) u w Ha Hb Hu Hw) as [= ->].
Qed.

End FilterCount.

Lemma filter_length_orb {A : Type} (f g : A -> bool) (l : list A) :
  (forall x, f x = true -> g x = true -> False) ->
  length (filter (fun x => f x || g x = true) l)
  = (length (filter (fun x => f x = true) l)
     + length (filter (fun x => g x = true) l))%nat.
Proof.
  intros Hdisj. induction l as [|x l IH]; [done|].
  rewrite !filter_cons.
  destruct (f x) eqn:Hf, (g x) eqn:Hg; simpl;
    repeat (rewrite decide_True by done); repeat (rewrite decide_False by done);
    simpl; try lia.
  exfalso. by apply (Hdisj x).
Qed.

Lemma point_eqb_sym (p q : Point) : point_eqb 2 p q = point_eqb 2 q p.
Proof.
  unfold point_eqb. simpl.
  by rewrite (Qeq_bool_comm (coord p 0)), (Qeq_bool_comm (coord p 1)).
Qed.

Lemma distinct_points_lookup (vs : list Point) : forall i j a b,
  distinct_points vs = true -> vs !! i = Some a -> vs !! j = Some b ->
  point_eqb 2 a b = true -> i = j.
Proof.
  induction vs as [|v vs IH]; intros i j a b Hd Hi Hj Hab; [done|].
  simpl in Hd. apply andb_true_iff in Hd as [Hv Hd].
  rewrite forallb_forall in Hv.
  destruct i as [|i], j as [|j]; simpl in *; try done.
  - injection Hi as ->. exfalso.
    assert (In b vs) as Hb by (apply list_elem_of_In; by eapply list_elem_of_lookup_2).
    specialize (Hv b Hb). by rewrite Hab in Hv.
  - injection Hj as ->. exfalso.
    assert (In a vs) as Ha by (apply list_elem_of_In; by eapply list_elem_of_lookup_2).
    specialize (Hv a Ha). rewrite point_eqb_sym in Hv. by rewrite Hab in Hv.
  - f_equal. by eapply IH.
Qed.

Section PolygonStructure.
Context (vs : list Point).

Lemma polygon_edge_start i a b :
  polygon_edges vs !! i = Some (a, b) -> vs !! i = Some a.
Proof. intros H. by apply polygon_edges_lookup in H as [? ?]. Qed.

Lemma polygon_edge_end i a b :
  polygon_edges vs !! i = Some (a, b) ->
  ((S i < length vs)%nat /\ vs !! S i = Some b) \/
  (S i = length vs /\ vs !! 0%nat = Some b).
Proof.
  intros H. apply polygon_edges_lookup in H as [Ha Hb].
  apply lookup_lt_Some in Ha as Hlt.
  destruct (decide (S i < length vs)%nat) as [Hs|Hs].
  - left. split; [done|]. by rewrite lookup_app_l in Hb.
  - right. split; [lia|]. rewrite lookup_app_r in Hb by lia.
    replace (S i - length vs)%nat with 0%nat in Hb by lia.
    destruct vs; done.
Qed.

Lemma polygon_edge_vertices i a b :
  polygon_edges vs !! i = Some (a, b) -> a ∈ vs /\ b ∈ vs.
Proof.
  intros H. split.
  - eapply list_elem_of_lookup_2, polygon_edge_start, H.
  - destruct (polygon_edge_end _ _ _ H) as [[_ Hb]|[_ Hb]];
      by eapply list_elem_of_lookup_2.
Qed.

Lemma polygon_edge_of_start i a :
  vs !! i = Some a -> exists b, polygon_edges vs !! i = Some (a, b).
Proof.
  intros Ha. apply lookup_lt_Some in Ha as Hlt.
  destruct ((vs ++ take 1 vs) !! S i) as [b|] eqn:Hb.
  - exists b. by apply polygon_edges_lookup.
  - apply lookup_ge_None in Hb. rewrite length_app, length_take in Hb. lia.
Qed.

Lemma polygon_edge_successor i a b :
  polygon_edges vs !! i = Some (a, b) ->
  exists j c, polygon_edges vs !! j = Some (b, c).
Proof.
  intros H. destruct (polygon_edge_end _ _ _ H) as [[_ Hb]|[_ Hb]];
    apply polygon_edge_of_start in Hb as [c Hc]; eauto.
Qed.

Lemma polygon_edge_predecessor j b c :
  polygon_edges vs !! j = Some (b, c) ->
  exists i a, polygon_edges vs !! i = Some (a, b).
Proof.
  intros H. apply polygon_edge_start in H as Hb.
  apply lookup_lt_Some in Hb as Hlt.
  destruct j as [|j].
  - destruct (vs !! (length vs - 1)%nat) as [a|] eqn:Ha.
    + exists (length vs - 1)%nat, a. apply polygon_edges_lookup. split; [done|].
      rewrite lookup_app_r by lia.
      replace (S (length vs - 1) - length vs)%nat with 0%nat by lia.
      destruct vs; done.
    + apply lookup_ge_None in Ha. lia.
  - destruct (vs !! j) as [a|] eqn:Ha.
    + exists j, a. apply polygon_edges_lookup. split; [done|].
      by rewrite lookup_app_l.
    + apply lookup_ge_None in Ha. lia.
Qed.

Hypothesis Hdist : distinct_points vs = true.

Lemma polygon_starts_distinct i j a b a' b' :
  polygon_edges vs !! i = Some (a, b) -> polygon_edges vs !! j = Some (a', b') ->
  point_eqb 2 a a' = true -> i = j.
Proof.
  intros Hi Hj. apply polygon_edge_start in Hi, Hj.
  by eapply (distinct_points_lookup vs).
Qed.

Lemma polygon_ends_distinct i j a b a' b' :
  polygon_edges vs !! i = Some (a, b) -> polygon_edges vs !! j = Some (a', b') ->
  point_eqb 2 b b' = true -> i = j.
Proof.
  intros Hi Hj Hb.
  destruct (polygon_edge_end _ _ _ Hi) as [[Hi1 Hi2]|[Hi1 Hi2]];
    destruct (polygon_edge_end _ _ _ Hj) as [[Hj1 Hj2]|[Hj1 Hj2]];
    pose proof (distinct_points_lookup vs _ _ _ _ Hdist Hi2 Hj2 Hb); lia.
Qed.

End PolygonStructure.

Lemma cross_crs (a b q : Point) :
  cross a b q = crs (coord a 0) (coord a 1) (coord b 0) (coord b 1)
                    (coord q 0) (coord q 1).
Proof. reflexivity. Qed.

Lemma rises_through_iff p a b :
  rises_through p a b = true <-> coord a 1 < coord p 1 /\ coord p 1 < coord b 1.
Proof. unfold rises_through. by rewrite andb_true_iff, !Qlt_bool_iff. Qed.

Lemma arrives_iff p a b :
  arrives p a b = true <-> coord a 1 < coord p 1 /\ coord b 1 == coord p 1.
Proof. unfold arrives. by rewrite andb_true_iff, Qlt_bool_iff, Qeq_bool_iff. Qed.

Lemma leaves_iff p a b :
  leaves p a b = true <-> coord a 1 == coord p 1 /\ coord p 1 < coord b 1.
Proof. unfold leaves. by rewrite andb_true_iff, Qlt_bool_iff, Qeq_bool_iff. Qed.

Lemma rises_touching_split p a b :
  rises_touching p a b = leaves p a b || arrives p a b.
Proof. reflexivity. Qed.

Lemma on_closed_segment_rising (a b q : Point) :
  cross a b q == 0 -> coord a 1 <= coord q 1 <= coord b 1 ->
  coord a 1 < coord b 1 -> on_closed_segment (a, b) q = true.
Proof.
  intros E Hy Hab. unfold on_closed_segment. cbn [fst snd].
  rewrite (proj2 (Qeq_bool_iff _ _) E). rewrite cross_crs in E.
  destruct (collinear_between _ _ _ _ _ _ E Hy Hab) as [H1 H2].
  cbn [andb]. apply andb_true_iff. split; by apply Qle_bool_iff.
Qed.

Section Convex.
Context (vs : list Point) (p : Point).
Hypothesis Hconv : forall e v, e ∈ polygon_edges vs -> v ∈ vs ->
  0 <= cross e.1 e.2 v.
Hypothesis Hseg : forall e v, e ∈ polygon_edges vs -> v ∈ vs ->
  on_closed_segment e v = true ->
  point_eqb 2 v e.1 = true \/ point_eqb 2 v e.2 = true.
Hypothesis Hdist : distinct_points vs = true.
Hypothesis Hin : forall e, e ∈ polygon_edges vs -> 0 < cross e.1 e.2 p.

Lemma rising_cases a b :
  rising p a b ->
  rises_through p a b = true \/ arrives p a b = true \/ leaves p a b = true.
Proof.
  intros [[H1 H2] H3]. rewrite rises_through_iff, arrives_iff, leaves_iff.
  destruct (Qlt_le_dec (coord a 1) (coord p 1)) as [Ha|Ha];
    destruct (Qlt_le_dec (coord p 1) (coord b 1)) as [Hb|Hb].
  - by left.
  - right; left. split; [done|lra].
  - right; right. split; [lra|done].
  - exfalso. lra.
Qed.

Lemma through_alone i j a b c d :
  polygon_edges vs !! i = Some (a, b) -> polygon_edges vs !! j = Some (c, d) ->
  rises_through p a b = true -> rising p c d -> i = j.
Proof.
  intros Hi Hj Hab [[Hc Hd] Hcd]. apply rises_through_iff in Hab as [Ha Hb].
  assert (He : (a, b) ∈ polygon_edges vs) by (by eapply list_elem_of_lookup_2).
  assert (He' : (c, d) ∈ polygon_edges vs) by (by eapply list_elem_of_lookup_2).
  destruct (polygon_edge_vertices _ _ _ _ Hi) as [Hva Hvb].
  destruct (polygon_edge_vertices _ _ _ _ Hj) as [Hvc Hvd].
  pose proof (Hconv _ _ He Hvc) as C1. pose proof (Hconv _ _ He Hvd) as C2.
  pose proof (Hconv _ _ He' Hva) as C3. pose proof (Hconv _ _ He' Hvb) as C4.
  simpl in C1, C2, C3, C4. rewrite cross_crs in C1, C2, C3, C4.
  assert (R1 : coord a 1 <= coord p 1 <= coord b 1) by (split; lra).
  assert (R2 : coord a 1 < coord b 1) by lra.
  destruct (common_crossing _ _ _ _ _ _ _ _ (coord p 1) R1 R2 (conj Hc Hd) Hcd
              C1 C2 C3 C4) as (E1 & E2 & E3 & E4).
  apply Qmult_eq_0_l in E3; [|lra]. apply Qmult_eq_0_l in E4; [|lra].
  destruct (Qlt_le_dec (coord a 1) (coord c 1)) as [Hac|Hac].
  - exfalso. destruct (Qlt_le_dec (coord p 1) (coord d 1)) as [Hpd|Hpd].
    + apply Qmult_eq_0_l in E1; [|lra].
      assert (Hon : on_closed_segment (a, b) c = true).
      { apply on_closed_segment_rising; [by rewrite cross_crs| |]; lra. }
      destruct (Hseg _ _ He Hvc Hon) as [H|H]; apply point_eqb_2 in H; simpl in H;
        lra.
    + assert (Hcp : coord c 1 < coord p 1) by lra.
      apply Qmult_eq_0_l in E2; [|lra].
      assert (Hon : on_closed_segment (a, b) d = true).
      { apply on_closed_segment_rising; [by rewrite cross_crs| |]; lra. }
      destruct (Hseg _ _ He Hvd Hon) as [H|H]; apply point_eqb_2 in H; simpl in H;
        lra.
  - assert (Hon : on_closed_segment (c, d) a = true).
    { apply on_closed_segment_rising; [by rewrite cross_crs| |]; lra. }
    destruct (Hseg _ _ He' Hva Hon) as [H|H].
    + by eapply (polygon_starts_distinct vs Hdist i j a b c d).
    + exfalso. apply point_eqb_2 in H. simpl in H. lra.
Qed.

Lemma arrives_once i j a b c d :
  polygon_edges vs !! i = Some (a, b) -> polygon_edges vs !! j = Some (c, d) ->
  arrives p a b = true -> arrives p c d = true -> i = j.
Proof.
  intros Hi Hj Hab Hcd.
  apply arrives_iff in Hab as [Ha Hb]. apply arrives_iff in Hcd as [Hc Hd].
  assert (He : (a, b) ∈ polygon_edges vs) by (by eapply list_elem_of_lookup_2).
  assert (He' : (c, d) ∈ polygon_edges vs) by (by eapply list_elem_of_lookup_2).
  destruct (polygon_edge_vertices _ _ _ _ Hi) as [Hva Hvb].
  destruct (polygon_edge_vertices _ _ _ _ Hj) as [Hvc Hvd].
  pose proof (Hconv _ _ He Hvc) as C1. pose proof (Hconv _ _ He Hvd) as C2.
  pose proof (Hconv _ _ He' Hva) as C3. pose proof (Hconv _ _ He' Hvb) as C4.
  simpl in C1, C2, C3, C4. rewrite cross_crs in C1, C2, C3, C4.
  assert (R1 : coord a 1 <= coord p 1 <= coord b 1) by (split; lra).
  assert (R2 : coord a 1 < coord b 1) by lra.
  assert (R3 : coord c 1 <= coord p 1 <= coord d 1) by (split; lra).
  assert (R4 : coord c 1 < coord d 1) by lra.
  destruct (common_crossing _ _ _ _ _ _ _ _ (coord p 1) R1 R2 R3 R4
              C1 C2 C3 C4) as (E1 & E2 & E3 & E4).
  apply Qmult_eq_0_l in E2; [|lra].
  pose proof (arrivals_meet _ _ _ _ _ _ _ Ha Hb Hd E2) as Hx.
  eapply (polygon_ends_distinct vs Hdist i j a b c d); [done|done|].
  apply point_eqb_2. split; lra.
Qed.

Lemma leaves_once i j a b c d :
  polygon_edges vs !! i = Some (a, b) -> polygon_edges vs !! j = Some (c, d) ->
  leaves p a b = true -> leaves p c d = true -> i = j.
Proof.
  intros Hi Hj Hab Hcd.
  apply leaves_iff in Hab as [Ha Hb]. apply leaves_iff in Hcd as [Hc Hd].
  assert (He : (a, b) ∈ polygon_edges vs) by (by eapply list_elem_of_lookup_2).
  assert (He' : (c, d) ∈ polygon_edges vs) by (by eapply list_elem_of_lookup_2).
  destruct (polygon_edge_vertices _ _ _ _ Hi) as [Hva Hvb].
  destruct (polygon_edge_vertices _ _ _ _ Hj) as [Hvc Hvd].
  pose proof (Hconv _ _ He Hvc) as C1. pose proof (Hconv _ _ He Hvd) as C2.
  pose proof (Hconv _ _ He' Hva) as C3. pose proof (Hconv _ _ He' Hvb) as C4.
  simpl in C1, C2, C3, C4. rewrite cross_crs in C1, C2, C3, C4.
  assert (R1 : coord a 1 <= coord p 1 <= coord b 1) by (split; lra).
  assert (R2 : coord a 1 < coord b 1) by lra.
  assert (R3 : coord c 1 <= coord p 1 <= coord d 1) by (split; lra).
  assert (R4 : coord c 1 < coord d 1) by lra.
  destruct (common_crossing _ _ _ _ _ _ _ _ (coord p 1) R1 R2 R3 R4
              C1 C2 C3 C4) as (E1 & E2 & E3 & E4).
  apply Qmult_eq_0_l in E1; [|lra].
  pose proof (departures_meet _ _ _ _ _ _ _ Ha Hb Hc E1) as Hx.
  eapply (polygon_starts_distinct vs Hdist i j a b c d); [done|done|].
  apply point_eqb_2. split; lra.
Qed.

Lemma arrives_then_leaves i a b :
  polygon_edges vs !! i = Some (a, b) -> arrives p a b = true ->
  exists j c, polygon_edges vs !! j = Some (b, c) /\ leaves p b c = true.
Proof.
  intros Hi Hab. apply arrives_iff in Hab as [Ha Hb].
  destruct (polygon_edge_successor _ _ _ _ Hi) as (j & c & Hj).
  exists j, c. split; [done|]. apply leaves_iff. split; [done|].
  pose proof (Hin (a, b) ltac:(by eapply list_elem_of_lookup_2)) as I1.
  pose proof (Hin (b, c) ltac:(by eapply list_elem_of_lookup_2)) as I2.
  simpl in I1, I2. rewrite cross_crs in I1, I2.
  by eapply arrival_then_departure.
Qed.

Lemma leaves_after_arrives j b c :
  polygon_edges vs !! j = Some (b, c) -> leaves p b c = true ->
  exists i a, polygon_edges vs !! i = Some (a, b) /\ arrives p a b = true.
Proof.
  intros Hj Hbc. apply leaves_iff in Hbc as [Hb Hc].
  destruct (polygon_edge_predecessor _ _ _ _ Hj) as (i & a & Hi).
  exists i, a. split; [done|]. apply arrives_iff. split; [|done].
  pose proof (Hin (a, b) ltac:(by eapply list_elem_of_lookup_2)) as I1.
  pose proof (Hin (b, c) ltac:(by eapply list_elem_of_lookup_2)) as I2.
  simpl in I1, I2. rewrite cross_crs in I1, I2.
  by eapply departure_after_arrival.
Qed.

End Convex.

Section Counting.
Context (vs : list Point) (p : Point).
Hypothesis Hconv : forall e v, e ∈ polygon_edges vs -> v ∈ vs ->
  0 <= cross e.1 e.2 v.
Hypothesis Hseg : forall e v, e ∈ polygon_edges vs -> v ∈ vs ->
  on_closed_segment e v = true ->
  point_eqb 2 v e.1 = true \/ point_eqb 2 v e.2 = true.
Hypothesis Hdist : distinct_points vs = true.
Hypothesis Hin : forall e, e ∈ polygon_edges vs -> 0 < cross e.1 e.2 p.
Hypothesis Hlow : exists v, v ∈ vs /\ coord v 1 < coord p 1.
Hypothesis Hhigh : exists v, v ∈ vs /\ coord p 1 < coord v 1.

Lemma some_edge_rises :
  exists k a b, polygon_edges vs !! k = Some (a, b) /\
    (rises_through p a b = true \/ arrives p a b = true).
Proof.
  destruct Hlow as (u & Hu & Hul). destruct Hhigh as (w & Hw & Hwh).
  apply list_elem_of_lookup in Hu as [i Hi]. apply list_elem_of_lookup in Hw as [j Hj].
  assert (Hchain : exists i' j' u' w', (i' < j')%nat /\
            (vs ++ take 1 vs) !! i' = Some u' /\ (vs ++ take 1 vs) !! j' = Some w' /\
            coord u' 1 < coord p 1 /\ coord p 1 <= coord w' 1).
  { destruct (lt_eq_lt_dec i j) as [[Hlt|Heq]|Hgt].
    - exists i, j, u, w. repeat split; try done.
      + by apply lookup_app_l_Some.
      + by apply lookup_app_l_Some.
      + lra.
    - subst j. rewrite Hi in Hj. injection Hj as ->. exfalso. lra.
    - destruct vs as [|v0 rest] eqn:Hvs; [done|].
      destruct (Qlt_le_dec (coord v0 1) (coord p 1)) as [H0|H0].
      + exists 0%nat, j, v0, w. repeat split; try done.
        * destruct j as [|j]; [|lia]. simpl in Hj. injection Hj as ->. lra.
        * by apply lookup_app_l_Some.
        * lra.
      + exists i, (length (v0 :: rest)), u, v0. repeat split; try done.
        * by apply lookup_lt_Some in Hi.
        * by apply lookup_app_l_Some.
        * rewrite lookup_app_r by lia. by rewrite Nat.sub_diag. }
  destruct Hchain as (i' & j' & u' & w' & Hij & Hi' & Hj' & Hu' & Hw').
  destruct (chain_rise (fun v => coord v 1) (coord p 1) _ _ _ _ _ Hij Hi' Hj' Hu' Hw')
    as (k & a & b & Hk & Hk' & Ha & Hb).
  exists k, a, b. split.
  - apply polygon_edges_lookup. split; [|done].
    apply lookup_lt_Some in Hk' as Hlen. rewrite length_app, length_take in Hlen.
    rewrite lookup_app_l in Hk by lia. done.
  - destruct (Qlt_le_dec (coord p 1) (coord b 1)) as [Hpb|Hpb].
    + left. by apply rises_through_iff.
    + right. apply arrives_iff. split; [done|lra].
Qed.

Lemma through_is_rising a b : rises_through p a b = true -> rising p a b.
Proof. intros H. apply rises_through_iff in H. unfold rising. lra. Qed.

Lemma arrives_is_rising a b : arrives p a b = true -> rising p a b.
Proof. intros H. apply arrives_iff in H. unfold rising. lra. Qed.

Lemma leaves_is_rising a b : leaves p a b = true -> rising p a b.
Proof. intros H. apply leaves_iff in H. unfold rising. lra. Qed.

Lemma crossing_counts :
  let full := length (filter (fun e : Segment => rises_through p e.1 e.2 = true)
                             (polygon_edges vs)) in
  let half := length (filter (fun e : Segment => rises_touching p e.1 e.2 = true)
                             (polygon_edges vs)) in
  (full = 1%nat /\ half = 0%nat) \/ (full = 0%nat /\ half = 2%nat).
Proof.
  intros full half.
  destruct (decide (Exists (fun e : Segment => rises_through p e.1 e.2 = true)
                           (polygon_edges vs))) as [Hex|Hno].
  - left. apply Exists_exists in Hex as ([a b] & He & Hab). simpl in Hab.
    apply list_elem_of_lookup in He as [i Hi]. split.
    + apply (filter_length_one (fun e : Segment => rises_through p e.1 e.2)).
      * by exists i, (a, b).
      * intros k l [c d] [c' d'] Hk Hl Hc Hd. simpl in *.
        eapply (through_alone vs p Hconv Hseg Hdist k l c d c' d'); try done.
        by apply through_is_rising.
    + apply (filter_length_zero (fun e : Segment => rises_touching p e.1 e.2)).
      intros [c d] Hcd. simpl. destruct (rises_touching p c d) eqn:Ht; [|done].
      exfalso. apply list_elem_of_lookup in Hcd as [j Hj].
      rewrite rises_touching_split in Ht. apply orb_true_iff in Ht.
      assert (Hr : rising p c d).
      { destruct Ht; [by apply leaves_is_rising|by apply arrives_is_rising]. }
      pose proof (through_alone vs p Hconv Hseg Hdist i j a b c d Hi Hj Hab Hr)
        as ->.
      rewrite Hi in Hj. injection Hj as <- <-.
      apply rises_through_iff in Hab.
      destruct Ht as [H|H]; [apply leaves_iff in H|apply arrives_iff in H]; lra.
  - right. split.
    + apply (filter_length_zero (fun e : Segment => rises_through p e.1 e.2)).
      intros e He. destruct (rises_through p e.1 e.2) eqn:E; [|done].
      exfalso. apply Hno, Exists_exists. by exists e.
    + destruct some_edge_rises as (k & a & b & Hk & [Hab|Hab]).
      { exfalso. apply Hno, Exists_exists. exists (a, b). split; [|done].
        by eapply list_elem_of_lookup_2. }
      destruct (arrives_then_leaves vs p Hin k a b Hk Hab) as (j & c & Hj & Hbc).
      unfold half.
      rewrite (list_filter_iff _
                (fun e : Segment => leaves p e.1 e.2 || arrives p e.1 e.2 = true))
        by (intros e; by rewrite rises_touching_split).
      rewrite (filter_length_orb (fun e : Segment => leaves p e.1 e.2)
                 (fun e : Segment => arrives p e.1 e.2)).
      * rewrite (filter_length_one (fun e : Segment => leaves p e.1 e.2)),
          (filter_length_one (fun e : Segment => arrives p e.1 e.2)); [done| | | |].
        -- by exists k, (a, b).
        -- intros i1 i2 [c1 d1] [c2 d2] H1 H2 A1 A2. simpl in *.
           by eapply (arrives_once vs p Hconv Hdist i1 i2 c1 d1 c2 d2).
        -- by exists j, (b, c).
        -- intros i1 i2 [c1 d1] [c2 d2] H1 H2 A1 A2. simpl in *.
           by eapply (leaves_once vs p Hconv Hdist i1 i2 c1 d1 c2 d2).
      * intros [c1 d1] H1 H2. simpl in *.
        apply leaves_iff in H1. apply arrives_iff in H2. lra.
Qed.

End Counting.

Lemma Forall2_filter_length {A B : Type} (R : A -> B -> Prop) (P : B -> Prop)
    (f : A -> bool) (g : B -> bool) (l1 : list A) (l2 : list B) :
  Forall2 R l1 l2 -> Forall P l2 ->
  (forall x y, R x y -> P y -> f x = g y) ->
  length (filter (fun x => f x = true) l1) = length (filter (fun y => g y = true) l2).
Proof.
  intros HR HP Hfg. induction HR as [|x y l1 l2 Hxy HR IH]; [done|].
  apply Forall_cons in HP as [Hy HP].
  rewrite !filter_cons, (Hfg x y Hxy Hy).
  destruct (g y); simpl; repeat case_decide; try done; simpl; by rewrite IH.
Qed.

Lemma Forall2_existsb_false {A B : Type} (R : A -> B -> Prop) (P : B -> Prop)
    (f : A -> bool) (l1 : list A) (l2 : list B) :
  Forall2 R l1 l2 -> Forall P l2 ->
  (forall x y, R x y -> P y -> f x = false) ->
  existsb f l1 = false.
Proof.
  intros HR HP Hf. induction HR as [|x y l1 l2 Hxy HR IH]; [done|].
  apply Forall_cons in HP as [Hy HP]. simpl.
  by rewrite (Hf x y Hxy Hy), IH.
Qed.

Lemma existsb_Permutation {A : Type} (f : A -> bool) (l1 l2 : list A) :
  l1 ≡ₚ l2 -> existsb f l1 = existsb f l2.
Proof.
  induction 1 as [|x l1 l2 _ IH|x y l|l1 l2 l3 _ IH1 _ IH2]; simpl.
  - done.
  - by rewrite IH.
  - destruct (f x), (f y); done.
  - by rewrite IH1.
Qed.

Lemma convex_polygon_props (vs : list Point) :
  convex_polygon vs = true ->
  (forall e v, e ∈ polygon_edges vs -> v ∈ vs -> 0 <= cross e.1 e.2 v) /\
  (forall e v, e ∈ polygon_edges vs -> v ∈ vs ->
     on_closed_segment e v = true ->
     point_eqb 2 v e.1 = true \/ point_eqb 2 v e.2 = true) /\
  distinct_points vs = true.
Proof.
  unfold convex_polygon. rewrite !andb_true_iff. intros [[H1 H2] H3].
  rewrite forallb_forall in H1, H2. split; [|split; [|done]].
  - intros e v He Hv. apply list_elem_of_In in He, Hv.
    specialize (H1 e He). rewrite forallb_forall in H1.
    by apply Qle_bool_iff, H1.
  - intros e v He Hv Hon. apply list_elem_of_In in He, Hv.
    specialize (H2 e He). rewrite forallb_forall in H2.
    specialize (H2 v Hv). rewrite Hon in H2. simpl in H2.
    by apply orb_true_iff in H2.
Qed.

(** ** Point in solid: the classification *)

Section RoundedCrossing.
Context (ar : Arithmetic).

Lemma Qlt_bool_not_eq (a b : Q) : Qlt_bool a b = true -> Qeq_bool a b = false.
Proof.
  intros H. apply Qlt_bool_iff in H. apply Qeq_bool_false. intros E. lra.
Qed.

Lemma Qlt_bool_not_eq_sym (a b : Q) : Qlt_bool a b = true -> Qeq_bool b a = false.
Proof.
  intros H. apply Qlt_bool_iff in H. apply Qeq_bool_false. intros E. lra.
Qed.

Lemma rounded_segment_step_spec solid_box point cn hcn seg :
  Rounded.segment_step ar solid_box point cn hcn seg =
    if Rounded.on_boundary ar point seg then ReturnTrue
    else Continue (cn + b2n (Rounded.full_crossing ar point seg))
                  (hcn + b2n (Rounded.half_crossing ar solid_box point seg)).
Proof.
  unfold Rounded.segment_step, Rounded.on_boundary, Rounded.on_crossing,
    Rounded.on_horizontal, Rounded.on_vertex, Rounded.full_crossing,
    Rounded.half_crossing, Rounded.y_product, Rounded.is_horizontal.
  set (y1 := fsub ar (coord seg.1 1) (coord point 1)).
  set (y2 := fsub ar (coord seg.2 1) (coord point 1)).
  set (x1 := fsub ar (coord seg.1 0) (coord point 0)).
  set (x2 := fsub ar (coord seg.2 0) (coord point 0)).
  set (rx := Rounded.r2_x ar point seg).
  destruct (Qlt_bool (fmul ar y1 y2) 0) eqn:Hlt.
  - rewrite (Qlt_bool_not_eq _ _ Hlt). simpl.
    destruct (Qlt_bool (coord point 0) rx) eqn:Hx; simpl.
    + rewrite (Qlt_bool_not_eq_sym _ _ Hx). simpl. f_equal; lia.
    + destruct (Qeq_bool rx (coord point 0)); simpl; [done|f_equal; lia].
  - simpl. destruct (Qeq_bool (fmul ar y1 y2) 0) eqn:Heq; simpl.
    + destruct (Qeq_bool y1 0 && Qeq_bool y2 0) eqn:Hh; simpl.
      * destruct (Qlt_bool (fmul ar x1 x2) 0); simpl; [done|f_equal; lia].
      * destruct (Qlt_bool (coord point 0) rx) eqn:Hx; simpl.
        -- destruct (negb (Qeq_bool (coord point 1) (vget solid_box 2)));
             destruct (negb (Qeq_bool (coord point 1) (vget solid_box 3)));
             simpl; f_equal; lia.
        -- destruct (point_eqb 2 point seg.1 || point_eqb 2 point seg.2);
             simpl; [done|f_equal; lia].
    + f_equal; lia.
Qed.

Lemma rounded_crossing_loop_spec solid_box point segs : forall cn hcn,
  Rounded.crossing_loop ar solid_box point segs cn hcn =
    if existsb (Rounded.on_boundary ar point) segs then ReturnTrue
    else Continue
           (cn + length (filter (fun seg => Rounded.full_crossing ar point seg = true)
                                segs))
           (hcn + length (filter (fun seg => Rounded.half_crossing ar solid_box
                                                point seg = true) segs)).
Proof.
  induction segs as [|seg segs IH]; intros cn hcn; simpl.
  - f_equal; lia.
  - rewrite rounded_segment_step_spec.
    destruct (Rounded.on_boundary ar point seg); simpl; [done|].
    rewrite IH. destruct (existsb _ segs); [done|].
    rewrite !filter_cons.
    destruct (Rounded.full_crossing ar point seg),
      (Rounded.half_crossing ar solid_box point seg);
      simpl; repeat case_decide; try done; simpl; f_equal; lia.
Qed.

Lemma rounded_point_in_solid_2d solid_box segs cells point :
  Rounded.point_in_solid ar 2 solid_box segs cells point =
    negb (outside_box 2 solid_box point)
    && (existsb (Rounded.on_boundary ar point) segs
        || Nat.odd (Rounded.crossing_count ar solid_box point segs)).
Proof.
  unfold Rounded.point_in_solid.
  destruct (outside_box 2 solid_box point); [done|].
  simpl. rewrite rounded_crossing_loop_spec.
  destruct (existsb (Rounded.on_boundary ar point) segs); [done|]. simpl.
  unfold Rounded.crossing_count.
  set (n := (_ + _ / 2)%nat). apply odd_mod2.
Qed.

Lemma same_tests_spec solid_box point seg :
  same_tests ar solid_box point seg = true ->
  Rounded.on_boundary ar point seg = on_boundary point seg /\
  Rounded.full_crossing ar point seg = full_crossing point seg /\
  Rounded.half_crossing ar solid_box point seg = half_crossing solid_box point seg.
Proof.
  unfold same_tests. rewrite !andb_true_iff.
  intros [[H1 H2] H3]. by rewrite (eqb_prop _ _ H1), (eqb_prop _ _ H2), (eqb_prop _ _ H3).
Qed.

Lemma same_tests_existsb solid_box point segs :
  Forall (fun seg => same_tests ar solid_box point seg = true) segs ->
  existsb (Rounded.on_boundary ar point) segs = existsb (on_boundary point) segs.
Proof.
  induction 1 as [|seg segs H _ IH]; simpl; [done|].
  by rewrite IH, (proj1 (same_tests_spec _ _ _ H)).
Qed.

Lemma filter_length_agree {A : Type} (f g : A -> bool) (l : list A) :
  Forall (fun x => f x = g x) l ->
  length (filter (fun x => f x = true) l) = length (filter (fun x => g x = true) l).
Proof.
  induction 1 as [|x l Hx _ IH]; [done|]. rewrite !filter_cons, Hx.
  repeat case_decide; simpl; congruence.
Qed.

Lemma same_tests_count solid_box point segs :
  Forall (fun seg => same_tests ar solid_box point seg = true) segs ->
  Rounded.crossing_count ar solid_box point segs
  = crossing_count solid_box point segs.
Proof.
  intros H. unfold Rounded.crossing_count, crossing_count.
  rewrite (filter_length_agree (Rounded.full_crossing ar point)
             (full_crossing point)),
    (filter_length_agree (Rounded.half_crossing ar solid_box point)
       (half_crossing solid_box point)); [done|..];
    eapply Forall_impl; try exact H; intros seg Hs;
    by destruct (same_tests_spec _ _ _ Hs) as (? & ? & ?).
Qed.

Lemma same_tests_point_in_solid solid_box segs cells point :
  Forall (fun seg => same_tests ar solid_box point seg = true) segs ->
  Rounded.point_in_solid ar 2 solid_box segs cells point
  = point_in_solid 2 solid_box segs cells point.
Proof.
  intros H. rewrite rounded_point_in_solid_2d, point_in_solid_2d.
  by rewrite (same_tests_existsb _ _ _ H), (same_tests_count _ _ _ H).
Qed.

End RoundedCrossing.

(** Interior points of a convex polygon, in exact arithmetic: the point
    passes the box test, is level with neither the bottom nor the top of the
    box, and some vertex lies strictly below it and some strictly above. *)
Lemma convex_interior_point_exact (vs : list Point) (p : Point)
    (solid_box : Vector) (segs oriented : list Segment)
    (cells : list (Point -> bool)) :
  convex_polygon vs = true ->
  strictly_inside vs p = true ->
  existsb (fun v => Qlt_bool (coord v 1) (coord p 1)) vs = true ->
  existsb (fun v => Qlt_bool (coord p 1) (coord v 1)) vs = true ->
  outside_box 2 solid_box p = false ->
  Qeq_bool (coord p 1) (vget solid_box 2) = false ->
  Qeq_bool (coord p 1) (vget solid_box 3) = false ->
  segs ≡ₚ oriented ->
  Forall2 oriented_like oriented (polygon_edges vs) ->
  point_in_solid 2 solid_box segs cells p = true.
Proof.
  intros Hpoly Hinside Hbottom Htop Hbox Hb2 Hb3 Hperm Hor.
  destruct (convex_polygon_props vs Hpoly) as (Hconv & Hseg & Hdist).
  assert (Hin : forall e, e ∈ polygon_edges vs -> 0 < cross e.1 e.2 p).
  { intros e He. unfold strictly_inside in Hinside.
    rewrite forallb_forall in Hinside. apply Qlt_bool_iff, Hinside.
    by apply list_elem_of_In. }
  assert (Hlow : exists v, v ∈ vs /\ coord v 1 < coord p 1).
  { apply existsb_exists in Hbottom as (v & Hv & E). exists v.
    split; [by apply list_elem_of_In|]. by apply Qlt_bool_iff. }
  assert (Hhigh : exists v, v ∈ vs /\ coord p 1 < coord v 1).
  { apply existsb_exists in Htop as (v & Hv & E). exists v.
    split; [by apply list_elem_of_In|]. by apply Qlt_bool_iff. }
  apply Qeq_bool_false in Hb2, Hb3.
  assert (Hall : Forall (fun e : Segment => 0 < cross e.1 e.2 p) (polygon_edges vs)).
  { apply Forall_forall. intros e He. by apply Hin. }
  rewrite point_in_solid_2d, Hbox. simpl.
  assert (existsb (on_boundary p) segs = false) as ->.
  { rewrite (existsb_Permutation _ _ _ Hperm).
    apply (Forall2_existsb_false oriented_like _ _ _ _ Hor Hall).
    intros s [a b] [->| ->] Hl; simpl in Hl.
    - apply (left_edge_class solid_box p a b Hl Hb2 Hb3).
    - apply (left_edge_class_flip solid_box p a b Hl Hb2 Hb3). }
  simpl. unfold crossing_count.
  rewrite Hperm.
  rewrite (Forall2_filter_length oriented_like _ (full_crossing p)
             (fun e : Segment => rises_through p e.1 e.2) _ _ Hor Hall),
    (Forall2_filter_length oriented_like _ (half_crossing solid_box p)
             (fun e : Segment => rises_touching p e.1 e.2) _ _ Hor Hall).
  - destruct (crossing_counts vs p Hconv Hseg Hdist Hin Hlow Hhigh)
      as [[-> ->]|[-> ->]]; reflexivity.
  - intros s [a b] [->| ->] Hl; simpl in Hl.
    + apply (left_edge_class solid_box p a b Hl Hb2 Hb3).
    + apply (left_edge_class_flip solid_box p a b Hl Hb2 Hb3).
  - intros s [a b] [->| ->] Hl; simpl in Hl.
    + apply (left_edge_class solid_box p a b Hl Hb2 Hb3).
    + apply (left_edge_class_flip solid_box p a b Hl Hb2 Hb3).
Qed.




(* ===================================================================== *)
(** * Part III: further properties                                        *)
(* ===================================================================== *)

Lemma box_coordinate_step_length v box i :
  length (box_coordinate_step v box i) = length box.
Proof.
  unfold box_coordinate_step, Vector in *.
  repeat case_match; by rewrite ?length_insert.
Qed.

Lemma box_coordinate_step_other v box i k :
  k ≠ (2 * i)%nat -> k ≠ (2 * i + 1)%nat ->
  vget (box_coordinate_step v box i) k = vget box k.
Proof.
  intros H1 H2. unfold box_coordinate_step.
  repeat case_match; by rewrite ?vget_insert_ne.
Qed.

Lemma box_fold_other v (l : list nat) : forall box k,
  (forall i, i ∈ l -> k ≠ (2 * i)%nat /\ k ≠ (2 * i + 1)%nat) ->
  vget (fold_left (box_coordinate_step v) l box) k = vget box k.
Proof.
  induction l as [|i l IH]; intros box k H; simpl; [done|].
  rewrite IH by (intros j Hj; apply H; by apply list_elem_of_further).
  apply box_coordinate_step_other; apply H; apply list_elem_of_here.
Qed.

Lemma box_fold_length v (l : list nat) : forall box,
  length (fold_left (box_coordinate_step v) l box) = length box.
Proof.
  induction l as [|i l IH]; intros box; simpl; [done|].
  by rewrite IH, box_coordinate_step_length.
Qed.

Lemma box_step_fold dim box v :
  box_step dim box v = fold_left (box_coordinate_step v) (seq 0 dim) box.
Proof. done. Qed.

Lemma box_coordinate_step_same v box j :
  (2 * j + 1 < length box)%nat ->
  vget (box_coordinate_step v box j) (2 * j) =
    new_lo (coord v j) (vget box (2 * j)) /\
  vget (box_coordinate_step v box j) (2 * j + 1) =
    new_hi (coord v j) (vget box (2 * j)) (vget box (2 * j + 1)).
Proof.
  intros Hlen. unfold box_coordinate_step, new_lo, new_hi.
  destruct (Qlt_bool (coord v j) (vget box (2 * j))).
  - rewrite vget_insert_eq, vget_insert_ne by lia. done.
  - destruct (Qlt_bool (vget box (2 * j + 1)) (coord v j)); [|done].
    rewrite vget_insert_eq, vget_insert_ne by lia. done.
Qed.

Lemma box_fold_seq_lookup v (n : nat) : forall a box j,
  (a <= j < a + n)%nat -> (2 * j + 1 < length box)%nat ->
  vget (fold_left (box_coordinate_step v) (seq a n) box) (2 * j) =
    new_lo (coord v j) (vget box (2 * j)) /\
  vget (fold_left (box_coordinate_step v) (seq a n) box) (2 * j + 1) =
    new_hi (coord v j) (vget box (2 * j)) (vget box (2 * j + 1)).
Proof.
  induction n as [|n IH]; intros a box j Hj Hlen; [lia|]. cbn [seq fold_left].
  destruct (decide (j = a)) as [->|Hne].
  - rewrite !box_fold_other by (intros i Hi; apply elem_of_seq in Hi; lia).
    by apply box_coordinate_step_same.
  - destruct (IH (S a) (box_coordinate_step v box a) j) as [H1 H2];
      [lia|by rewrite box_coordinate_step_length|].
    rewrite H1, H2. by rewrite !(box_coordinate_step_other v box a) by lia.
Qed.

Lemma box_step_lookup dim box v j :
  (j < dim)%nat -> (2 * j + 1 < length box)%nat ->
  vget (box_step dim box v) (2 * j) = new_lo (coord v j) (vget box (2 * j)) /\
  vget (box_step dim box v) (2 * j + 1) =
    new_hi (coord v j) (vget box (2 * j)) (vget box (2 * j + 1)).
Proof.
  intros Hj Hlen. rewrite box_step_fold. apply box_fold_seq_lookup; [lia|done].
Qed.

Lemma box_step_length dim box v : length (box_step dim box v) = length box.
Proof. rewrite box_step_fold. apply box_fold_length. Qed.

Lemma initial_fold_length first (l : list nat) : forall box : Vector,
  length (fold_left
            (fun box i => <[(2 * i + 1)%nat := coord first i]>
                            (<[(2 * i)%nat := coord first i]> box)) l box)
  = length box.
Proof.
  unfold Vector.
  induction l as [|i l IH]; intros box; simpl; [done|].
  by rewrite IH, !length_insert.
Qed.

Lemma initial_fold_lookup first (n : nat) : forall a (box : Vector) j,
  (a <= j < a + n)%nat -> (2 * j + 1 < length box)%nat ->
  let box' := fold_left
            (fun box i => <[(2 * i + 1)%nat := coord first i]>
                            (<[(2 * i)%nat := coord first i]> box)) (seq a n) box in
  vget box' (2 * j) = coord first j /\ vget box' (2 * j + 1) = coord first j.
Proof.
  induction n as [|n IH]; intros a box j Hj Hlen; [lia|]. cbn [seq fold_left].
  destruct (decide (j = a)) as [->|Hne].
  - assert (Hk : forall (l : list nat) (b : Vector) k,
              (forall i, i ∈ l -> k ≠ (2 * i)%nat /\ k ≠ (2 * i + 1)%nat) ->
              vget (fold_left
                (fun box i => <[(2 * i + 1)%nat := coord first i]>
                                (<[(2 * i)%nat := coord first i]> box)) l b) k
              = vget b k).
    { induction l as [|i l IHl]; intros b k H; cbn [fold_left]; [done|].
      rewrite IHl by (intros i' Hi'; apply H; by apply list_elem_of_further).
      destruct (H i (list_elem_of_here _ _)).
      by rewrite !vget_insert_ne. }
    rewrite !Hk by (intros i Hi; apply elem_of_seq in Hi; lia).
    split.
    + rewrite vget_insert_ne, vget_insert_eq by lia. done.
    + apply vget_insert_eq. unfold Vector in *. rewrite length_insert. lia.
  - apply IH; [lia|]. unfold Vector in *. by rewrite !length_insert.
Qed.

Lemma new_bounds (x lo hi : Q) :
  lo <= hi ->
  new_lo x lo <= lo /\ hi <= new_hi x lo hi /\
  new_lo x lo <= x <= new_hi x lo hi /\ new_lo x lo <= new_hi x lo hi.
Proof.
  intros H. unfold new_lo, new_hi.
  destruct (Qlt_bool x lo) eqn:E1.
  - apply Qlt_bool_iff in E1. repeat split; lra.
  - apply Qlt_bool_false in E1.
    destruct (Qlt_bool hi x) eqn:E2.
    + apply Qlt_bool_iff in E2. repeat split; lra.
    + apply Qlt_bool_false in E2. repeat split; lra.
Qed.

Lemma new_bounds_attained (x lo hi : Q) :
  (new_lo x lo = x \/ new_lo x lo = lo) /\
  (new_hi x lo hi = x \/ new_hi x lo hi = hi).
Proof. unfold new_lo, new_hi. repeat case_match; auto. Qed.

Lemma box_loop_bounds dim (pts : list Point) : forall box : Vector,
  length box = (2 * dim)%nat ->
  (forall j, (j < dim)%nat -> vget box (2 * j) <= vget box (2 * j + 1)) ->
  length (fold_left (box_step dim) pts box) = (2 * dim)%nat /\
  forall j, (j < dim)%nat ->
    vget (fold_left (box_step dim) pts box) (2 * j) <= vget box (2 * j) /\
    vget box (2 * j + 1) <= vget (fold_left (box_step dim) pts box) (2 * j + 1) /\
    vget (fold_left (box_step dim) pts box) (2 * j)
      <= vget (fold_left (box_step dim) pts box) (2 * j + 1) /\
    (forall v, v ∈ pts ->
       vget (fold_left (box_step dim) pts box) (2 * j) <= coord v j
         <= vget (fold_left (box_step dim) pts box) (2 * j + 1)).
Proof.
  induction pts as [|p pts IH]; intros box Hlen Hord; cbn [fold_left].
  - split; [done|]. intros j Hj. repeat split; try apply Qle_refl.
    + by apply Hord.
    + by apply elem_of_nil in H.
    + by apply elem_of_nil in H.
  - assert (Hstep : forall j, (j < dim)%nat ->
      vget (box_step dim box p) (2 * j) <= vget box (2 * j) /\
      vget box (2 * j + 1) <= vget (box_step dim box p) (2 * j + 1) /\
      vget (box_step dim box p) (2 * j) <= coord p j
        <= vget (box_step dim box p) (2 * j + 1) /\
      vget (box_step dim box p) (2 * j) <= vget (box_step dim box p) (2 * j + 1)).
    { intros j Hj. destruct (box_step_lookup dim box p j Hj) as [-> ->]; [lia|].
      apply new_bounds. by apply Hord. }
    destruct (IH (box_step dim box p)) as [Hl Hb].
    { by rewrite box_step_length. }
    { intros j Hj. by apply Hstep. }
    split; [done|]. intros j Hj.
    destruct (Hb j Hj) as (H1 & H2 & H3 & H4).
    destruct (Hstep j Hj) as (S1 & S2 & S3 & S4).
    repeat split; try lra.
    + apply elem_of_cons in H as [->|H]; [lra|]. by apply H4.
    + apply elem_of_cons in H as [->|H]; [lra|]. by apply H4.
Qed.

Lemma box_loop_attained dim (pts : list Point) : forall (box : Vector) (S : list Point),
  length box = (2 * dim)%nat ->
  (forall j, (j < dim)%nat ->
     (exists v, v ∈ S /\ vget box (2 * j) = coord v j) /\
     (exists w, w ∈ S /\ vget box (2 * j + 1) = coord w j)) ->
  forall j, (j < dim)%nat ->
    (exists v, v ∈ S ++ pts /\
       vget (fold_left (box_step dim) pts box) (2 * j) = coord v j) /\
    (exists w, w ∈ S ++ pts /\
       vget (fold_left (box_step dim) pts box) (2 * j + 1) = coord w j).
Proof.
  induction pts as [|p pts IH]; intros box S Hlen Hatt j Hj; cbn [fold_left].
  - rewrite app_nil_r. by apply Hatt.
  - replace (S ++ p :: pts) with ((S ++ [p]) ++ pts) by (by rewrite <- app_assoc).
    apply IH; [by rewrite box_step_length| |done].
    intros k Hk. destruct (box_step_lookup dim box p k Hk) as [-> ->]; [lia|].
    destruct (Hatt k Hk) as [(v & Hv & Ev) (w & Hw & Ew)].
    destruct (new_bounds_attained (coord p k) (vget box (2 * k))
                (vget box (2 * k + 1))) as [[->| ->] [->| ->]];
      split;
      first [exists p; split; [|done];
             rewrite elem_of_app, list_elem_of_singleton; by right
            |exists v; split; [|done]; rewrite elem_of_app; by left
            |exists w; split; [|done]; rewrite elem_of_app; by left].
Qed.

Lemma initial_box_spec dim first :
  length (initial_box dim first) = (2 * dim)%nat /\
  forall j, (j < dim)%nat ->
    vget (initial_box dim first) (2 * j) = coord first j /\
    vget (initial_box dim first) (2 * j + 1) = coord first j.
Proof.
  unfold initial_box. split.
  - by rewrite initial_fold_length, length_replicate.
  - intros j Hj. apply initial_fold_lookup; [lia|].
    rewrite length_replicate. lia.
Qed.

Lemma update_solid_box_unfold dim u cells vertices :
  update_solid_box dim u cells vertices =
    fold_left (box_step dim) (move_solid_mesh dim true u cells vertices)
      (initial_box dim (hd [] (move_solid_mesh dim true u cells vertices))).
Proof. done. Qed.

(** X1. Whatever the rounding of the additions, the box of
    [update_solid_box] contains, in each of the [dim] coordinates, every
    vertex of the vertex table as this call of [update_solid_box] moved it
    forward, and has [2 * dim] entries.  (The box is not recomputed when the
    mesh is moved forward again: see [update_solid_box_drift].) *)
Theorem update_solid_box_contains (ar : Arithmetic) (dim : nat) (u : Vector)
    (cells : list SolidCell) (vertices : list Point) (v : Point) :
  v ∈ Rounded.move_solid_mesh ar dim true u cells vertices ->
  (forall i, (i < dim)%nat ->
     vget (Rounded.update_solid_box ar dim u cells vertices).1 (2 * i)
       <= coord v i
       <= vget (Rounded.update_solid_box ar dim u cells vertices).1 (2 * i + 1)) /\
  length (Rounded.update_solid_box ar dim u cells vertices).1 = (2 * dim)%nat.
Proof.
  intros Hv. unfold Rounded.update_solid_box. cbn [fst].
  set (moved := Rounded.move_solid_mesh ar dim true u cells vertices) in *.
  destruct (initial_box_spec dim (hd [] moved)) as [Hlen Hinit].
  destruct (box_loop_bounds dim moved (initial_box dim (hd [] moved)) Hlen)
    as [Hl Hb].
  { intros j Hj. destruct (Hinit j Hj) as [-> ->]. apply Qle_refl. }
  split; [|done].
  intros i Hi. destruct (Hb i Hi) as (_ & _ & _ & H). by apply H.
Qed.

(** The vertex table that [update_solid_box] leaves behind is the table
    moved forward and back, which in doubles is not the table it started
    from; moved forward once more, as [find_fluid_bc] does, a vertex can lie
    outside the box.  In binary64, on the decimal square: the bottom of the
    box is 0.25, and the first vertex then lies at 0.24999999999999997. *)
Lemma update_solid_box_drift :
  let box := (Rounded.update_solid_box binary64 2 decimal_displacement
                [square_cell] decimal_vertices).1 in
  let restored := (Rounded.update_solid_box binary64 2 decimal_displacement
                     [square_cell] decimal_vertices).2 in
  let again := Rounded.move_solid_mesh binary64 2 true decimal_displacement
                 [square_cell] restored in
  vget box 2 = 1 # 4 /\
  again !! 0%nat = Some [3602879701896397 # 9007199254740992;
                         9007199254740991 # 36028797018963968] /\
  outside_box 2 box [3602879701896397 # 9007199254740992;
                     9007199254740991 # 36028797018963968] = true.
Proof.
  split; [vm_compute; reflexivity|].
  split; [vm_compute; reflexivity|].
  vm_compute; reflexivity.
Qed.

(** X2. The box of [update_solid_box] is tight: on a mesh with at least one
    vertex each lower bound and each upper bound is the coordinate of some
    vertex of the mesh moved forward. *)
Theorem update_solid_box_tight (dim : nat) (u : Vector)
    (cells : list SolidCell) (vertices : list Point) (i : nat) :
  vertices <> [] -> (i < dim)%nat ->
  (exists v, v ∈ move_solid_mesh dim true u cells vertices /\
     vget (update_solid_box dim u cells vertices) (2 * i) = coord v i) /\
  (exists w, w ∈ move_solid_mesh dim true u cells vertices /\
     vget (update_solid_box dim u cells vertices) (2 * i + 1) = coord w i).
Proof.
  intros Hne Hi. rewrite update_solid_box_unfold.
  pose proof (move_solid_mesh_length dim true u cells vertices) as Hlen.
  set (moved := move_solid_mesh dim true u cells vertices) in *.
  destruct moved as [|first rest] eqn:Em.
  { destruct vertices; [done|]. simpl in Hlen. lia. }
  cbn [hd].
  destruct (initial_box_spec dim first) as [Hl Hinit].
  destruct (box_loop_attained dim (first :: rest) (initial_box dim first) [first] Hl)
    with (j := i) as [(v & Hv & Ev) (w & Hw & Ew)]; [|done|].
  { intros j Hj. destruct (Hinit j Hj) as [-> ->].
    split; exists first; split; try done; apply list_elem_of_here. }
  rewrite elem_of_app, list_elem_of_singleton in Hv, Hw.
  split; [exists v|exists w]; (split; [|done]).
  - destruct Hv as [->|Hv]; [apply list_elem_of_here|done].
  - destruct Hw as [->|Hw]; [apply list_elem_of_here|done].
Qed.

Lemma add_line_lookup_eq line (c : gmap nat Q) :
  add_line line c !! line = Some (default 0 (c !! line)).
Proof.
  unfold add_line. destruct (c !! line) eqn:E; simpl; [done|].
  by rewrite lookup_insert_eq.
Qed.

Lemma support_point_step_paired env c st i st' :
  support_point_step env c st i = Ok st' -> lines_paired st -> lines_paired st'.
Proof.
  intros H Hinv dof. unfold_support_step H; simpl in *; try by apply Hinv.
  unfold set_inhomogeneity.
  destruct (decide (nth i (dof_indices c) 0%nat = dof)) as [<-|Hne].
  - right. rewrite lookup_insert_eq. split; [by eexists|].
    rewrite add_line_lookup_eq.
    destruct (Hinv (nth i (dof_indices c) 0%nat)) as [[_ ->]|[_ ->]]; done.
  - rewrite lookup_insert_ne, !add_line_lookup_ne by done. apply Hinv.
Qed.

Lemma support_loop_paired env c l : forall st st',
  foldM (support_point_step env c) st l = Ok st' ->
  lines_paired st -> lines_paired st'.
Proof.
  induction l as [|i l IH]; intros st st' H Hinv; simpl in H.
  - by injection H as <-.
  - destruct (support_point_step env c st i) as [st1|] eqn:E; [|done].
    simpl in H. eapply IH; [done|]. by eapply support_point_step_paired.
Qed.

Lemma fluid_cell_step_paired env st c st' :
  fluid_cell_step env st c = Ok st' -> lines_paired st -> lines_paired st'.
Proof.
  unfold fluid_cell_step. destruct (is_artificial c).
  - by intros [= <-].
  - destruct (foldM _ st _) as [st1|] eqn:E; [|done]. simpl.
    intros H Hinv. pose proof (support_loop_paired _ _ _ _ _ E Hinv) as H1.
    destruct (negb (is_locally_owned c)); injection H as <-; [done|].
    intros d. apply H1.
Qed.

Lemma fluid_cells_paired env l : forall st st',
  foldM (fluid_cell_step env) st l = Ok st' ->
  lines_paired st -> lines_paired st'.
Proof.
  induction l as [|c l IH]; intros st st' H Hinv; simpl in H.
  - by injection H as <-.
  - destruct (fluid_cell_step env st c) as [st1|] eqn:E; [|done].
    simpl in H. eapply IH; [done|]. by eapply fluid_cell_step_paired.
Qed.

(** X5. When [find_fluid_bc] completes, a dof has a line in the inner nonzero
    constraints exactly when it has one in the inner zero constraints, every
    line of the inner zero constraints is homogeneous, and a dof that the
    zero constraints of the fluid solver did not hold before gets, if
    anything, inhomogeneity zero there. *)
Theorem find_fluid_bc_lines_paired
    (dim : nat) (params : AllParameters) (queries : SolidQueries)
    (fe : FiniteElement) (present_solution : Vector) (solid : SolidSolver)
    (solid_box : Vector) (solid_boundaries : list Face)
    (fluid_cells : list FluidCell) (fluid_nonzero fluid_zero : gmap nat Q)
    (hints : gmap (nat * nat) nat) (props : gmap nat (list FluidCellProperty))
    (res : FluidBCResult) (dof : nat) :
  find_fluid_bc dim params queries fe present_solution solid solid_box
    solid_boundaries fluid_cells fluid_nonzero fluid_zero hints props = Ok res ->
  (is_Some (final_inner_nonzero res !! dof)
   <-> is_Some (final_inner_zero res !! dof)) /\
  (forall value, final_inner_zero res !! dof = Some value -> value = 0) /\
  (fluid_zero !! dof = None -> forall value,
     zero_constraints res !! dof = Some value -> value = 0).
Proof.
  intros Hrun. unfold find_fluid_bc in Hrun.
  destruct (foldM _ _ fluid_cells) as [st|] eqn:Hall; [|done].
  simpl in Hrun. injection Hrun as <-. simpl.
  assert (Hp : lines_paired st).
  { eapply fluid_cells_paired; [exact Hall|].
    intros d. left. simpl. by rewrite !lookup_empty. }
  unfold merge_left_object_wins.
  destruct (Hp dof) as [[H1 H2]|[H1 H2]].
  - rewrite H1, H2. split; [|split].
    + split; intros [x Hx]; done.
    + by intros v Hv.
    + intros Hnone v. rewrite lookup_union_r by done. by rewrite H2.
  - rewrite H2. split; [|split].
    + split; intros _; [by eexists|done].
    + intros v Hv. by injection Hv as <-.
    + intros Hnone v. rewrite lookup_union_r by done. rewrite H2. by intros [= <-].
Qed.

Lemma support_point_step_sourced env cells c st i st' :
  c ∈ cells -> is_artificial c = false ->
  (i < length (unit_support_points (env_fe env)))%nat ->
  support_point_step env c st i = Ok st' ->
  lines_sourced env cells st -> lines_sourced env cells st'.
Proof.
  intros Hc Hart Hi H Hinv dof value. unfold support_point_step in H.
  destruct (decide (nth i (dof_indices c) 0%nat ∈ dof_touched st));
    [injection H as <-; apply Hinv|].
  destruct (Nat.eqb (base_group (env_fe env) i) 1) eqn:Hg;
    [injection H as <-; apply Hinv|].
  destruct (in_cell_support_point _ _) eqn:Hin; [injection H as <-; apply Hinv|].
  destruct (env_point_in_solid env _) eqn:Hsolid; simpl in H;
    [|injection H as <-; apply Hinv].
  destruct (interpolator_found_cell _ _ _ _) eqn:Hf; simpl in H; [|done].
  injection H as <-. simpl. unfold set_inhomogeneity.
  destruct (decide (nth i (dof_indices c) 0%nat = dof)) as [<-|Hne].
  - rewrite lookup_insert_eq. intros [= <-].
    exists c, i. eexists. repeat split; try done.
    by apply Nat.eqb_neq.
  - rewrite lookup_insert_ne, add_line_lookup_ne by done. apply Hinv.
Qed.

Lemma support_loop_sourced env cells c : forall l st st',
  c ∈ cells -> is_artificial c = false ->
  Forall (fun i => (i < length (unit_support_points (env_fe env)))%nat) l ->
  foldM (support_point_step env c) st l = Ok st' ->
  lines_sourced env cells st -> lines_sourced env cells st'.
Proof.
  induction l as [|i l IH]; intros st st' Hc Hart Hl H Hinv; simpl in H.
  - by injection H as <-.
  - apply Forall_cons in Hl as [Hi Hl].
    destruct (support_point_step env c st i) as [st1|] eqn:E; [|done].
    simpl in H. eapply IH; [done..|]. by eapply support_point_step_sourced.
Qed.

Lemma fluid_cell_step_sourced env cells st c st' :
  c ∈ cells ->
  fluid_cell_step env st c = Ok st' ->
  lines_sourced env cells st -> lines_sourced env cells st'.
Proof.
  intros Hc. unfold fluid_cell_step. destruct (is_artificial c) eqn:Hart.
  - by intros [= <-].
  - destruct (foldM _ st _) as [st1|] eqn:E; [|done]. simpl.
    intros H Hinv.
    assert (H1 : lines_sourced env cells st1).
    { eapply support_loop_sourced; [exact Hc|exact Hart| |exact E|exact Hinv].
      apply Forall_forall. intros i Hi. apply elem_of_seq in Hi. lia. }
    destruct (negb (is_locally_owned c)); injection H as <-; [done|].
    intros d v. apply H1.
Qed.

Lemma fluid_cells_sourced env cells : forall l st st',
  l ⊆ cells ->
  foldM (fluid_cell_step env) st l = Ok st' ->
  lines_sourced env cells st -> lines_sourced env cells st'.
Proof.
  induction l as [|c l IH]; intros st st' Hsub H Hinv; simpl in H.
  - by injection H as <-.
  - destruct (fluid_cell_step env st c) as [st1|] eqn:E; [|done].
    simpl in H. eapply IH; [|done|].
    + intros x Hx. apply Hsub. by apply list_elem_of_further.
    + eapply fluid_cell_step_sourced; [|done..]. apply Hsub, list_elem_of_here.
Qed.

(** X6. A dof that the nonzero constraints of the fluid solver constrain
    after [find_fluid_bc] was constrained by the solver before, or it is a
    velocity dof of a cell that is not artificial, at a support point that
    is not taken for an in-cell point, is classified inside the solid and was
    found by the interpolator; its inhomogeneity is then the interpolated
    solid velocity component minus [present_solution] at the dof.  No
    pressure dof and no point outside the solid gets a new line. *)
Theorem find_fluid_bc_line_source
    (dim : nat) (params : AllParameters) (queries : SolidQueries)
    (fe : FiniteElement) (present_solution : Vector) (solid : SolidSolver)
    (solid_box : Vector) (solid_boundaries : list Face)
    (fluid_cells : list FluidCell) (fluid_nonzero fluid_zero : gmap nat Q)
    (hints : gmap (nat * nat) nat) (props : gmap nat (list FluidCellProperty))
    (res : FluidBCResult) (dof : nat) :
  let moved := move_solid_mesh dim true (current_displacement solid)
                 (solid_cells solid) (solid_vertices solid) in
  let env := mkFluidBCEnv dim params queries fe present_solution solid moved
               solid_box solid_boundaries in
  find_fluid_bc dim params queries fe present_solution solid solid_box
    solid_boundaries fluid_cells fluid_nonzero fluid_zero hints props = Ok res ->
  is_Some (nonzero_constraints res !! dof) ->
  is_Some (fluid_nonzero !! dof) \/
  (fluid_nonzero !! dof = None /\
   exists value, nonzero_constraints res !! dof = Some value /\
     line_source env fluid_cells dof value).
Proof.
  intros moved env Hrun [value Hv]. unfold find_fluid_bc in Hrun.
  fold moved in Hrun. fold env in Hrun.
  destruct (foldM _ _ fluid_cells) as [st|] eqn:Hall; [|done].
  simpl in Hrun. injection Hrun as <-. simpl in Hv |- *.
  unfold merge_left_object_wins in Hv |- *.
  apply lookup_union_Some_raw in Hv as [Hv|[Hnone Hv]]; [left; by eexists|right].
  split; [done|]. exists value. split; [by rewrite lookup_union_r|].
  eapply (fluid_cells_sourced env fluid_cells fluid_cells); [done|exact Hall| |exact Hv].
  intros d v. simpl. by rewrite lookup_empty.
Qed.

Lemma quadrature_point_record_indicator (env : FluidBCEnv) (c : FluidCell) (q : nat) :
  quadrature_point_record env c q =
    mkFluidCellProperty
      (b2n (env_point_in_solid env (nth q (quadrature_points c) [])))
      (zero_tensor1 (env_dim env)) (zero_tensor2 (env_dim env)).
Proof.
  destruct (quadrature_point_record_zero env c q) as [Ha Hs].
  assert (Hi : indicator (quadrature_point_record env c q)
               = b2n (env_point_in_solid env (nth q (quadrature_points c) []))).
  { unfold quadrature_point_record.
    destruct (env_point_in_solid env _); simpl; [|done].
    set (r0 := mkFluidCellProperty 1 _ _).
    set (f := fun (r : FluidCellProperty) (i : nat) => _).
    assert (H : forall l, fold_left f l r0 = r0).
    { induction l as [|i l IH]; simpl; [done|apply IH]. }
    by rewrite H. }
  destruct (quadrature_point_record env c q) as [i a s]. simpl in *.
  by rewrite Ha, Hs, Hi.
Qed.

Lemma support_point_step_property env c st i st' :
  support_point_step env c st i = Ok st' -> cell_property st' = cell_property st.
Proof. intros H. by unfold_support_step H. Qed.

Lemma support_loop_property env c l : forall st st',
  foldM (support_point_step env c) st l = Ok st' ->
  cell_property st' = cell_property st.
Proof.
  induction l as [|i l IH]; intros st st' H; simpl in H.
  - by injection H as <-.
  - destruct (support_point_step env c st i) as [st1|] eqn:E; [|done].
    simpl in H. rewrite (IH _ _ H). by eapply support_point_step_property.
Qed.

Lemma fluid_cell_step_property env st c st' :
  fluid_cell_step env st c = Ok st' ->
  cell_property st' =
    if negb (is_artificial c) && is_locally_owned c
    then <[cell_id c := indicator_records env c]> (cell_property st)
    else cell_property st.
Proof.
  unfold fluid_cell_step. destruct (is_artificial c); simpl.
  - by intros [= <-].
  - destruct (foldM _ st _) as [st1|] eqn:E; [|done]. simpl.
    apply support_loop_property in E.
    destruct (is_locally_owned c); simpl; intros [= <-]; simpl; [|done].
    rewrite E. f_equal. unfold indicator_records.
    apply map_ext. intros q. apply quadrature_point_record_indicator.
Qed.

Lemma fluid_cells_property_other env id : forall l st st',
  (forall c, c ∈ l -> cell_id c = id ->
     is_artificial c = true \/ is_locally_owned c = false) ->
  foldM (fluid_cell_step env) st l = Ok st' ->
  cell_property st' !! id = cell_property st !! id.
Proof.
  induction l as [|c l IH]; intros st st' Hno H; simpl in H.
  - by injection H as <-.
  - destruct (fluid_cell_step env st c) as [st1|] eqn:E; [|done]. simpl in H.
    rewrite (IH st1 st') by
      (try done; intros c' Hc'; apply Hno; by apply list_elem_of_further).
    apply fluid_cell_step_property in E. rewrite E.
    destruct (negb (is_artificial c) && is_locally_owned c) eqn:Hb; [|done].
    destruct (decide (cell_id c = id)) as [Hid|Hne];
      [|by rewrite lookup_insert_ne].
    destruct (Hno c (list_elem_of_here _ _) Hid) as [Ha|Ho];
      rewrite ?Ha, ?Ho, ?andb_false_r in Hb; done.
Qed.

Lemma fluid_cells_property_own env c : forall l st st',
  NoDup (map cell_id l) -> c ∈ l ->
  is_artificial c = false -> is_locally_owned c = true ->
  foldM (fluid_cell_step env) st l = Ok st' ->
  cell_property st' !! cell_id c = Some (indicator_records env c).
Proof.
  induction l as [|c0 l IH]; intros st st' Hnd Hc Hart Hown H; simpl in H.
  - by apply elem_of_nil in Hc.
  - destruct (fluid_cell_step env st c0) as [st1|] eqn:E; [|done]. simpl in H.
    simpl in Hnd. apply NoDup_cons in Hnd as [Hnotin Hnd].
    apply elem_of_cons in Hc as [->|Hc].
    + rewrite (fluid_cells_property_other env (cell_id c0) l st1 st'); [|
        |done].
      * apply fluid_cell_step_property in E. rewrite E, Hart, Hown. simpl.
        by rewrite lookup_insert_eq.
      * intros c' Hc' Hid. exfalso. apply Hnotin. rewrite <- Hid.
        by apply list_elem_of_fmap_2.
    + by eapply IH.
Qed.

(** X7. When [find_fluid_bc] completes on cells with distinct ids, the record
    of every locally owned cell that is not artificial holds, at each
    quadrature point, the classification of that point by [point_in_solid] as
    the indicator and zero force terms; the records of ghost and artificial
    cells are left as they were. *)
Theorem find_fluid_bc_cell_records
    (dim : nat) (params : AllParameters) (queries : SolidQueries)
    (fe : FiniteElement) (present_solution : Vector) (solid : SolidSolver)
    (solid_box : Vector) (solid_boundaries : list Face)
    (fluid_cells : list FluidCell) (fluid_nonzero fluid_zero : gmap nat Q)
    (hints : gmap (nat * nat) nat) (props : gmap nat (list FluidCellProperty))
    (res : FluidBCResult) :
  let moved := move_solid_mesh dim true (current_displacement solid)
                 (solid_cells solid) (solid_vertices solid) in
  let env := mkFluidBCEnv dim params queries fe present_solution solid moved
               solid_box solid_boundaries in
  NoDup (map cell_id fluid_cells) ->
  find_fluid_bc dim params queries fe present_solution solid solid_box
    solid_boundaries fluid_cells fluid_nonzero fluid_zero hints props = Ok res ->
  (forall c, c ∈ fluid_cells ->
     is_artificial c = false -> is_locally_owned c = true ->
     new_cell_property res !! cell_id c = Some (indicator_records env c)) /\
  (forall id,
     (forall c, c ∈ fluid_cells -> cell_id c = id ->
        is_artificial c = true \/ is_locally_owned c = false) ->
     new_cell_property res !! id = props !! id).
Proof.
  intros moved env Hnd Hrun. unfold find_fluid_bc in Hrun.
  fold moved in Hrun. fold env in Hrun.
  destruct (foldM _ _ fluid_cells) as [st|] eqn:Hall; [|done].
  simpl in Hrun. injection Hrun as <-. simpl. split.
  - intros c Hc Hart Hown. by eapply fluid_cells_property_own.
  - intros id Hno. by rewrite (fluid_cells_property_other env id _ _ _ Hno Hall).
Qed.

Lemma support_point_step_abort env c st i e :
  support_point_step env c st i = Throw e ->
  e = ExcMessageAt "Cannot find point in solid: " (nth i (support_points c) []) /\
  (nth i (dof_indices c) 0%nat ∉ dof_touched st) /\
  base_group (env_fe env) i ≠ 1%nat /\
  in_cell_support_point (env_dim env)
    (nth i (unit_support_points (env_fe env)) []) = false /\
  env_point_in_solid env (nth i (support_points c) []) = true /\
  interpolator_found_cell (env_queries env) (env_moved_vertices env)
    (nth i (support_points c) [])
    (locator_search (env_queries env) (env_moved_vertices env)
       (nth i (support_points c) []) (hint_of st c i)) = false.
Proof.
  intros H. unfold support_point_step in H.
  destruct (decide (nth i (dof_indices c) 0%nat ∈ dof_touched st)) as [|Hnt];
    [done|].
  destruct (Nat.eqb (base_group (env_fe env) i) 1) eqn:Hg; [done|].
  destruct (in_cell_support_point _ _) eqn:Hin; [done|].
  destruct (env_point_in_solid env _) eqn:Hs; simpl in H; [|done].
  destruct (interpolator_found_cell _ _ _ _) eqn:Hf; simpl in H; [done|].
  injection H as <-. repeat split; try done. by apply Nat.eqb_neq.
Qed.

Lemma support_loop_abort env c e : forall l st,
  foldM (support_point_step env c) st l = Throw e ->
  exists i st1, i ∈ l /\ support_point_step env c st1 i = Throw e.
Proof.
  induction l as [|i l IH]; intros st H; simpl in H; [done|].
  destruct (support_point_step env c st i) as [st1|e1] eqn:E; simpl in H.
  - destruct (IH _ H) as (j & st2 & Hj & He). exists j, st2.
    split; [by apply list_elem_of_further|done].
  - injection H as ->. exists i, st. split; [apply list_elem_of_here|done].
Qed.

Lemma fluid_cells_abort env e : forall l st,
  foldM (fluid_cell_step env) st l = Throw e ->
  exists c i st1, c ∈ l /\ is_artificial c = false /\
    (i < length (unit_support_points (env_fe env)))%nat /\
    support_point_step env c st1 i = Throw e.
Proof.
  induction l as [|c l IH]; intros st H; simpl in H; [done|].
  destruct (fluid_cell_step env st c) as [st1|e1] eqn:E; simpl in H.
  - destruct (IH _ H) as (c' & i & st2 & Hc & Hrest). exists c', i, st2.
    split; [by apply list_elem_of_further|done].
  - injection H as ->. unfold fluid_cell_step in E.
    destruct (is_artificial c) eqn:Hart; [done|].
    destruct (foldM _ st _) as [st1|e1] eqn:El; simpl in E.
    + by destruct (negb (is_locally_owned c)).
    + injection E as ->. apply support_loop_abort in El as (i & st1 & Hi & He).
      apply elem_of_seq in Hi. exists c, i, st1.
      split; [apply list_elem_of_here|]. repeat split; try done. lia.
Qed.

(** X8. When [find_fluid_bc] aborts with "Cannot find point in solid: ",
    the point of the message is a support point of a velocity dof of a cell
    that is not artificial, not taken for an in-cell point, classified inside
    the solid by [point_in_solid], and not found by the interpolator. *)
Theorem find_fluid_bc_abort_point
    (dim : nat) (params : AllParameters) (queries : SolidQueries)
    (fe : FiniteElement) (present_solution : Vector) (solid : SolidSolver)
    (solid_box : Vector) (solid_boundaries : list Face)
    (fluid_cells : list FluidCell) (fluid_nonzero fluid_zero : gmap nat Q)
    (hints : gmap (nat * nat) nat) (props : gmap nat (list FluidCellProperty))
    (point : Point) :
  let moved := move_solid_mesh dim true (current_displacement solid)
                 (solid_cells solid) (solid_vertices solid) in
  let env := mkFluidBCEnv dim params queries fe present_solution solid moved
               solid_box solid_boundaries in
  find_fluid_bc dim params queries fe present_solution solid solid_box
    solid_boundaries fluid_cells fluid_nonzero fluid_zero hints props
    = Throw (ExcMessageAt "Cannot find point in solid: " point) ->
  exists c i, c ∈ fluid_cells /\ is_artificial c = false /\
    (i < length (unit_support_points fe))%nat /\
    point = nth i (support_points c) [] /\
    base_group fe i ≠ 1%nat /\
    in_cell_support_point dim (nth i (unit_support_points fe) []) = false /\
    env_point_in_solid env point = true /\
    exists hint, interpolator_found_cell queries moved point hint = false.
Proof.
  intros moved env H. unfold find_fluid_bc in H. fold moved in H. fold env in H.
  destruct (foldM _ _ fluid_cells) as [st|e1] eqn:Hall; simpl in H; [done|].
  injection H as ->.
  apply fluid_cells_abort in Hall as (c & i & st1 & Hc & Hart & Hi & Hstep).
  apply support_point_step_abort in Hstep as (He & _ & Hg & Hin & Hs & Hf).
  injection He as ->.
  exists c, i. repeat split; try done. eexists. exact Hf.
Qed.

(** X9. [find_solid_bc] keeps the number of records of every cell; at every
    quadrature point of a boundary face it stores the traction of the summed
    fluid stress on the mesh moved forward, and it leaves the records of
    faces that are not at the boundary, and any record beyond those of the
    faces, as they were. *)
Theorem find_solid_bc_records (dim : nat) (params : AllParameters)
    (ranks : list FluidRank) (n : nat) (solid : SolidSolver)
    (tractions : list (list Point)) (k : nat) (c : SolidCell) (ptr : list Point) :
  let moved := move_solid_mesh dim true (current_displacement solid)
                 (solid_cells solid) (solid_vertices solid) in
  solid_cells solid !! k = Some c -> tractions !! k = Some ptr ->
  exists ptr',
    find_solid_bc dim params ranks n solid tractions !! k = Some ptr' /\
    length ptr' = length ptr /\
    (forall f q face,
       (f < faces_per_cell dim)%nat -> faces c !! f = Some face ->
       (q < n)%nat -> (f * n + q < length ptr)%nat ->
       ptr' !! (f * n + q)%nat =
         if at_boundary face
         then Some (face_traction dim params ranks
                      (face_quadrature_point face moved q)
                      (face_normal_vector face moved q))
         else ptr !! (f * n + q)%nat) /\
    (forall idx, (faces_per_cell dim * n <= idx)%nat -> ptr' !! idx = ptr !! idx).
Proof.
  intros moved Hc Hp. unfold find_solid_bc. fold moved.
  eexists. split; [|split; [|split]].
  - rewrite lookup_zip_with, Hc. simpl. rewrite Hp. simpl. reflexivity.
  - apply solid_faces_length.
  - intros f q face Hf Hface Hq Hlen. by apply solid_faces_lookup.
  - intros idx Hidx.
    assert (H : forall m, (m <= faces_per_cell dim)%nat ->
              fold_left (solid_face_step dim params ranks n moved c) (seq 0 m) ptr
                !! idx = ptr !! idx).
    { induction m as [|m IH]; intros Hm; [done|].
      rewrite seq_S, fold_left_app. simpl. rewrite <- IH by lia.
      unfold solid_face_step at 1.
      destruct (faces c !! m) as [face|]; [|done].
      destruct (at_boundary face); [|done].
      apply (fold_insert_seq_out
               (fun q => face_traction dim params ranks
                           (face_quadrature_point face moved q)
                           (face_normal_vector face moved q)) (m * n)).
      right. nia. }
    by apply H.
Qed.

Lemma coord_map_seq (f : nat -> Q) (dim i : nat) :
  (i < dim)%nat -> coord (map f (seq 0 dim)) i = f i.
Proof.
  intros Hi. unfold coord. rewrite nth_lookup, list_lookup_fmap.
  by rewrite lookup_seq_lt.
Qed.

Lemma tensor2_get_init (f : nat -> nat -> Q) (dim i j : nat) :
  (i < dim)%nat -> (j < dim)%nat -> tensor2_get (tensor2_init dim f) i j = f i j.
Proof.
  intros Hi Hj. unfold tensor2_get, tensor2_init.
  rewrite (nth_lookup _ i), list_lookup_fmap, lookup_seq_lt by done. simpl.
  rewrite nth_lookup, list_lookup_fmap, lookup_seq_lt by done. done.
Qed.

Lemma sum_single_term (h : nat -> Q) (i a n : nat) :
  (forall j, (a <= j < a + n)%nat -> j <> i -> h j == 0) ->
  fold_left (fun acc j => acc + h j) (seq a n) 0
  == if decide (a <= i < a + n)%nat then h i else 0.
Proof.
  induction n as [|n IH]; intros Hz.
  - simpl. case_decide; [lia|reflexivity].
  - rewrite seq_S, fold_left_app. simpl. rewrite IH by (intros j Hj; apply Hz; lia).
    destruct (decide (i = a + n)%nat) as [->|Hne].
    + rewrite decide_False, decide_True by lia. ring.
    + rewrite (Hz (a + n)%nat) by (lia || done).
      repeat case_decide; try lia; ring.
Qed.

Lemma sum_pointwise (h h' : nat -> Q) (l : list nat) : forall acc acc',
  acc == acc' -> (forall j, j ∈ l -> h j == h' j) ->
  fold_left (fun acc j => acc + h j) l acc
  == fold_left (fun acc j => acc + h' j) l acc'.
Proof.
  induction l as [|j l IH]; intros acc acc' Ha Hh; simpl; [done|].
  apply IH.
  - rewrite Ha, (Hh j) by apply list_elem_of_here. reflexivity.
  - intros j' Hj'. apply Hh. by apply list_elem_of_further.
Qed.

(** X10. Where the summed velocity gradient of the fluid vanishes, the
    traction [find_solid_bc] stores is the pressure load: minus the summed
    pressure times the normal, component by component. *)
Theorem find_solid_bc_pressure_load (dim : nat) (params : AllParameters)
    (ranks : list FluidRank) (q_point normal : Point) (i : nat) :
  (forall a b, (a < dim)%nat -> (b < dim)%nat ->
     global_gradient ranks q_point a b == 0) ->
  (i < dim)%nat ->
  coord (face_traction dim params ranks q_point normal) i
  == - global_value ranks q_point dim * coord normal i.
Proof.
  intros Hgrad Hi. unfold face_traction, tensor2_apply.
  rewrite coord_map_seq by done.
  rewrite (sum_pointwise _
             (fun j => - global_value ranks q_point dim * identity_entry i j
                       * coord normal j) _ 0 0).
  - rewrite (sum_single_term _ i).
    + rewrite decide_True by lia. unfold identity_entry.
      rewrite Nat.eqb_refl. ring.
    + intros j _ Hne. unfold identity_entry.
      rewrite (proj2 (Nat.eqb_neq i j)) by done. ring.
  - reflexivity.
  - intros j Hj. apply elem_of_seq in Hj.
    rewrite !tensor2_get_init by lia.
    rewrite !Hgrad by lia. field.
Qed.

(** X11. In every simulation mode the Neumann face loop of
    [SharedLinearElasticity::assemble_system], with its doubled
    [at_boundary] test, turns the [local_rhs] of a cell's volume loop into
    the same [local_rhs] as that of [SharedHyperElasticity::assemble_system]
    does; and a shared solver assembles,
    on the cells of its own subdomain, what the serial solver assembles, and
    passes over the other cells. *)
Theorem assemble_system_same_neumann_loop (params : AllParameters)
    (sh : AssemblyShape) (this_mpi_process : nat) (cells : list AssemblyCell) :
  assemble_rhs_shared_linear params sh this_mpi_process cells
  = assemble_rhs_shared_hyper params sh this_mpi_process cells /\
  forall k c, cells !! k = Some c ->
    assemble_rhs_shared_hyper params sh this_mpi_process cells !! k =
      if Nat.eqb (asm_subdomain_id c) this_mpi_process
      then assemble_rhs_hyper params sh cells !! k
      else Some None.
Proof.
  unfold assemble_rhs_shared_linear, assemble_rhs_shared_hyper, assemble_rhs_hyper.
  split.
  - apply map_ext. intros c. rewrite neumann_cell_linear_same.
    by destruct (Nat.eqb _ _).
  - intros k c Hk. rewrite !list_lookup_fmap, Hk. simpl.
    by destruct (Nat.eqb _ _).
Qed.

Section StandAlone.
Context (params : AllParameters) (sh : AssemblyShape).
Hypothesis Hsolid : is_fsi params = false.

Lemma neumann_q_loop_pressure c face value (l : list nat) :
  String.eqb (solid_neumann_bc_type params) "Pressure" = true ->
  forall traction local_rhs,
    (fold_left (neumann_q_step params sh c face value) l (traction, local_rhs)).2
    = fold_left
        (fun rhs q =>
           add_external_force sh c face q
             (prescribed_traction params sh c face q value) rhs)
        l local_rhs.
Proof.
  intros Hp. induction l as [|q l IH]; intros traction local_rhs; simpl; [done|].
  unfold neumann_q_step at 2. rewrite Hsolid, Hp. simpl.
  unfold prescribed_traction at 2. rewrite Hp. apply IH.
Qed.

Lemma neumann_q_loop_constant c face value (l : list nat) :
  String.eqb (solid_neumann_bc_type params) "Pressure" = false ->
  forall local_rhs,
    (fold_left (neumann_q_step params sh c face value) l
       (if String.eqb (solid_neumann_bc_type params) "Traction"
        then map (fun i => nth i value 0) (seq 0 (asm_dim sh))
        else zero_tensor1 (asm_dim sh), local_rhs)).2
    = fold_left
        (fun rhs q =>
           add_external_force sh c face q
             (prescribed_traction params sh c face q value) rhs)
        l local_rhs.
Proof.
  intros Hp. induction l as [|q l IH]; intros local_rhs; simpl; [done|].
  unfold neumann_q_step at 2. rewrite Hsolid, Hp. simpl.
  unfold prescribed_traction at 2. rewrite Hp. apply IH.
Qed.

Lemma neumann_q_loop_prescribed c face value (l : list nat) local_rhs :
  (fold_left (neumann_q_step params sh c face value) l
     (if String.eqb (solid_neumann_bc_type params) "Traction"
      then map (fun i => nth i value 0) (seq 0 (asm_dim sh))
      else zero_tensor1 (asm_dim sh), local_rhs)).2
  = fold_left
      (fun rhs q =>
         add_external_force sh c face q
           (prescribed_traction params sh c face q value) rhs)
      l local_rhs.
Proof.
  destruct (String.eqb (solid_neumann_bc_type params) "Pressure") eqn:Hp.
  - by apply neumann_q_loop_pressure.
  - by apply neumann_q_loop_constant.
Qed.

Lemma neumann_face_step_prescribed c local_rhs face f value :
  asm_faces c !! face = Some f -> at_boundary f = true ->
  solid_neumann_bcs params !! boundary_id f = Some value ->
  neumann_face_step params sh c local_rhs face
  = prescribed_face_load params sh c face value local_rhs.
Proof.
  intros Hf Hb Hv. unfold neumann_face_step, prescribed_face_load.
  rewrite Hf, Hb, Hsolid, Hv. simpl.
  idtac.
  by apply neumann_q_loop_prescribed.
Qed.

Lemma neumann_face_step_ignores_traction c tractions local_rhs face :
  neumann_face_step params sh (with_fsi_traction c tractions) local_rhs face
  = neumann_face_step params sh c local_rhs face.
Proof.
  unfold neumann_face_step. simpl.
  destruct (asm_faces c !! face) as [f|]; [|done].
  destruct (negb (at_boundary f)); [done|].
  rewrite Hsolid. simpl.
  destruct (bool_decide _); [done|].
  f_equal.
  generalize (if String.eqb (solid_neumann_bc_type params) "Traction"
              then map (fun i => nth i (default [] (solid_neumann_bcs params
                                                      !! boundary_id f)) 0)
                       (seq 0 (asm_dim sh))
              else zero_tensor1 (asm_dim sh)) as t.
  revert local_rhs.
  induction (seq 0 (n_f_q_points sh)) as [|q l IH]; intros rhs t; simpl; [done|].
  unfold neumann_q_step at 2 4. rewrite Hsolid. simpl.
  destruct (String.eqb (solid_neumann_bc_type params) "Pressure"); apply IH.
Qed.

End StandAlone.

(** X12. In a stand-alone run a boundary face whose boundary id is in
    [solid_neumann_bcs] is loaded, at each face quadrature point, with the
    prescribed vector (type "Traction") or with the prescribed first value
    times the normal at that point (type "Pressure"): the traction kept from
    one quadrature point to the next never leaks into the load. *)
Theorem assemble_system_prescribed_load (params : AllParameters)
    (sh : AssemblyShape) (c : AssemblyCell) (local_rhs : Vector) (face : nat)
    (f : Face) (value : list Q) :
  simulation_type params <> "FSI"%string ->
  asm_faces c !! face = Some f -> at_boundary f = true ->
  solid_neumann_bcs params !! boundary_id f = Some value ->
  neumann_face_step params sh c local_rhs face
    = prescribed_face_load params sh c face value local_rhs /\
  neumann_face_step_linear params sh c local_rhs face
    = prescribed_face_load params sh c face value local_rhs.
Proof.
  intros Hsim Hf Hb Hv.
  assert (Hsolid : is_fsi params = false) by (by apply String.eqb_neq).
  rewrite neumann_face_step_linear_same.
  by rewrite (neumann_face_step_prescribed params sh Hsolid c local_rhs face f value).
Qed.

(** X13. In a stand-alone run the stored [fsi_traction] records are never
    read: [local_rhs] is the same whatever they hold. *)
Theorem assemble_system_ignores_fsi_traction (params : AllParameters)
    (sh : AssemblyShape) (c : AssemblyCell) (tractions : list Point) :
  simulation_type params <> "FSI"%string ->
  neumann_cell params sh (with_fsi_traction c tractions) = neumann_cell params sh c /\
  neumann_cell_linear params sh (with_fsi_traction c tractions)
    = neumann_cell_linear params sh c.
Proof.
  intros Hsim.
  assert (Hsolid : is_fsi params = false) by (by apply String.eqb_neq).
  rewrite !neumann_cell_linear_same.
  assert (H : neumann_cell params sh (with_fsi_traction c tractions)
              = neumann_cell params sh c); [|by split].
  unfold neumann_cell. simpl.
  apply fold_left_pointwise. intros rhs face.
  by apply neumann_face_step_ignores_traction.
Qed.

Lemma coord_zero_tensor1 (dim k : nat) : coord (zero_tensor1 dim) k = 0.
Proof.
  unfold coord, zero_tensor1. rewrite nth_lookup.
  destruct (decide (k < dim)%nat).
  - by rewrite lookup_replicate_2.
  - by rewrite (proj1 (lookup_replicate_None _ _ _)) by lia.
Qed.

Lemma Forall2_Qeq_insert (cur orig : Vector) (j : nat) (x : Q) :
  Forall2 Qeq cur orig -> x == vget cur j -> Forall2 Qeq (<[j := x]> cur) orig.
Proof.
  unfold Vector, vget. intros H Hx.
  apply Forall2_same_length_lookup_2.
  - rewrite length_insert. by eapply Forall2_length.
  - intros i a b Ha Hb. destruct (decide (i = j)) as [->|Hne].
    + assert (Hj : (j < length cur)%nat).
      { apply lookup_lt_Some in Ha. by rewrite length_insert in Ha. }
      rewrite list_lookup_insert_eq in Ha by done. injection Ha as <-.
      rewrite Hx. destruct (lookup_lt_is_Some_2 cur j Hj) as [y Hy].
      rewrite nth_lookup, Hy. simpl.
      by eapply Forall2_lookup_lr.
    + rewrite list_lookup_insert_ne in Ha by done. by eapply Forall2_lookup_lr.
Qed.

Lemma add_external_force_zero (sh : AssemblyShape) (c : AssemblyCell)
    (face q : nat) (cur orig : Vector) :
  Forall2 Qeq cur orig ->
  Forall2 Qeq (add_external_force sh c face q (zero_tensor1 (asm_dim sh)) cur) orig.
Proof.
  unfold add_external_force.
  generalize (seq 0 (dofs_per_cell sh)) as l. intros l. revert cur.
  induction l as [|j l IH]; intros cur H; simpl; [done|].
  apply IH. apply Forall2_Qeq_insert; [done|].
  rewrite coord_zero_tensor1. ring.
Qed.

Lemma Forall2_Qeq_refl (u : Vector) : Forall2 Qeq u u.
Proof. induction u; constructor; [reflexivity|done]. Qed.

(** X14. In a stand-alone run with a Neumann type that is neither "Traction"
    nor "Pressure" no face adds a load: [local_rhs] keeps the values of the
    volume loop, whatever [solid_neumann_bcs] lists. *)
Theorem assemble_system_unknown_neumann_type (params : AllParameters)
    (sh : AssemblyShape) (c : AssemblyCell) :
  simulation_type params <> "FSI"%string ->
  solid_neumann_bc_type params <> "Traction"%string ->
  solid_neumann_bc_type params <> "Pressure"%string ->
  Forall2 Qeq (neumann_cell params sh c) (asm_volume_rhs c) /\
  Forall2 Qeq (neumann_cell_linear params sh c) (asm_volume_rhs c).
Proof.
  intros Hsim Ht Hp.
  assert (Hsolid : is_fsi params = false) by (by apply String.eqb_neq).
  apply String.eqb_neq in Ht, Hp.
  rewrite neumann_cell_linear_same. split; [|idtac].
  all: unfold neumann_cell;
    generalize (seq 0 (faces_per_cell (asm_dim sh))) as l; intros l;
    assert (H : forall cur, Forall2 Qeq cur (asm_volume_rhs c) ->
              Forall2 Qeq (fold_left (neumann_face_step params sh c) l cur)
                      (asm_volume_rhs c));
    [|apply H, Forall2_Qeq_refl].
  all: induction l as [|face l IH]; intros cur Hcur; simpl; [done|];
    apply IH; unfold neumann_face_step;
    destruct (asm_faces c !! face) as [f|]; [|done];
    destruct (negb (at_boundary f)); [done|];
    rewrite Hsolid; simpl; destruct (bool_decide _); [done|];
    rewrite Ht;
    generalize (seq 0 (n_f_q_points sh)) as ql; intros ql; revert cur Hcur;
    induction ql as [|q ql IHq]; intros cur Hcur; simpl; [done|];
    unfold neumann_q_step at 2; rewrite Hsolid, Hp; simpl;
    apply IHq; by apply add_external_force_zero.
Qed.

Section NewtonExit.
Context {St : Type} (params : AllParameters) (solver : NewtonSolver St).

Lemma newton_loop_exit kind : forall fuel (st st' : NewtonState St),
  newton_loop fuel kind params solver st = Some (Ok st') ->
  newton_continue kind params st' = false.
Proof.
  induction fuel as [|fuel IH]; intros st st' H; simpl in H; [done|].
  destruct (newton_continue kind params st) eqn:Hc.
  - destruct (Nat.ltb _ _); [|done]. by eapply IH.
  - by injection H as <-.
Qed.

Lemma newton_loop_iterations kind : forall fuel (st st' : NewtonState St),
  newton_loop fuel kind params solver st = Some (Ok st') ->
  (newton_iteration st <= newton_iteration st')%nat /\
  (newton_iteration st' = newton_iteration st -> st' = st).
Proof.
  induction fuel as [|fuel IH]; intros st st' H; simpl in H; [done|].
  destruct (newton_continue kind params st) eqn:Hc.
  - destruct (Nat.ltb _ _); [|done]. apply IH in H as [H1 H2].
    rewrite newton_body_iteration in H1, H2. split; [lia|]. intros E. lia.
  - by injection H as <-.
Qed.

Lemma newton_continue_false kind (st : NewtonState St) :
  newton_continue kind params st = false <->
  (normalized_error_update st <= tol_d params /\
   normalized_error_residual st <= tol_f params) \/
  error_update st <= 1 # 1000000000000 \/
  (kind = Serial /\ error_residual st <= 1 # 1000000000000).
Proof.
  unfold newton_continue.
  rewrite !andb_false_iff, orb_false_iff, !Qlt_bool_false.
  destruct kind; rewrite ?Qlt_bool_false; split; intros H.
  - destruct H as [[H|H]|H]; auto.
  - destruct H as [H|[H|[_ H]]]; auto.
  - destruct H as [[H|H]|H]; auto.
  - destruct H as [H|[H|[? _]]]; auto. done.
Qed.

End NewtonExit.

Lemma serial_continue_shared {St : Type} (params : AllParameters)
    (st : NewtonState St) :
  newton_continue Serial params st = true ->
  newton_continue Shared params st = true.
Proof. unfold newton_continue. rewrite !andb_true_iff. tauto. Qed.

(** X15. On the same data the Newton loop of the serial solver ends
    whenever that of the shared solver does, and after at most as many
    iterations: the shared loop tests the update error twice and the size of
    the residual never, so it continues wherever the serial loop does. *)
Theorem newton_loop_serial_stops_first {St : Type} (params : AllParameters)
    (solver : NewtonSolver St) (fuel : nat) (st st' : NewtonState St) :
  newton_loop fuel Shared params solver st = Some (Ok st') ->
  exists st2, newton_loop fuel Serial params solver st = Some (Ok st2) /\
    (newton_iteration st2 <= newton_iteration st')%nat.
Proof.
  revert st st'. induction fuel as [|fuel IH]; intros st st' H; [done|].
  pose proof (newton_loop_iterations params solver Shared _ _ _ H) as [Hle _].
  simpl in H. simpl.
  destruct (newton_continue Serial params st) eqn:Hs.
  - rewrite (serial_continue_shared params st Hs) in H.
    destruct (Nat.ltb _ _); [|done]. by apply IH.
  - by exists st.
Qed.

Lemma first_body_errors {St : Type} (solver : NewtonSolver St) (s : St) :
  let st := newton_body solver (mkNewtonState s 0 1 1 1 1 1 1) in
  newton_iteration st = 1%nat /\
  normalized_error_residual st = error_residual st / error_residual st /\
  normalized_error_update st = error_update st / error_update st.
Proof.
  unfold newton_body. simpl. by destruct (newton_solve solver s) as [[s' res] upd].
Qed.

Lemma first_iteration {St : Type} (kind : SolverKind)
    (params : AllParameters) (solver : NewtonSolver St) (s : St) :
  tol_d params < 1 \/ tol_f params < 1 ->
  (forall fuel st',
     newton_loop fuel kind params solver (mkNewtonState s 0 1 1 1 1 1 1)
       = Some (Ok st') ->
     (1 <= newton_iteration st')%nat /\
     (newton_iteration st' = 1%nat ->
      error_update st' <= 1 # 1000000000000 \/
      error_residual st' <= 1 # 1000000000000)) /\
  (solid_max_iterations params = 0%nat -> forall fuel,
     newton_loop (S fuel) kind params solver (mkNewtonState s 0 1 1 1 1 1 1)
       = Some (Throw (ExcMessage "Too many Newton iterations!"))).
Proof.
  intros Htol.
  set (st0 := mkNewtonState s 0 1 1 1 1 1 1).
  assert (Hc0 : newton_continue kind params st0 = true).
  { unfold newton_continue, st0. simpl.
    assert (Qlt_bool (tol_d params) 1 || Qlt_bool (tol_f params) 1 = true) as ->.
    { apply orb_true_iff. rewrite !Qlt_bool_iff. exact Htol. }
    by destruct kind. }
  split.
  - intros fuel st' H. destruct fuel as [|fuel]; [done|]. simpl in H.
    rewrite Hc0 in H. destruct (Nat.ltb _ _); [|done].
    pose proof (newton_loop_iterations params solver kind _ _ _ H) as [Hle Heq].
    pose proof (newton_loop_exit params solver kind _ _ _ H) as Hexit.
    destruct (first_body_errors solver s) as (Hit & Hnr & Hnu).
    fold st0 in Hit, Hnr, Hnu. rewrite Hit in Hle, Heq.
    split; [lia|]. intros H1. rewrite (Heq H1) in Hexit |- *.
    set (st1 := newton_body solver st0) in *.
    destruct (Qlt_le_dec (1 # 1000000000000) (error_update st1)) as [Hbig|];
      [|by left].
    destruct (Qlt_le_dec (1 # 1000000000000) (error_residual st1)) as [Hbig'|];
      [|by right].
    exfalso.
    apply newton_continue_false in Hexit as [[Hu Hr]|[Hexit|[_ Hexit]]]; [|lra..].
    rewrite Hnu in Hu. rewrite Hnr in Hr.
    assert (E1 : error_update st1 / error_update st1 == 1) by (field; lra).
    assert (E2 : error_residual st1 / error_residual st1 == 1) by (field; lra).
    lra.
  - intros Hmax fuel. apply newton_loop_too_many; [done|simpl; lia].
Qed.

(** X16. With a tolerance below 1, a step of [run_one_step] that completes
    took at least one Newton iteration; the normalised errors of the first
    iteration are 1, so the loop can end after exactly one iteration only
    with an update or residual error of at most 1e-12; and with
    [solid_max_iterations = 0] every step throws "Too many Newton
    iterations!". *)
Theorem run_one_step_first_iteration {St : Type} (kind : SolverKind)
    (params : AllParameters) (solver : NewtonSolver St) :
  tol_d params < 1 \/ tol_f params < 1 ->
  (forall fuel first_step s s' n,
     run_one_step fuel kind params solver first_step s = Some (Ok (s', n)) ->
     (1 <= n)%nat) /\
  (forall fuel s st',
     newton_loop fuel kind params solver (mkNewtonState s 0 1 1 1 1 1 1)
       = Some (Ok st') ->
     newton_iteration st' = 1%nat ->
     error_update st' <= 1 # 1000000000000 \/
     error_residual st' <= 1 # 1000000000000) /\
  (solid_max_iterations params = 0%nat -> forall fuel first_step s,
     run_one_step (S fuel) kind params solver first_step s
       = Some (Throw (ExcMessage "Too many Newton iterations!"))).
Proof.
  intros Htol. split; [|split].
  - intros fuel first_step s s' n H. unfold run_one_step in H.
    destruct (newton_loop fuel kind params solver _) as [[st|e]|] eqn:E; try done.
    injection H as _ <-.
    by apply (proj1 (first_iteration kind params solver _ Htol)) in E as [E _].
  - intros fuel s st' H.
    by apply (proj1 (first_iteration kind params solver _ Htol)) in H as [_ H].
  - intros Hmax fuel first_step s. unfold run_one_step.
    by rewrite (proj2 (first_iteration kind params solver _ Htol) Hmax).
Qed.

Lemma vget_imap (f : nat -> Q -> Q) (u : Vector) (i : nat) :
  (i < length u)%nat -> vget (imap f u) i = f i (vget u i).
Proof.
  intros Hi. unfold vget, Vector in *. rewrite !nth_lookup, list_lookup_imap.
  destruct (lookup_lt_is_Some_2 u i Hi) as [x ->]. done.
Qed.

Lemma vget_vector_div (u : Vector) (factor : Q) (i : nat) :
  (i < length u)%nat -> vget (vector_div u factor) i = vget u i / factor.
Proof.
  intros Hi. unfold vget, vector_div, Vector in *.
  rewrite !nth_lookup, list_lookup_fmap.
  destruct (lookup_lt_is_Some_2 u i Hi) as [x ->]. done.
Qed.

Lemma linear_displacement_entry (damping dt : Q) (previous : Kinematics)
    (acceleration : Vector) (i : nat) :
  (i < length (kin_displacement previous))%nat ->
  vget (kin_displacement
          (linear_elasticity_update damping dt previous acceleration)) i
  = vget (kin_displacement previous) i + dt * vget (kin_velocity previous) i
    + (dt * dt * ((1 # 2) - newmark_beta damping)
         * vget (kin_acceleration previous) i
       + dt * dt * newmark_beta damping * vget acceleration i).
Proof.
  intros Hu. unfold linear_elasticity_update. simpl. unfold vector_add2, vector_add.
  by rewrite !vget_imap by (rewrite ?length_imap; done).
Qed.

Lemma newmark_velocity_entry (damping dt : Q) (previous : Kinematics)
    (acceleration : Vector) (i : nat) :
  (i < length (kin_velocity previous))%nat ->
  vget (newmark_velocity damping dt previous acceleration) i
  = vget (kin_velocity previous) i
    + (dt * (1 - newmark_gamma damping) * vget (kin_acceleration previous) i
       + dt * newmark_gamma damping * vget acceleration i).
Proof.
  intros Hv. unfold newmark_velocity, vector_add2. by rewrite vget_imap.
Qed.

Lemma hyper_acceleration_entry (damping dt : Q) (previous : Kinematics)
    (displacement : Vector) (i : nat) :
  (i < length displacement)%nat ->
  (i < length (kin_displacement previous))%nat ->
  vget (kin_acceleration
          (hyper_elasticity_update damping dt previous displacement)) i
  = (vget displacement i
     - (vget (kin_displacement previous) i
        + (dt * vget (kin_velocity previous) i
           + ((1 # 2) - newmark_beta damping) * dt * dt
             * vget (kin_acceleration previous) i)))
    / (newmark_beta damping * dt * dt).
Proof.
  intros Hd Hu. unfold hyper_elasticity_update. simpl.
  rewrite vget_vector_div by (unfold vector_sub; by rewrite length_imap).
  unfold vector_sub, predicted_displacement, vector_add2.
  by rewrite !vget_imap by (rewrite ?length_imap; done).
Qed.

(** X17. In a step of [SharedLinearElasticity::run_one_step], whatever the
    solve returns for the acceleration, the displacement advances by the time
    step times the mean of the old and the new velocity. *)
Theorem linear_elasticity_newmark (damping dt : Q) (previous : Kinematics)
    (acceleration : Vector) (i : nat) :
  let current := linear_elasticity_update damping dt previous acceleration in
  (i < length (kin_displacement previous))%nat ->
  (i < length (kin_velocity previous))%nat ->
  vget (kin_displacement current) i - vget (kin_displacement previous) i
  == dt * (vget (kin_velocity previous) i + vget (kin_velocity current) i) / 2.
Proof.
  intros current Hu Hv. unfold current.
  rewrite linear_displacement_entry by done.
  change (kin_velocity (linear_elasticity_update damping dt previous acceleration))
    with (newmark_velocity damping dt previous acceleration).
  rewrite newmark_velocity_entry by done.
  unfold newmark_beta, newmark_gamma. field.
Qed.

(** X18. After the Newton loop of the hyperelastic [run_one_step], with
    [beta * dt * dt] not zero, the acceleration recovered from the converged
    displacement makes the displacement and velocity updates of the linear
    solver hold: the two kinds of solver step the same Newmark scheme, and
    the displacement advances by the time step times the mean of the old and
    the new velocity. *)
Theorem hyper_elasticity_newmark (damping dt : Q) (previous : Kinematics)
    (displacement : Vector) (i : nat) :
  let current := hyper_elasticity_update damping dt previous displacement in
  ~ newmark_beta damping * dt * dt == 0 ->
  (i < length displacement)%nat ->
  (i < length (kin_displacement previous))%nat ->
  (i < length (kin_velocity previous))%nat ->
  vget (kin_displacement
          (linear_elasticity_update damping dt previous (kin_acceleration current))) i
    == vget displacement i /\
  kin_velocity (linear_elasticity_update damping dt previous
                  (kin_acceleration current))
    = kin_velocity current /\
  vget displacement i - vget (kin_displacement previous) i
  == dt * (vget (kin_velocity previous) i + vget (kin_velocity current) i) / 2.
Proof.
  intros current Hnz Hd Hu Hv. unfold current.
  assert (Hdt : ~ dt == 0) by (intros E; apply Hnz; rewrite E; ring).
  assert (Hbeta : ~ newmark_beta damping == 0)
    by (intros E; apply Hnz; rewrite E; ring).
  split; [|split; [done|]].
  - rewrite linear_displacement_entry, hyper_acceleration_entry by done.
    field. by split.
  - change (kin_velocity (hyper_elasticity_update damping dt previous displacement))
      with (newmark_velocity damping dt previous
              (kin_acceleration
                 (hyper_elasticity_update damping dt previous displacement))).
    rewrite newmark_velocity_entry, hyper_acceleration_entry by done.
    revert Hbeta. unfold newmark_beta, newmark_gamma. intros Hbeta. field.
    split; [done|]. intros E. apply Hbeta. rewrite E. reflexivity.
Qed.

Lemma add_cell_volume_shift (n : nat) (c : VolumeCell) (v : Q) :
  add_cell_volume n v c == v + add_cell_volume n 0 c.
Proof.
  unfold add_cell_volume. generalize (seq 0 n) as l. intros l.
  revert v. induction l as [|q l IH] using rev_ind; intros v; simpl; [ring|].
  rewrite !fold_left_app. simpl. rewrite IH. ring.
Qed.

Lemma fold_cells_shift (n : nat) (cells : list VolumeCell) (v : Q) :
  fold_left (add_cell_volume n) cells v
  == v + fold_left (add_cell_volume n) cells 0.
Proof.
  revert v. induction cells as [|c cells IH] using rev_ind; intros v; simpl; [ring|].
  rewrite !fold_left_app. simpl.
  rewrite (add_cell_volume_shift n c (fold_left _ cells v)).
  rewrite (add_cell_volume_shift n c (fold_left _ cells 0)).
  rewrite IH. ring.
Qed.

Lemma fold_Qplus_shift (l : list Q) (v : Q) :
  fold_left Qplus l v == v + fold_left Qplus l 0.
Proof.
  revert v. induction l as [|x l IH]; intros v; simpl; [ring|].
  rewrite (IH (v + x)), (IH (0 + x)). ring.
Qed.

Lemma mpi_sum_app (l1 l2 : list Q) : mpi_sum (l1 ++ l2) == mpi_sum l1 + mpi_sum l2.
Proof. unfold mpi_sum. rewrite fold_left_app. apply fold_Qplus_shift. Qed.

Lemma mpi_sum_snoc (l : list Q) (x : Q) : mpi_sum (l ++ [x]) == mpi_sum l + x.
Proof. rewrite mpi_sum_app. unfold mpi_sum. simpl. ring. Qed.

Lemma mpi_sum_zero (l : list Q) : Forall (fun x => x == 0) l -> mpi_sum l == 0.
Proof.
  induction l as [|x l IH] using rev_ind; intros H; [reflexivity|].
  apply Forall_app in H as [Hl Hx]. apply Forall_cons in Hx as [Hx _].
  rewrite mpi_sum_snoc, IH by done. rewrite Hx. ring.
Qed.

Lemma mpi_sum_pointwise (f g : nat -> Q) (l : list nat) :
  (forall r, r ∈ l -> f r == g r) -> mpi_sum (map f l) == mpi_sum (map g l).
Proof.
  induction l as [|x l IH] using rev_ind; intros H; [reflexivity|].
  rewrite !map_app. simpl. rewrite !mpi_sum_snoc.
  rewrite IH by (intros r Hr; apply H; apply elem_of_app; by left).
  rewrite (H x) by (apply elem_of_app; right; apply list_elem_of_here).
  reflexivity.
Qed.

Lemma mpi_sum_plus (f g : nat -> Q) (l : list nat) :
  mpi_sum (map (fun r => f r + g r) l) == mpi_sum (map f l) + mpi_sum (map g l).
Proof.
  induction l as [|x l IH] using rev_ind; [unfold mpi_sum; simpl; ring|].
  rewrite !map_app. simpl. rewrite !mpi_sum_snoc, IH. ring.
Qed.

Lemma mpi_sum_indicator (n k : nat) (v : Q) :
  (k < n)%nat ->
  mpi_sum (map (fun r => if Nat.eqb k r then v else 0) (seq 0 n)) == v.
Proof.
  intros Hk. induction n as [|n IH]; [lia|].
  rewrite seq_S, map_app. simpl. rewrite mpi_sum_snoc.
  destruct (decide (k = n)) as [->|Hne].
  - rewrite Nat.eqb_refl.
    rewrite mpi_sum_zero.
    + ring.
    + apply Forall_forall. intros x Hx. apply list_elem_of_fmap in Hx as (r & -> & Hr).
      apply elem_of_seq in Hr.
      rewrite (proj2 (Nat.eqb_neq n r)) by lia. reflexivity.
  - rewrite IH by lia. rewrite (proj2 (Nat.eqb_neq k n)) by done. ring.
Qed.

Lemma shared_compute_volume_snoc (n r : nat) (cells : list VolumeCell)
    (c : VolumeCell) :
  shared_compute_volume n r (cells ++ [c])
  == shared_compute_volume n r cells
     + (if Nat.eqb (vol_subdomain_id c) r then add_cell_volume n 0 c else 0).
Proof.
  unfold shared_compute_volume. rewrite fold_left_app. simpl.
  destruct (Nat.eqb (vol_subdomain_id c) r); simpl; [|ring].
  apply add_cell_volume_shift.
Qed.

Lemma shared_compute_volume_filter (n r : nat) (cells : list VolumeCell) :
  shared_compute_volume n r cells
  = compute_volume n (filter (fun c => vol_subdomain_id c = r) cells).
Proof.
  unfold shared_compute_volume, compute_volume. generalize 0 as v.
  induction cells as [|c cells IH]; intros v; simpl; [done|].
  rewrite filter_cons.
  destruct (Nat.eqb_spec (vol_subdomain_id c) r) as [E|E]; simpl.
  - rewrite decide_True by done. simpl. apply IH.
  - rewrite decide_False by done. apply IH.
Qed.

(** X19. [SharedHyperElasticity::compute_volume] returns the volume of the
    cells of the calling rank's own subdomain (the value of
    [Utilities::MPI::sum] is dropped); when every cell belongs to one of the
    ranks, the values of all ranks add up to what the serial
    [HyperElasticity::compute_volume] returns. *)
Theorem compute_volume_shares (n_q_points n_mpi_processes : nat)
    (cells : list VolumeCell) :
  Forall (fun c => (vol_subdomain_id c < n_mpi_processes)%nat) cells ->
  (forall r,
     shared_compute_volume n_q_points r cells
     = compute_volume n_q_points
         (filter (fun c => vol_subdomain_id c = r) cells)) /\
  mpi_sum (map (fun r => shared_compute_volume n_q_points r cells)
               (seq 0 n_mpi_processes))
  == compute_volume n_q_points cells.
Proof.
  intros Hsub. split; [intros r; apply shared_compute_volume_filter|].
  revert Hsub.
  induction cells as [|c cells IH] using rev_ind; intros Hsub.
  - unfold compute_volume. simpl. apply mpi_sum_zero.
    apply Forall_forall. intros x Hx.
    apply list_elem_of_fmap in Hx as (r & -> & _). reflexivity.
  - apply Forall_app in Hsub as [Hcells Hc]. apply Forall_cons in Hc as [Hc _].
    rewrite (mpi_sum_pointwise _ _ _
               (fun r _ => shared_compute_volume_snoc n_q_points r cells c)).
    rewrite mpi_sum_plus, IH by done.
    rewrite mpi_sum_indicator by done.
    unfold compute_volume. rewrite fold_left_app. simpl.
    rewrite (add_cell_volume_shift n_q_points c (fold_left _ cells 0)). ring.
Qed.

Lemma nearest_fold_below (distance : Point -> Point -> Q) (center : Point)
    (bound : Q) (l : list Point) : forall dist,
  fold_left
    (fun dist s => if Qlt_bool dist (distance center s) then dist
                   else distance center s) l dist < bound
  <-> dist < bound \/ exists s, s ∈ l /\ distance center s < bound.
Proof.
  induction l as [|s l IH]; intros dist; simpl.
  - split; [auto|]. intros [H|(s & Hs & _)]; [done|by apply elem_of_nil in Hs].
  - rewrite IH. destruct (Qlt_bool dist (distance center s)) eqn:E.
    + apply Qlt_bool_iff in E. split.
      * intros [H|(s' & Hs' & H)]; [by left|right].
        exists s'. split; [by apply list_elem_of_further|done].
      * intros [H|(s' & Hs' & H)]; [by left|].
        apply elem_of_cons in Hs' as [->|Hs']; [left; lra|right; eauto].
    + apply Qlt_bool_false in E. split.
      * intros [H|(s' & Hs' & H)]; right.
        -- exists s. split; [apply list_elem_of_here|done].
        -- exists s'. split; [by apply list_elem_of_further|done].
      * intros [H|(s' & Hs' & H)]; [left; lra|].
        apply elem_of_cons in Hs' as [->|Hs']; [by left|right; eauto].
Qed.

Lemma flag_loops_on_cell (distance : Point -> Point -> Q)
    (solid_centers : list Point) (n_levels min_grid_level max_grid_level : nat)
    (c : FlagCell) :
  let near :=
    Qlt_bool (nearest_solid_center distance solid_centers (fc_center c)) (1 # 10) in
  let c' := clear_coarsen_at min_grid_level
              (clear_refine_above n_levels max_grid_level
                 (flag_by_distance distance solid_centers c)) in
  fc_level c' = fc_level c /\ fc_center c' = fc_center c /\
  refine_flag_set c' =
    (near || refine_flag_set c)
    && negb (Nat.ltb max_grid_level n_levels
             && Nat.leb max_grid_level (fc_level c)) /\
  coarsen_flag_set c' =
    (negb near || coarsen_flag_set c)
    && negb (Nat.eqb (fc_level c) min_grid_level).
Proof.
  unfold flag_by_distance, clear_refine_above, clear_coarsen_at.
  destruct (Qlt_bool _ (1 # 10)); simpl;
    destruct (Nat.ltb max_grid_level n_levels && Nat.leb max_grid_level (fc_level c));
    simpl; destruct (Nat.eqb (fc_level c) min_grid_level); simpl;
    rewrite ?andb_true_r, ?andb_false_r, ?orb_true_r, ?orb_false_r; done.
Qed.

(** X20. The flags [FSI::refine_mesh] sets before it calls deal.II: a fluid
    cell is flagged for refinement exactly when a solid cell center is
    nearer than 0.1 (or the flag was set before) and the cell is not on a
    level from [max_grid_level] up while the triangulation has more than
    [max_grid_level] levels; it is flagged for coarsening exactly when no
    solid cell center is nearer than 0.1 (or the flag was set before) and
    the cell is not on level [min_grid_level]. *)
Theorem refine_mesh_flags_spec (distance : Point -> Point -> Q)
    (solid_centers : list Point) (n_levels min_grid_level max_grid_level : nat)
    (cells : list FlagCell) (k : nat) (c : FlagCell) :
  cells !! k = Some c ->
  exists c',
    refine_mesh_flags distance solid_centers n_levels min_grid_level
      max_grid_level cells !! k = Some c' /\
    fc_level c' = fc_level c /\ fc_center c' = fc_center c /\
    (refine_flag_set c' = true <->
       ((exists s, s ∈ solid_centers /\ distance (fc_center c) s < 1 # 10)
        \/ refine_flag_set c = true)
       /\ ~ (max_grid_level < n_levels /\ max_grid_level <= fc_level c)%nat) /\
    (coarsen_flag_set c' = true <->
       ((forall s, s ∈ solid_centers -> 1 # 10 <= distance (fc_center c) s)
        \/ coarsen_flag_set c = true)
       /\ fc_level c <> min_grid_level).
Proof.
  intros Hk. unfold refine_mesh_flags.
  rewrite !list_lookup_fmap, Hk. simpl. eexists. split; [reflexivity|].
  destruct (flag_loops_on_cell distance solid_centers n_levels min_grid_level
              max_grid_level c) as (Hl & Hc & Hr & Hco).
  split; [exact Hl|]. split; [exact Hc|].
  assert (Hnear : Qlt_bool (nearest_solid_center distance solid_centers (fc_center c))
                    (1 # 10) = true
                  <-> exists s, s ∈ solid_centers /\
                        distance (fc_center c) s < 1 # 10).
  { rewrite Qlt_bool_iff. unfold nearest_solid_center. rewrite nearest_fold_below.
    split; [intros [H|H]; [lra|done]|auto]. }
  assert (Hfar : negb (Qlt_bool (nearest_solid_center distance solid_centers
                                   (fc_center c)) (1 # 10)) = true
                 <-> forall s, s ∈ solid_centers ->
                       1 # 10 <= distance (fc_center c) s).
  { rewrite negb_true_iff, <- not_true_iff_false, Hnear. split.
    - intros Hno s Hs.
      destruct (Qlt_le_dec (distance (fc_center c) s) (1 # 10)) as [H|H]; [|done].
      exfalso. apply Hno. eauto.
    - intros Hall (s & Hs & H). specialize (Hall s Hs). lra. }
  rewrite Hr, Hco.
  rewrite !andb_true_iff, !orb_true_iff, !negb_true_iff, Hnear.
  rewrite <- (negb_true_iff (Qlt_bool _ _)), Hfar.
  rewrite andb_false_iff, Nat.ltb_nlt, Nat.leb_nle, Nat.eqb_neq.
  split; [|done]. split; intros [H1 H2]; (split; [done|]); lia.
Qed.

Lemma fold_left_related {A B C : Type} (R : A -> B -> Prop)
    (f : A -> C -> A) (g : B -> C -> B) (l : list C) :
  (forall a b c, R a b -> R (f a c) (g b c)) ->
  forall a b, R a b -> R (fold_left f l a) (fold_left g l b).
Proof.
  intros Hstep. induction l as [|c l IH]; intros a b H; simpl; [done|].
  by apply IH, Hstep.
Qed.

(** X21. On every cell, the local system matrix
    [SharedLinearElasticity::assemble_system] builds for stepping is the
    local matrix of the initial step (the mass matrix) plus
    [beta * dt * dt] times the local stiffness matrix; the initial step adds
    nothing to the stiffness matrix. *)
Theorem linear_system_matrix (rho damping dt : Q) (vd : VolumeData) (i j : nat) :
  let beta := newmark_beta damping in
  let stepping := linear_local_matrices false rho beta dt vd in
  let initial := linear_local_matrices true rho beta dt vd in
  stepping.1 i j == initial.1 i j + beta * dt * dt * stepping.2 i j /\
  initial.2 i j == 0.
Proof.
  intros beta stepping initial. unfold stepping, initial, linear_local_matrices.
  set (R := fun (s t : Matrix * Matrix) =>
              forall a b, s.1 a b == t.1 a b + beta * dt * dt * s.2 a b /\
                          t.2 a b == 0).
  assert (H : R (fold_left
                   (fun st q =>
                      fold_left
                        (fun st i =>
                           fold_left (linear_entry_step false rho beta dt vd q i)
                                     (seq 0 (vd_dofs_per_cell vd)) st)
                        (seq 0 (vd_dofs_per_cell vd)) st)
                   (seq 0 (vd_n_q_points vd)) (zero_matrix, zero_matrix))
                (fold_left
                   (fun st q =>
                      fold_left
                        (fun st i =>
                           fold_left (linear_entry_step true rho beta dt vd q i)
                                     (seq 0 (vd_dofs_per_cell vd)) st)
                        (seq 0 (vd_dofs_per_cell vd)) st)
                   (seq 0 (vd_n_q_points vd)) (zero_matrix, zero_matrix)));
    [|apply H].
  apply fold_left_related.
  - intros s t q Hst. apply fold_left_related; [|done].
    intros s1 t1 i1 Hst1. apply fold_left_related; [|done].
    intros s2 t2 j2 Hst2 a b. destruct (Hst2 a b) as [H1 H2].
    unfold linear_entry_step, matrix_add_entry. simpl.
    destruct (Nat.eqb a i1 && Nat.eqb b j2); split; try done.
    rewrite H1. ring.
  - intros a b. unfold zero_matrix. simpl. split; ring.
Qed.

Lemma dot_zero_r (dim : nat) (a : Point) : dot dim a (zero_tensor1 dim) == 0.
Proof.
  unfold dot. generalize (zero_tensor1 dim) (coord_zero_tensor1 dim).
  intros z Hz. induction (seq 0 dim) as [|d l IH] using rev_ind; [reflexivity|].
  rewrite fold_left_app. simpl. rewrite IH, Hz. ring.
Qed.

Lemma vget_insert_Qeq (u : Vector) (i j : nat) (x : Q) :
  x == vget u i -> vget (<[i := x]> u) j == vget u j.
Proof.
  intros Hx. destruct (decide (i = j)) as [->|Hne].
  - destruct (decide (j < length u)%nat).
    + by rewrite vget_insert_eq.
    + unfold Vector in *. rewrite list_insert_ge by lia. reflexivity.
  - by rewrite vget_insert_ne.
Qed.

(** X22. [SharedLinearElasticity::assemble_system] applies no body force: the
    volume loop leaves every entry of [local_rhs] at zero, whatever
    [parameters.gravity] holds. *)
Theorem linear_elasticity_no_body_force (rho : Q) (vd : VolumeData) (k : nat) :
  vget (linear_local_rhs rho vd) k == 0.
Proof.
  unfold linear_local_rhs.
  assert (H : forall (ql il : list nat) (rhs : Vector),
            vget rhs k == 0 ->
            vget (fold_left
                    (fun rhs q =>
                       fold_left
                         (fun rhs i =>
                            let gravity := zero_tensor1 (vd_dim vd) in
                            <[i := vget rhs i
                                   + dot (vd_dim vd) (vd_phi vd i q) gravity * rho
                                     * vd_JxW vd q]> rhs)
                         il rhs)
                    ql rhs) k == 0).
  { induction ql as [|q ql IHq]; intros il rhs Hz; simpl; [done|].
    apply IHq. clear IHq. revert rhs Hz.
    induction il as [|i il IHi]; intros rhs Hz; simpl; [done|].
    apply IHi. rewrite vget_insert_Qeq; [done|].
    rewrite dot_zero_r. ring. }
  apply H. unfold vget. rewrite nth_lookup.
  destruct (decide (k < vd_dofs_per_cell vd)%nat).
  - rewrite lookup_replicate_2 by done. reflexivity.
  - rewrite (proj1 (lookup_replicate_None _ _ _)) by lia. reflexivity.
Qed.

Lemma sum_rows_shift (h : nat -> Q) (l : list nat) (v : Q) :
  fold_left (fun acc j => acc + h j) l v
  == v + fold_left (fun acc j => acc + h j) l 0.
Proof.
  revert v. induction l as [|j l IH]; intros v; simpl; [ring|].
  rewrite (IH (v + h j)), (IH (0 + h j)). ring.
Qed.

Lemma sum_rows_linear (h1 h2 h : nat -> Q) (c1 c2 : Q) (l : list nat) :
  (forall j, j ∈ l -> h j == c1 * h1 j + c2 * h2 j) ->
  fold_left (fun acc j => acc + h j) l 0
  == c1 * fold_left (fun acc j => acc + h1 j) l 0
     + c2 * fold_left (fun acc j => acc + h2 j) l 0.
Proof.
  induction l as [|j l IH]; intros H; simpl; [ring|].
  rewrite (sum_rows_shift h), (sum_rows_shift h1), (sum_rows_shift h2).
  rewrite IH by (intros j' Hj'; apply H; by apply list_elem_of_further).
  rewrite (H j) by apply list_elem_of_here. ring.
Qed.

Lemma vget_vmult (n : nat) (M : Matrix) (src : Vector) (i : nat) :
  (i < n)%nat ->
  vget (vmult n M src) i
  = fold_left (fun acc j => acc + M i j * vget src j) (seq 0 n) 0.
Proof. intros Hi. unfold vmult. by apply coord_map_seq. Qed.

(** X23. On a row where the system matrix is the mass matrix plus
    [beta * dt * dt] times the stiffness matrix and the solve for the
    acceleration is exact, the state after
    [SharedLinearElasticity::run_one_step] satisfies the equation of motion
    [M a + K u = F] with the new acceleration and the new displacement. *)
Theorem linear_elasticity_equation_of_motion (n : nat) (damping dt : Q)
    (mass_matrix stiffness_matrix system_matrix : Matrix)
    (system_rhs : Vector) (previous : Kinematics) (acceleration : Vector) (i : nat) :
  let current := linear_elasticity_update damping dt previous acceleration in
  let tmp1 := linear_modified_rhs n damping dt stiffness_matrix system_rhs
                previous in
  length system_rhs = n -> length (kin_displacement previous) = n ->
  length (kin_velocity previous) = n ->
  (i < n)%nat ->
  (forall j, (j < n)%nat ->
     system_matrix i j
     == mass_matrix i j
        + newmark_beta damping * dt * dt * stiffness_matrix i j) ->
  vget (vmult n system_matrix acceleration) i == vget tmp1 i ->
  vget (vmult n mass_matrix (kin_acceleration current)) i
  + vget (vmult n stiffness_matrix (kin_displacement current)) i
  == vget system_rhs i.
Proof.
  intros current tmp1 Hrhs Hu Hv Hi Hsys Hsolve.
  unfold tmp1, linear_modified_rhs, vector_sub in Hsolve.
  rewrite vget_imap in Hsolve by lia.
  rewrite !vget_vmult in * by done.
  unfold current. change (kin_acceleration (linear_elasticity_update _ _ _ _))
    with acceleration.
  set (beta := newmark_beta damping) in *.
  assert (Hs : fold_left (fun acc j => acc + system_matrix i j * vget acceleration j)
                 (seq 0 n) 0
               == 1 * fold_left (fun acc j => acc + mass_matrix i j
                                               * vget acceleration j) (seq 0 n) 0
                  + (beta * dt * dt)
                    * fold_left (fun acc j => acc + stiffness_matrix i j
                                               * vget acceleration j) (seq 0 n) 0).
  { apply (sum_rows_linear (fun j => mass_matrix i j * vget acceleration j)
             (fun j => stiffness_matrix i j * vget acceleration j)).
    intros j Hj. apply elem_of_seq in Hj. rewrite Hsys by lia. ring. }
  assert (Hk : fold_left
                 (fun acc j => acc + stiffness_matrix i j
                    * vget (kin_displacement
                              (linear_elasticity_update damping dt previous
                                 acceleration)) j) (seq 0 n) 0
               == 1 * fold_left
                        (fun acc j => acc + stiffness_matrix i j
                           * vget (predicted_displacement damping dt previous) j)
                        (seq 0 n) 0
                  + (beta * dt * dt)
                    * fold_left (fun acc j => acc + stiffness_matrix i j
                                               * vget acceleration j) (seq 0 n) 0).
  { apply (sum_rows_linear
             (fun j => stiffness_matrix i j
                       * vget (predicted_displacement damping dt previous) j)
             (fun j => stiffness_matrix i j * vget acceleration j)).
    intros j Hj. apply elem_of_seq in Hj.
    rewrite linear_displacement_entry by lia.
    unfold predicted_displacement, vector_add2. rewrite vget_imap by lia.
    fold beta. ring. }
  rewrite Hk. rewrite Hs in Hsolve.
  lra.
Qed.

Lemma mirror_row (i : nat) (l : list nat) : forall (M : Matrix) a b,
  Forall (fun j => (i < j)%nat) l ->
  fold_left (fun M j => matrix_set M i j (M j i)) l M a b
  = if bool_decide (a = i /\ b ∈ l) then M b a else M a b.
Proof.
  induction l as [|j l IH]; intros M a b Hl; cbn [fold_left].
  - rewrite bool_decide_eq_false_2; [done|]. intros [_ H]. by apply elem_of_nil in H.
  - apply Forall_cons in Hl as [Hj Hl]. rewrite IH by done.
    unfold matrix_set.
    destruct (decide (a = i /\ b ∈ l)) as [[-> Hb]|Hn].
    + rewrite !bool_decide_eq_true_2 by (rewrite ?elem_of_cons; auto).
      assert (i < b)%nat by (by eapply (proj1 (Forall_forall _ _) Hl)).
      rewrite (proj2 (Nat.eqb_neq b i)) by lia. done.
    + rewrite (bool_decide_eq_false_2 _ Hn).
      destruct (Nat.eqb_spec a i) as [->|Ha], (Nat.eqb_spec b j) as [->|Hb]; simpl.
      * rewrite bool_decide_eq_true_2; [done|]. split; [done|apply list_elem_of_here].
      * rewrite bool_decide_eq_false_2; [done|]. intros [_ H].
        apply elem_of_cons in H as [?|?]; [done|]. apply Hn. by split.
      * rewrite bool_decide_eq_false_2; [done|]. by intros [? _].
      * rewrite bool_decide_eq_false_2; [done|]. by intros [? _].
Qed.

Lemma mirror_rows (n : nat) (rows : list nat) : forall (M : Matrix) a b,
  NoDup rows ->
  fold_left
    (fun M i =>
       fold_left (fun M j => matrix_set M i j (M j i))
                 (seq (i + 1) (n - (i + 1))) M)
    rows M a b
  = if bool_decide (a ∈ rows /\ a < b < n)%nat then M b a else M a b.
Proof.
  induction rows as [|i rows IH]; intros M a b Hnd; cbn [fold_left].
  - rewrite bool_decide_eq_false_2; [done|]. intros [H _]. by apply elem_of_nil in H.
  - apply NoDup_cons in Hnd as [Hi Hnd]. rewrite IH by done.
    assert (Hrow : forall x y,
              fold_left (fun M j => matrix_set M i j (M j i))
                        (seq (i + 1) (n - (i + 1))) M x y
              = if bool_decide (x = i /\ i < y < n)%nat then M y x else M x y).
    { intros x y. rewrite mirror_row.
      - apply (f_equal (fun (t : bool) => if t then M y x else M x y)).
        apply bool_decide_ext. rewrite elem_of_seq. split; intros [? ?]; (split; [done|lia]).
      - apply Forall_forall. intros j Hj. apply elem_of_seq in Hj. lia. }
    rewrite !Hrow.
    destruct (decide (a ∈ rows /\ (a < b < n)%nat)) as [[Ha Hab]|Hn].
    + rewrite bool_decide_eq_true_2 by done.
      rewrite (bool_decide_eq_true_2 (a ∈ i :: rows /\ _))
        by (split; [by apply list_elem_of_further|done]).
      rewrite bool_decide_eq_false_2; [done|]. intros [-> ?]. lia.
    + rewrite (bool_decide_eq_false_2 _ Hn).
      destruct (decide (a = i /\ (i < b < n)%nat)) as [[-> Hb]|Hn'].
      * rewrite (bool_decide_eq_true_2 (i = i /\ _)) by done.
        rewrite bool_decide_eq_true_2; [done|].
        split; [apply list_elem_of_here|done].
      * rewrite (bool_decide_eq_false_2 _ Hn').
        rewrite bool_decide_eq_false_2; [done|]. intros [H Hab].
        apply elem_of_cons in H as [->|H]; [by apply Hn'|by apply Hn].
Qed.

(** X24. After the loops of the hyperelastic [assemble_system] that copy
    [local_matrix(j, i)] to [local_matrix(i, j)] for [j > i], the local
    matrix is symmetric and its lower triangle, the diagonal included, is
    unchanged. *)
Theorem assemble_system_symmetric_matrix (dofs_per_cell : nat) (M : Matrix)
    (i j : nat) :
  (i < dofs_per_cell)%nat -> (j < dofs_per_cell)%nat ->
  mirror_lower_triangle dofs_per_cell M i j
  = mirror_lower_triangle dofs_per_cell M j i /\
  ((j <= i)%nat -> mirror_lower_triangle dofs_per_cell M i j = M i j).
Proof.
  intros Hi Hj. unfold mirror_lower_triangle.
  rewrite !mirror_rows by apply NoDup_seq.
  destruct (Nat.lt_trichotomy i j) as [Hlt|[->|Hgt]].
  - rewrite bool_decide_eq_true_2 by (rewrite elem_of_seq; lia).
    rewrite bool_decide_eq_false_2 by lia. split; [done|lia].
  - split; [done|]. intros _. rewrite bool_decide_eq_false_2; [done|lia].
  - rewrite bool_decide_eq_false_2 by lia.
    rewrite bool_decide_eq_true_2 by (rewrite elem_of_seq; lia). done.
Qed.

Lemma block_index_inj (nq k q k' q' : nat) :
  (q < nq)%nat -> (q' < nq)%nat ->
  (k * nq + q = k' * nq + q')%nat -> k = k' /\ q = q'.
Proof.
  intros Hq Hq' E.
  assert (Hk : k = ((k * nq + q) / nq)%nat).
  { apply (Nat.div_unique _ _ _ q); lia. }
  assert (Hk' : k' = ((k' * nq + q') / nq)%nat).
  { apply (Nat.div_unique _ _ _ q'); lia. }
  assert (k = k') by congruence. split; [done|]. subst. lia.
Qed.

Lemma vectorize_length (n nq : nat) (component : nat -> nat -> Q) :
  length (vectorize_at_quadrature_points n nq component) = (nq * n)%nat.
Proof.
  unfold vectorize_at_quadrature_points.
  assert (H : forall (ql kl : list nat) (quad : Vector),
            length (fold_left
                      (fun quad q =>
                         fold_left
                           (fun quad k => <[(k * nq + q)%nat := component q k]> quad)
                           kl quad) ql quad) = length quad).
  { unfold Vector. induction ql as [|q ql IHq]; intros kl quad; simpl; [done|].
    rewrite IHq. clear IHq. revert quad.
    induction kl as [|k kl IHk]; intros quad; simpl; [done|].
    by rewrite IHk, length_insert. }
  by rewrite H, length_replicate.
Qed.

Lemma vectorize_k_loop (nq q : nat) (component : nat -> nat -> Q) (kl : list nat) :
  forall (quad : Vector) k' q',
    (q' < nq)%nat -> (q < nq)%nat ->
    vget (fold_left (fun quad k => <[(k * nq + q)%nat := component q k]> quad)
                    kl quad) (k' * nq + q')
    = if bool_decide (q' = q /\ k' ∈ kl /\ (k' * nq + q' < length quad)%nat)
      then component q' k' else vget quad (k' * nq + q').
Proof.
  induction kl as [|k kl IH]; intros quad k' q' Hq' Hq; cbn [fold_left].
  - rewrite bool_decide_eq_false_2; [done|]. intros (_ & H & _).
    by apply elem_of_nil in H.
  - rewrite IH by done. unfold Vector in *. rewrite length_insert.
    destruct (decide (q' = q /\ k' ∈ kl /\ (k' * nq + q' < length quad)%nat))
      as [(-> & Hk & Hl)|Hn].
    + rewrite !bool_decide_eq_true_2; [done| |done].
      split; [done|]. split; [by apply list_elem_of_further|done].
    + rewrite (bool_decide_eq_false_2 _ Hn).
      destruct (decide (k' = k /\ q' = q)) as [[-> ->]|Hne].
      * destruct (decide (k * nq + q < length quad)%nat) as [Hl|Hl].
        -- rewrite vget_insert_eq by done.
           rewrite bool_decide_eq_true_2; [done|].
           split; [done|]. split; [apply list_elem_of_here|done].
        -- rewrite list_insert_ge by lia.
           rewrite bool_decide_eq_false_2; [done|]. intros (_ & _ & ?). lia.
      * rewrite vget_insert_ne
          by (intros E; apply Hne; apply block_index_inj in E as [-> ->]; done).
        rewrite bool_decide_eq_false_2; [done|]. intros (-> & H & Hl).
        apply elem_of_cons in H as [->|H]; [by apply Hne|].
        apply Hn. by repeat split.
Qed.

Lemma vectorize_entry (n nq k q : nat) (component : nat -> nat -> Q) :
  (k < n)%nat -> (q < nq)%nat ->
  vget (vectorize_at_quadrature_points n nq component) (k * nq + q)
  = component q k.
Proof.
  intros Hk Hq. unfold vectorize_at_quadrature_points.
  assert (H : forall (ql : list nat) (quad : Vector),
            NoDup ql -> Forall (fun x => (x < nq)%nat) ql ->
            length quad = (nq * n)%nat ->
            vget (fold_left
                    (fun quad q =>
                       fold_left
                         (fun quad k => <[(k * nq + q)%nat := component q k]> quad)
                         (seq 0 n) quad) ql quad) (k * nq + q)
            = if bool_decide (q ∈ ql) then component q k
              else vget quad (k * nq + q)).
  { induction ql as [|q0 ql IHq]; intros quad Hnd Hall Hlen; cbn [fold_left].
    - rewrite bool_decide_eq_false_2; [done|]. apply not_elem_of_nil.
    - apply NoDup_cons in Hnd as [Hq0 Hnd]. apply Forall_cons in Hall as [Hq0' Hall].
      rewrite IHq; [|done|done|].
      2:{ clear IHq. revert quad Hlen. generalize (seq 0 n) as kl.
          unfold Vector. induction kl as [|k0 kl IHk]; intros quad Hlen; simpl;
            [done|].
          apply IHk. by rewrite length_insert. }
      rewrite vectorize_k_loop by done.
      destruct (decide (q ∈ ql)) as [Hin|Hnin].
      + rewrite !bool_decide_eq_true_2; [done| |done]. by apply list_elem_of_further.
      + rewrite (bool_decide_eq_false_2 _ Hnin).
        destruct (decide (q = q0)) as [->|Hne].
        * rewrite !bool_decide_eq_true_2; [done|apply list_elem_of_here|].
          split; [done|]. split; [apply elem_of_seq; lia|]. rewrite Hlen. nia.
        * rewrite !bool_decide_eq_false_2; [done| |].
          -- intros H. apply elem_of_cons in H as [?|?]; done.
          -- by intros [? _]. }
  rewrite H.
  - rewrite bool_decide_eq_true_2; [done|]. apply elem_of_seq. lia.
  - apply NoDup_seq.
  - apply Forall_forall. intros x Hx. apply elem_of_seq in Hx. lia.
  - by rewrite length_replicate.
Qed.

Lemma row_in_block (m i i0 a : nat) :
  (a < m)%nat ->
  (i * m <= i0 * m + a)%nat /\ (i0 * m + a < i * m + m)%nat <-> i = i0.
Proof.
  intros Ha. split; [|intros ->; lia].
  intros [H1 H2].
  destruct (Nat.lt_trichotomy i i0) as [Hlt|[->|Hgt]]; [|done|]; exfalso; nia.
Qed.

Lemma qpt_to_dof_fold (D N m cols : nat) (tmp : Matrix) (i0 a c : nat)
    (bl : list nat) : forall M : Matrix,
  (a < m)%nat -> (i0 * m + a < D)%nat -> NoDup bl ->
  fold_left (fun M i => matrix_fill D N M m cols tmp (i * m) (i * cols)) bl M
    (i0 * m + a)%nat c
  = if bool_decide (i0 ∈ bl) && Nat.leb (i0 * cols) c
       && Nat.ltb c (Nat.min N (i0 * cols + cols))
    then tmp a (c - i0 * cols)%nat
    else M (i0 * m + a)%nat c.
Proof.
  intros M Ha HD Hnd. revert M.
  induction bl as [|i bl IH]; intros M; cbn [fold_left].
  - rewrite bool_decide_eq_false_2 by apply not_elem_of_nil. done.
  - apply NoDup_cons in Hnd as [Hi Hnd]. rewrite IH by done.
    destruct (decide (i0 ∈ bl)) as [Hin|Hnin].
    + rewrite !bool_decide_eq_true_2 by (try done; by apply list_elem_of_further).
      cbn [andb].
      destruct (Nat.leb (i0 * cols) c && Nat.ltb c (Nat.min N (i0 * cols + cols)));
        [done|].
      unfold matrix_fill.
      assert (Hne : i <> i0) by (intros ->; done).
      assert (Nat.leb (i * m) (i0 * m + a)
              && Nat.ltb (i0 * m + a) (Nat.min D (i * m + m)) = false) as ->; [|done].
      apply andb_false_iff.
      destruct (Nat.leb_spec (i * m) (i0 * m + a)); [|by left]. right.
      apply Nat.ltb_ge.
      destruct (Nat.le_gt_cases (Nat.min D (i * m + m)) (i0 * m + a)); [done|].
      exfalso. apply Hne. apply (row_in_block m i i0 a Ha). lia.
    + rewrite (bool_decide_eq_false_2 _ Hnin). cbn [andb].
      unfold matrix_fill.
      destruct (decide (i = i0)) as [->|Hne].
      * rewrite bool_decide_eq_true_2 by apply list_elem_of_here. cbn [andb].
        assert (Nat.leb (i0 * m) (i0 * m + a)
                && Nat.ltb (i0 * m + a) (Nat.min D (i0 * m + m)) = true) as ->.
        { apply andb_true_iff. split; [apply Nat.leb_le; lia|apply Nat.ltb_lt; lia]. }
        cbn [andb].
        replace (i0 * m + a - i0 * m)%nat with a by lia.
        by destruct (Nat.leb (i0 * cols) c
                     && Nat.ltb c (Nat.min N (i0 * cols + cols))).
      * rewrite bool_decide_eq_false_2
          by (intros H; apply elem_of_cons in H as [?|?]; done).
        cbn [andb].
        assert (Nat.leb (i * m) (i0 * m + a)
                && Nat.ltb (i0 * m + a) (Nat.min D (i * m + m)) = false) as ->;
          [|done].
        apply andb_false_iff.
        destruct (Nat.leb_spec (i * m) (i0 * m + a)); [|by left]. right.
        apply Nat.ltb_ge.
        destruct (Nat.le_gt_cases (Nat.min D (i * m + m)) (i0 * m + a)); [done|].
        exfalso. apply Hne. apply (row_in_block m i i0 a Ha). lia.
Qed.

Lemma qpt_to_dof_entry (n m nq : nat) (tmp : Matrix) (k a c : nat) :
  (k < n)%nat -> (a < m)%nat ->
  qpt_to_dof (n * m) n nq tmp (k * m + a)%nat c
  = if Nat.leb (k * nq) c && Nat.ltb c (k * nq + nq)
    then tmp a (c - k * nq)%nat else 0.
Proof.
  intros Hk Ha. unfold qpt_to_dof.
  assert (Hn : (0 < n)%nat) by lia.
  replace (n * m / n)%nat with m by (rewrite Nat.mul_comm, Nat.div_mul; lia).
  replace (n * nq / n)%nat with nq by (rewrite Nat.mul_comm, Nat.div_mul; lia).
  rewrite qpt_to_dof_fold; [|done|nia|apply NoDup_seq].
  rewrite bool_decide_eq_true_2 by (apply elem_of_seq; lia). cbn [andb].
  replace (Nat.min (n * nq) (k * nq + nq)) with (k * nq + nq)%nat by nia.
  done.
Qed.

Lemma sum_rows_pointwise (h h' : nat -> Q) (l : list nat) :
  (forall j, j ∈ l -> h j == h' j) ->
  fold_left (fun acc j => acc + h j) l 0 == fold_left (fun acc j => acc + h' j) l 0.
Proof.
  induction l as [|j l IH]; intros H; simpl; [reflexivity|].
  rewrite (sum_rows_shift h), (sum_rows_shift h').
  rewrite IH by (intros j' Hj'; apply H; by apply list_elem_of_further).
  rewrite (H j) by apply list_elem_of_here. reflexivity.
Qed.

Lemma sum_rows_zero (h : nat -> Q) (l : list nat) :
  (forall j, j ∈ l -> h j == 0) -> fold_left (fun acc j => acc + h j) l 0 == 0.
Proof.
  induction l as [|j l IH]; intros H; simpl; [reflexivity|].
  rewrite sum_rows_shift.
  rewrite IH by (intros j' Hj'; apply H; by apply list_elem_of_further).
  rewrite (H j) by apply list_elem_of_here. ring.
Qed.

Lemma sum_rows_app (h : nat -> Q) (l1 l2 : list nat) :
  fold_left (fun acc j => acc + h j) (l1 ++ l2) 0
  == fold_left (fun acc j => acc + h j) l1 0
     + fold_left (fun acc j => acc + h j) l2 0.
Proof. rewrite fold_left_app. apply sum_rows_shift. Qed.

Lemma sum_rows_offset (h : nat -> Q) (a n : nat) :
  fold_left (fun acc j => acc + h j) (seq a n) 0
  == fold_left (fun acc q => acc + h (a + q)%nat) (seq 0 n) 0.
Proof.
  induction n as [|n IH]; [reflexivity|].
  rewrite !seq_S, !sum_rows_app, IH. simpl. ring.
Qed.

(** X25. In [update_strain_and_stress] the nodal values of a cell are the
    projection of each tensor component on its own: the entry [k * m + a]
    of [cell_strain] (or [cell_stress]) is the sum over the quadrature points
    [q] of [tmp(a, q)] times component [k] at [q], where [tmp] is the
    projection matrix of one component and [m] its number of rows. *)
Theorem update_strain_and_stress_layout (n m n_q_points : nat) (tmp : Matrix)
    (component : nat -> nat -> Q) (k a : nat) :
  (k < n)%nat -> (a < m)%nat ->
  vget (project_to_dofs (n * m) n n_q_points tmp component) (k * m + a)
  == fold_left (fun acc q => acc + tmp a q * component q k) (seq 0 n_q_points) 0.
Proof.
  intros Hk Ha. unfold project_to_dofs, vmult_rect.
  rewrite coord_map_seq by nia.
  assert (Hsplit : seq 0 (n * n_q_points)
                   = seq 0 (k * n_q_points)
                     ++ seq (k * n_q_points) n_q_points
                     ++ seq (k * n_q_points + n_q_points)
                            (n * n_q_points - (k * n_q_points + n_q_points))).
  { rewrite <- !seq_app. f_equal. nia. }
  rewrite Hsplit, !sum_rows_app.
  rewrite (sum_rows_zero _ (seq 0 (k * n_q_points))).
  2:{ intros j Hj. apply elem_of_seq in Hj. rewrite qpt_to_dof_entry by done.
      rewrite (proj2 (Nat.leb_gt _ _)) by lia. simpl. ring. }
  rewrite (sum_rows_zero _ (seq (k * n_q_points + n_q_points) _)).
  2:{ intros j Hj. apply elem_of_seq in Hj. rewrite qpt_to_dof_entry by done.
      rewrite (proj2 (Nat.ltb_ge _ _)) by lia. rewrite andb_false_r. ring. }
  rewrite sum_rows_offset.
  rewrite (sum_rows_pointwise _ (fun q => tmp a q * component q k)).
  - ring.
  - intros q Hq. apply elem_of_seq in Hq. rewrite qpt_to_dof_entry by done.
    rewrite (proj2 (Nat.leb_le _ _)), (proj2 (Nat.ltb_lt _ _)) by lia. simpl.
    replace (k * n_q_points + q - k * n_q_points)%nat with q by lia.
    rewrite vectorize_entry by lia. reflexivity.
Qed.

(** ** The further properties on the examples *)

(** The translated decimal square: the level 0.25 of its lower vertices
    lies between the y-bounds of the box. *)
Lemma update_solid_box_contains_witness :
  vget (Rounded.update_solid_box binary64 2 decimal_displacement [square_cell]
          decimal_vertices).1 2 <= 1 # 4
  /\ (1 # 4 <= vget (Rounded.update_solid_box binary64 2 decimal_displacement
                       [square_cell] decimal_vertices).1 3).
Proof.
  assert (H : [fadd binary64 (double (1 # 10)) (double (3 # 10)); 1 # 4]
              ∈ Rounded.move_solid_mesh binary64 2 true decimal_displacement
                  [square_cell] decimal_vertices).
  { vm_compute. apply list_elem_of_here. }
  exact (proj1 (update_solid_box_contains binary64 2 decimal_displacement
                  [square_cell] decimal_vertices _ H) 1%nat ltac:(lia)).
Defined.

Lemma update_solid_box_tight_witness :
  exists w, w ∈ move_solid_mesh 2 true [0] strip_cells strip_vertices /\
    vget strip_box 1 = coord w 0.
Proof.
  exact (proj2 (update_solid_box_tight 2 [0] strip_cells strip_vertices 0
                  ltac:(discriminate) ltac:(lia))).
Defined.

(** In the example run the dofs 0 and 1 of the fluid cell, at the centre of
    the solid, get lines; dof 3, outside the solid, gets none. *)
Lemma find_fluid_bc_lines_paired_witness :
  (is_Some (final_inner_nonzero example_fluid_bc_result !! 0%nat)
   <-> is_Some (final_inner_zero example_fluid_bc_result !! 0%nat)) /\
  (is_Some (final_inner_nonzero example_fluid_bc_result !! 3%nat)
   <-> is_Some (final_inner_zero example_fluid_bc_result !! 3%nat)).
Proof.
  split.
  - exact (proj1 (find_fluid_bc_lines_paired 2 example_parameters
                    (square_queries true) q1_element example_present_solution
                    square_solid square_box
                    (collect_solid_boundaries 2 (solid_cells square_solid))
                    [example_fluid_cell] ∅ ∅ ∅ ∅ example_fluid_bc_result 0
                    example_fluid_bc_ok)).
  - exact (proj1 (find_fluid_bc_lines_paired 2 example_parameters
                    (square_queries true) q1_element example_present_solution
                    square_solid square_box
                    (collect_solid_boundaries 2 (solid_cells square_solid))
                    [example_fluid_cell] ∅ ∅ ∅ ∅ example_fluid_bc_result 3
                    example_fluid_bc_ok)).
Defined.

(** In the example run dof 1 gets its line from a support point; when the
    solver holds a line for dof 0 before the pass, that is where the line of
    dof 0 comes from. *)
Lemma find_fluid_bc_line_source_witness :
  (exists value,
     nonzero_constraints example_fluid_bc_result !! 1%nat = Some value /\
     line_source (example_env true) [example_fluid_cell] 1 value) /\
  is_Some (held_nonzero !! 0%nat).
Proof.
  pose proof (find_fluid_bc_line_source 2 example_parameters
                (square_queries true) q1_element example_present_solution
                square_solid square_box
                (collect_solid_boundaries 2 (solid_cells square_solid))
                [example_fluid_cell] ∅ ∅ ∅ ∅ example_fluid_bc_result 1) as H.
  pose proof (find_fluid_bc_line_source 2 example_parameters
                (square_queries true) q1_element example_present_solution
                square_solid square_box
                (collect_solid_boundaries 2 (solid_cells square_solid))
                [example_fluid_cell] held_nonzero held_zero ∅ ∅
                held_fluid_bc_result 0) as Hheld.
  cbv zeta in H, Hheld.
  split.
  - destruct (H example_fluid_bc_ok ltac:(vm_compute; eauto)) as [Hold|[_ Hnew]].
    + destruct Hold as [x Hx]. discriminate Hx.
    + exact Hnew.
  - destruct (Hheld ltac:(vm_compute; reflexivity) ltac:(vm_compute; eauto))
      as [Hold|[Hnone _]].
    + exact Hold.
    + discriminate Hnone.
Defined.

Lemma find_fluid_bc_cell_records_witness :
  new_cell_property example_fluid_bc_result !! 0%nat
  = Some (indicator_records (example_env true) example_fluid_cell) /\
  new_cell_property example_fluid_bc_result !! 7%nat = None.
Proof.
  pose proof (find_fluid_bc_cell_records 2 example_parameters
                (square_queries true) q1_element example_present_solution
                square_solid square_box
                (collect_solid_boundaries 2 (solid_cells square_solid))
                [example_fluid_cell] ∅ ∅ ∅ ∅ example_fluid_bc_result) as H.
  cbv zeta in H.
  destruct (H ltac:(repeat constructor; set_solver) example_fluid_bc_ok)
    as [Hown Hother].
  split.
  - exact (Hown example_fluid_cell ltac:(repeat constructor) eq_refl eq_refl).
  - exact (Hother 7%nat
             ltac:(intros c Hc Hid; apply list_elem_of_singleton in Hc;
                   subst c; discriminate Hid)).
Defined.

(** With an interpolator that finds nothing the example run aborts at the
    centre of the solid, the first support point of the fluid cell. *)
Lemma find_fluid_bc_abort_point_witness :
  exists c i, c ∈ [example_fluid_cell] /\ is_artificial c = false /\
    (i < length (unit_support_points q1_element))%nat /\
    [1 # 2; 1 # 2] = nth i (support_points c) [] /\
    base_group q1_element i ≠ 1%nat /\
    in_cell_support_point 2 (nth i (unit_support_points q1_element) []) = false /\
    env_point_in_solid (example_env false) [1 # 2; 1 # 2] = true /\
    exists hint,
      interpolator_found_cell (square_queries false)
        (env_moved_vertices (example_env false)) [1 # 2; 1 # 2] hint = false.
Proof.
  exact (find_fluid_bc_abort_point 2 example_parameters
           (square_queries false) q1_element example_present_solution
           square_solid square_box
           (collect_solid_boundaries 2 (solid_cells square_solid))
           [example_fluid_cell] ∅ ∅ ∅ ∅ [1 # 2; 1 # 2]
           ltac:(vm_compute; reflexivity)).
Defined.

(** The left side of the unit square, at the boundary, gets the traction
    (4, 0). *)
Lemma find_solid_bc_records_witness :
  exists ptr',
    find_solid_bc 2 clamped_parameters example_ranks 1 square_solid
      [replicate 4 [0; 0]] !! 0%nat = Some ptr' /\
    length ptr' = 4%nat /\
    ptr' !! 0%nat
    = Some (face_traction 2 clamped_parameters example_ranks
              (midpoint (move_solid_mesh 2 true (replicate 8 0) [square_cell]
                           [[0; 0]; [1; 0]; [0; 1]; [1; 1]]) 0 2)
              [-(1); 0]).
Proof.
  pose proof (find_solid_bc_records 2 clamped_parameters example_ranks 1
                square_solid [replicate 4 [0; 0]] 0 square_cell
                (replicate 4 [0; 0])) as H.
  cbv zeta in H.
  destruct (H eq_refl eq_refl) as (ptr' & H1 & H2 & H3 & _).
  exists ptr'. split; [exact H1|]. split; [exact H2|].
  exact (H3 0%nat 0%nat _ ltac:(vm_compute; lia) eq_refl ltac:(lia)
            ltac:(vm_compute; lia)).
Defined.

(** The pressure 5 on the face with normal (-1, 0). *)
Lemma find_solid_bc_pressure_load_witness :
  coord (face_traction 2 example_parameters still_ranks [0; 1 # 2] [-(1); 0]) 0
  == - global_value still_ranks [0; 1 # 2] 2 * coord [-(1); 0] 0.
Proof.
  apply (find_solid_bc_pressure_load 2 example_parameters still_ranks
           [0; 1 # 2] [-(1); 0] 0).
  - intros a b Ha Hb.
    destruct a as [|[|a]]; [| |lia]; (destruct b as [|[|b]]; [| |lia]);
      vm_compute; reflexivity.
  - lia.
Defined.

(** The unit square cell on rank 0, seen from ranks 0 and 1. *)
Lemma assemble_system_same_neumann_loop_witness :
  assemble_rhs_shared_hyper example_parameters example_shape 0
    [example_assembly_cell] !! 0%nat
  = assemble_rhs_hyper example_parameters example_shape [example_assembly_cell]
      !! 0%nat /\
  assemble_rhs_shared_hyper example_parameters example_shape 1
    [example_assembly_cell] !! 0%nat
  = Some None.
Proof.
  split.
  - exact (proj2 (assemble_system_same_neumann_loop example_parameters
                    example_shape 0 [example_assembly_cell])
             0%nat example_assembly_cell eq_refl).
  - exact (proj2 (assemble_system_same_neumann_loop example_parameters
                    example_shape 1 [example_assembly_cell])
             0%nat example_assembly_cell eq_refl).
Defined.

(** The lower side of the unit square, with boundary id 0 and the
    prescribed traction (0, -1). *)
Lemma assemble_system_prescribed_load_witness :
  neumann_face_step solid_only_parameters example_shape example_assembly_cell
    (replicate 8 0) 2
  = prescribed_face_load solid_only_parameters example_shape
      example_assembly_cell 2 [0; -(1)] (replicate 8 0).
Proof.
  exact (proj1 (assemble_system_prescribed_load solid_only_parameters
                  example_shape example_assembly_cell (replicate 8 0) 2
                  (square_face 0 0 1 [0; -(1)]) [0; -(1)]
                  ltac:(discriminate) eq_refl eq_refl
                  ltac:(vm_compute; reflexivity))).
Defined.

Lemma assemble_system_ignores_fsi_traction_witness :
  neumann_cell solid_only_parameters example_shape
    (with_fsi_traction example_assembly_cell [])
  = neumann_cell solid_only_parameters example_shape example_assembly_cell.
Proof.
  exact (proj1 (assemble_system_ignores_fsi_traction solid_only_parameters
                  example_shape example_assembly_cell [] ltac:(discriminate))).
Defined.

Lemma assemble_system_unknown_neumann_type_witness :
  Forall2 Qeq (neumann_cell untyped_parameters example_shape example_assembly_cell)
          (replicate 8 0).
Proof.
  exact (proj1 (assemble_system_unknown_neumann_type untyped_parameters
                  example_shape example_assembly_cell ltac:(discriminate)
                  ltac:(discriminate) ltac:(discriminate))).
Defined.

(** The quick solver: the shared loop ends after one iteration, and so does
    the serial one. *)
Lemma newton_loop_serial_stops_first_witness :
  exists st2,
    newton_loop 2 Serial example_parameters quick_solver
      (mkNewtonState tt 0 1 1 1 1 1 1) = Some (Ok st2) /\
    (newton_iteration st2 <= 1)%nat.
Proof.
  exact (newton_loop_serial_stops_first example_parameters quick_solver 2
           (mkNewtonState tt 0 1 1 1 1 1 1) quick_final_state
           ltac:(vm_compute; reflexivity)).
Defined.

Lemma run_one_step_first_iteration_witness :
  (1 <= 1)%nat /\
  (error_update quick_final_state <= 1 # 1000000000000 \/
   error_residual quick_final_state <= 1 # 1000000000000).
Proof.
  pose proof (run_one_step_first_iteration Serial example_parameters quick_solver
                ltac:(left; vm_compute; reflexivity)) as (H1 & H2 & _).
  split.
  - exact (H1 2%nat true tt tt 1%nat ltac:(vm_compute; reflexivity)).
  - exact (H2 2%nat tt quick_final_state ltac:(vm_compute; reflexivity) eq_refl).
Defined.

(** One dof at displacement 1 and at rest, with time step 1 and no
    damping: the acceleration 2 takes it to 3/2. *)
Lemma linear_elasticity_newmark_witness :
  vget (kin_displacement
          (linear_elasticity_update 0 1 example_kinematics [2])) 0
  - vget (kin_displacement example_kinematics) 0
  == 1 * (vget (kin_velocity example_kinematics) 0
          + vget (kin_velocity (linear_elasticity_update 0 1 example_kinematics [2]))
                 0) / 2.
Proof.
  exact (linear_elasticity_newmark 0 1 example_kinematics [2] 0
           ltac:(simpl; lia) ltac:(simpl; lia)).
Defined.

Lemma hyper_elasticity_newmark_witness :
  vget (kin_displacement
          (linear_elasticity_update 0 1 example_kinematics
             (kin_acceleration
                (hyper_elasticity_update 0 1 example_kinematics [3 # 2])))) 0
  == vget [3 # 2] 0.
Proof.
  exact (proj1 (hyper_elasticity_newmark 0 1 example_kinematics [3 # 2] 0
                  ltac:(vm_compute; discriminate) ltac:(simpl; lia)
                  ltac:(simpl; lia) ltac:(simpl; lia))).
Defined.

Lemma compute_volume_shares_witness :
  mpi_sum (map (fun r => shared_compute_volume 2 r example_volume_cells) (seq 0 2))
  == compute_volume 2 example_volume_cells.
Proof.
  exact (proj2 (compute_volume_shares 2 2 example_volume_cells
                  ltac:(repeat constructor))).
Defined.

(** Five levels in use and [refine_mesh (1, 4)]: the cell on level 4 at the
    solid keeps its level. *)
Lemma refine_mesh_flags_spec_witness :
  exists c',
    refine_mesh_flags taxi_distance [[1 # 2; 1 # 2]] 5 1 4 example_flag_cells
      !! 1%nat = Some c' /\
    fc_level c' = 4%nat.
Proof.
  destruct (refine_mesh_flags_spec taxi_distance [[1 # 2; 1 # 2]] 5 1 4
              example_flag_cells 1 (mkFlagCell 4 [1 # 2; 1 # 2] false false)
              eq_refl) as (c' & H1 & H2 & _).
  exists c'. split; [exact H1|exact H2].
Defined.

(** One dof with mass 2 and stiffness 4, load 10: the system matrix is 3,
    the right-hand side 6, and the acceleration 2 solves the system. *)
Lemma linear_elasticity_equation_of_motion_witness :
  vget (vmult 1 (fun _ _ => 2)
          (kin_acceleration (linear_elasticity_update 0 1 example_kinematics [2])))
       0
  + vget (vmult 1 (fun _ _ => 4)
            (kin_displacement (linear_elasticity_update 0 1 example_kinematics [2])))
         0
  == vget [10] 0.
Proof.
  exact (linear_elasticity_equation_of_motion 1 0 1 (fun _ _ => 2) (fun _ _ => 4)
           (fun _ _ => 3) [10] example_kinematics [2] 0
           eq_refl eq_refl eq_refl ltac:(lia)
           ltac:(intros j Hj; vm_compute; reflexivity)
           ltac:(vm_compute; reflexivity)).
Defined.

Lemma assemble_system_symmetric_matrix_witness :
  mirror_lower_triangle 2 lower_triangle_matrix 0%nat 1%nat
  = mirror_lower_triangle 2 lower_triangle_matrix 1%nat 0%nat.
Proof.
  exact (proj1 (assemble_system_symmetric_matrix 2 lower_triangle_matrix 0 1
                  ltac:(lia) ltac:(lia))).
Defined.

(** Four components, two nodes and two quadrature points. *)
Lemma update_strain_and_stress_layout_witness :
  vget (project_to_dofs (4 * 2) 4 2 (fun a q => inject_Z (Z.of_nat (a + q)))
          (fun q k => inject_Z (Z.of_nat (10 * k + q)))) (3 * 2 + 1)
  == fold_left (fun acc q => acc + inject_Z (Z.of_nat (1 + q))
                                   * inject_Z (Z.of_nat (10 * 3 + q)))
               (seq 0 2) 0.
Proof.
  exact (update_strain_and_stress_layout 4 2 2
           (fun a q => inject_Z (Z.of_nat (a + q)))
           (fun q k => inject_Z (Z.of_nat (10 * k + q))) 3 1
           ltac:(lia) ltac:(lia)).
Defined.
